(** * Parameter validation of the seed tool (src/params.cpp)

    A shallow embedding of [Params::validate] and of the steps it calls,
    followed by the properties of the validation pipeline.

    The C++ object [Params] is filled in by a sequence of member functions.
    Each of them may leave through [argp_error], which prints a diagnostic
    and ends the process ([argp_parse] is called with flags 0), or through a
    C++ exception ([std::stoi], the UR decoder), which [parse_opt] catches
    and turns into [argp_error(state, "%s", e.what())].  The embedding
    threads the object and the process environment through a small
    state/exit/exception monad. *)

From Stdlib Require Import ZArith List String Ascii Bool Lia DecimalString.
Import ListNotations.

#[local] Open Scope string_scope.
#[local] Open Scope Z_scope.

(* ================================================================== *)
(** ** Library functions the source calls *)

(** C++ exceptions derived from [std::exception]; [what] is [e.what()]. *)
Inductive exn : Type :=
| invalid_argument (msg : string)
| out_of_range (msg : string)
| runtime_error (msg : string).

Definition what (e : exn) : string :=
  match e with
  | invalid_argument m => m
  | out_of_range m => m
  | runtime_error m => m
  end.

(** The double quote character, for diagnostics that quote a value. *)
Definition dquote : string := String (ascii_of_nat 34) EmptyString.

(** [isspace] in the C locale: space, \t, \n, \v, \f, \r. *)
Definition isspace (c : ascii) : bool :=
  let n := nat_of_ascii c in
  (n =? 32)%nat || ((9 <=? n)%nat && (n <=? 13)%nat).

Fixpoint skip_spaces (s : string) : string :=
  match s with
  | String c r => if isspace c then skip_spaces r else s
  | EmptyString => s
  end.

Definition digit (c : ascii) : option Z :=
  let n := Z.of_nat (nat_of_ascii c) in
  if (48 <=? n) && (n <=? 57) then Some (n - 48) else None.

(** The longest run of decimal digits at the head of [s], accumulated
    into [acc], and what follows it. *)
Fixpoint digits (s : string) (acc : Z) : Z * string :=
  match s with
  | String c r =>
      match digit c with
      | Some d => digits r (10 * acc + d)
      | None => (acc, s)
      end
  | EmptyString => (acc, s)
  end.

Definition starts_with_digit (s : string) : bool :=
  match s with
  | String c _ => match digit c with Some _ => true | None => false end
  | EmptyString => false
  end.

(** One signed decimal conversion, as [strtol(.., 10)] and scanf's [%d]
    read it: leading white space, an optional sign, at least one digit.
    The value is the mathematical one; callers apply their own range. *)
Inductive conv : Type :=
| InputFailure                       (* input ended before any character *)
| MatchFailure                       (* no digit where one is required *)
| Converted (v : Z) (rest : string).

Definition scan_integer (s : string) : conv :=
  match skip_spaces s with
  | EmptyString => InputFailure
  | String c r =>
      let neg := Ascii.eqb c "-" in
      let body := if neg || Ascii.eqb c "+" then r else String c r in
      if starts_with_digit body then
        let '(v, rest) := digits body 0 in
        Converted (if neg then - v else v) rest
      else MatchFailure
  end.

Definition INT_MIN : Z := - 2 ^ 31.
Definition INT_MAX : Z := 2 ^ 31 - 1.
Definition LONG_MIN : Z := - 2 ^ 63.
Definition LONG_MAX : Z := 2 ^ 63 - 1.

(** [std::stoi(str)]: [strtol] in base 10; no conversion throws
    [invalid_argument], a value that does not fit an [int] throws
    [out_of_range].  Characters after the number are ignored.  libstdc++
    passes the function name as the exception text. *)
Definition stoi (s : string) : exn + Z :=
  match scan_integer s with
  | Converted v _ =>
      if (v <? INT_MIN) || (INT_MAX <? v) then inl (out_of_range "stoi")
      else inr v
  | _ => inl (invalid_argument "stoi")
  end.

(** Storing a [%zd] conversion into a [size_t]: the conversion saturates
    at the range of a signed 64-bit integer, the object keeps the bits. *)
Definition to_size_t (v : Z) : Z :=
  (Z.max LONG_MIN (Z.min LONG_MAX v)) mod 2 ^ 64.

(** Matching a literal of the format against the head of the input. *)
Fixpoint match_literal (lit s : string) : option string :=
  match lit with
  | EmptyString => Some s
  | String a lit' =>
      match s with
      | String b s' => if Ascii.eqb a b then match_literal lit' s' else None
      | EmptyString => None
      end
  end.

(** [sscanf(s, "%zd-of-%zd", &threshold, &count)]: the number of items
    assigned ([EOF] = -1 when the input ends before the first conversion)
    and the two objects as they are afterwards; an object that was not
    assigned keeps the content [u] it had. *)
Definition EOF : Z := -1.

Definition sscanf_zd_of_zd (s : string) (u : Z) : Z * Z * Z :=
  match scan_integer s with
  | InputFailure => (EOF, u, u)
  | MatchFailure => (0, u, u)
  | Converted t rest =>
      match match_literal "-of-" rest with
      | None => (1, to_size_t t, u)
      | Some rest' =>
          match scan_integer rest' with
          | Converted n _ => (2, to_size_t t, to_size_t n)
          | _ => (1, to_size_t t, u)
          end
      end
  end.

(** [printf]'s [%d] for a non-negative constant. *)
Definition decimal (n : Z) : string :=
  NilEmpty.string_of_uint (Nat.to_uint (Z.to_nat n)).

(* ================================================================== *)
(** ** Data model *)

(** [RawParams]: the option strings as [parse_opt] stored them.  An
    option that was not given is the empty string. *)
Module Raw.
Record t : Type := mk {
  count : string;
  random_deterministic : string;
  slip39_groups : list string;
  ints_high : string;
  ints_low : string;
  input_format : string;
  output_format : string;
  slip39_groups_threshold : string;
  is_ur : bool;
  max_part_length : string;
  args : list string
}.

Definition empty : t :=
  mk "" "" [] "" "" "" "" "" false "" [].

Definition set_args (a : list string) (r : t) : t :=
  mk (count r) (random_deterministic r) (slip39_groups r) (ints_high r)
     (ints_low r) (input_format r) (output_format r)
     (slip39_groups_threshold r) (is_ur r) (max_part_length r) a.
End Raw.

(** [group_descriptor] of the SLIP39 library; [passwords] is a pointer,
    [None] is [NULL]. *)
Record group_descriptor : Type := mk_group {
  threshold : Z;
  g_count : Z;
  passwords : option (list string)
}.

(** The format classes.  The two that carry parameters the validation
    writes are [FormatInts] and [FormatSLIP39]. *)
Inductive Format : Type :=
| FormatRandom
| FormatHex
| FormatBits
| FormatCards
| FormatDice
| FormatBase6
| FormatBase10
| FormatInts (low high : Z)
| FormatBIP39
| FormatSLIP39 (groups_threshold : Z) (groups : list group_descriptor)
| FormatBC32.

Module Key.
Inductive t : Type :=
| unknown | random | hex | bits | cards | dice | base6 | base10
| ints | bip39 | slip39 | bc32.
End Key.

(** Modelled from the spec: [Format::key_for_string] is declared in
    formats-all.hpp, which is not part of the sources; the names are the
    ones the option table of params.cpp lists for [--in] and [--out]. *)
Definition key_for_string (s : string) : Key.t :=
  if (s =? "random")%string then Key.random
  else if (s =? "hex")%string then Key.hex
  else if (s =? "bits")%string then Key.bits
  else if (s =? "cards")%string then Key.cards
  else if (s =? "dice")%string then Key.dice
  else if (s =? "base6")%string then Key.base6
  else if (s =? "base10")%string then Key.base10
  else if (s =? "ints")%string then Key.ints
  else if (s =? "bip39")%string then Key.bip39
  else if (s =? "slip39")%string then Key.slip39
  else if (s =? "bc32")%string then Key.bc32
  else Key.unknown.

(** Modelled from the spec: the [name] member of a format, set by the
    constructors in formats-all.hpp; the name a format is looked up by. *)
Definition name (f : Format) : string :=
  match f with
  | FormatRandom => "random"
  | FormatHex => "hex"
  | FormatBits => "bits"
  | FormatCards => "cards"
  | FormatDice => "dice"
  | FormatBase6 => "base6"
  | FormatBase10 => "base10"
  | FormatInts _ _ => "ints"
  | FormatBIP39 => "bip39"
  | FormatSLIP39 _ _ => "slip39"
  | FormatBC32 => "bc32"
  end.

(** Modelled from the spec: the capability predicates [is_random],
    [is_hex], ... of formats-all.hpp, a dynamic cast of the pointer
    compared with [NULL]; a null pointer has no capability. *)
Definition is_random (f : option Format) : bool :=
  match f with Some FormatRandom => true | _ => false end.
Definition is_hex (f : option Format) : bool :=
  match f with Some FormatHex => true | _ => false end.
Definition is_bc32 (f : option Format) : bool :=
  match f with Some FormatBC32 => true | _ => false end.
Definition is_bip39 (f : option Format) : bool :=
  match f with Some FormatBIP39 => true | _ => false end.
Definition is_slip39 (f : option Format) : bool :=
  match f with Some (FormatSLIP39 _ _) => true | _ => false end.

Definition name_of (f : option Format) : string :=
  match f with Some f => name f | None => "" end.

(** The random generator selected by [validate_deterministic]. *)
Inductive random_generator : Type :=
| crypto_random
| deterministic_random (seed : string).

(** The decoded resource; only its type tag is read here. *)
Record UR : Type := mk_UR { ur_type : string }.

(** The fields of [Params] that validation reads or writes. *)
Record Params : Type := mk_Params {
  raw : Raw.t;
  count : Z;
  rng : option random_generator;
  input_format : option Format;
  output_format : option Format;
  is_ur_in : bool;
  is_ur_out : bool;
  max_part_length : Z;
  input : list string;
  ur : option UR
}.

(** What the process does to its surroundings while validating. *)
Inductive event : Type :=
| ReadStdin (lines : list string)
| DecodeUR (text : list string).

(** The object under construction together with the process
    environment: what is left on standard input, and the external calls
    made so far, oldest first. *)
Record State : Type := mk_State {
  self : Params;
  cin : list string;
  events : list event
}.

(** The collaborators of the validation that live outside params.cpp. *)
Record Extern : Type := mk_Extern {
  (** [UR(input)]: the type tag of the decoded resource, or the
      exception the decoder throws. *)
  ur_decode : list string -> exn + string;
  (** [FormatBIP39::is_seed_length_valid] *)
  bip39_is_seed_length_valid : Z -> bool;
  (** [FormatSLIP39::is_seed_length_valid] *)
  slip39_is_seed_length_valid : Z -> bool;
  (** the constant [MAX_GROUPS] *)
  MAX_GROUPS : nat;
  (** [new FormatInts()] *)
  new_FormatInts : Z * Z;
  (** [new FormatSLIP39()] *)
  new_FormatSLIP39 : Z * list group_descriptor;
  (** the content of an automatic [size_t] that was never assigned *)
  indeterminate : Z
}.

(* ================================================================== *)
(** ** The monad of a validation step *)

(** How a member function leaves: normally, through [argp_error] (the
    diagnostic is printed and the process ends), or with an exception. *)
Inductive Outcome (A : Type) : Type :=
| Ok (a : A)
| Exit (msg : string)
| Throw (e : exn).
Arguments Ok {A} a.
Arguments Exit {A} msg.
Arguments Throw {A} e.

Definition M (A : Type) : Type := State -> Outcome (A * State).

Definition ret {A} (a : A) : M A := fun s => Ok (a, s).

Definition bind {A B} (m : M A) (k : A -> M B) : M B :=
  fun s =>
    match m s with
    | Ok (a, s') => k a s'
    | Exit msg => Exit msg
    | Throw e => Throw e
    end.

Declare Scope step_scope.
Delimit Scope step_scope with step.
Notation "x <- m ;; k" := (bind m (fun x => k))
  (at level 61, m at next level, right associativity) : step_scope.
Notation "m ;; k" := (bind m (fun _ => k))
  (at level 61, right associativity) : step_scope.
#[local] Open Scope step_scope.

(** [argp_error(state, ...)] with the message already formatted. *)
Definition argp_error (msg : string) : M unit := fun _ => Exit msg.

(** A library call that returns or throws. *)
Definition call {A} (r : exn + A) : M A :=
  fun s => match r with inl e => Throw e | inr a => Ok (a, s) end.

(** Reading the object, and assigning to its members. *)
Definition this : M Params := fun s => Ok (self s, s).

Definition on_self (f : Params -> Params) (s : State) : State :=
  mk_State (f (self s)) (cin s) (events s).

Definition assign (f : Params -> Params) : M unit :=
  fun s => Ok (tt, on_self f s).

Definition when (c : bool) (m : M unit) : M unit :=
  if c then m else ret tt.

Definition set_raw v p :=
  mk_Params v (count p) (rng p) (input_format p) (output_format p)
    (is_ur_in p) (is_ur_out p) (max_part_length p) (input p) (ur p).
Definition set_count v p :=
  mk_Params (raw p) v (rng p) (input_format p) (output_format p)
    (is_ur_in p) (is_ur_out p) (max_part_length p) (input p) (ur p).
Definition set_rng v p :=
  mk_Params (raw p) (count p) v (input_format p) (output_format p)
    (is_ur_in p) (is_ur_out p) (max_part_length p) (input p) (ur p).
Definition set_input_format v p :=
  mk_Params (raw p) (count p) (rng p) v (output_format p)
    (is_ur_in p) (is_ur_out p) (max_part_length p) (input p) (ur p).
Definition set_output_format v p :=
  mk_Params (raw p) (count p) (rng p) (input_format p) v
    (is_ur_in p) (is_ur_out p) (max_part_length p) (input p) (ur p).
Definition set_is_ur_in v p :=
  mk_Params (raw p) (count p) (rng p) (input_format p) (output_format p)
    v (is_ur_out p) (max_part_length p) (input p) (ur p).
Definition set_is_ur_out v p :=
  mk_Params (raw p) (count p) (rng p) (input_format p) (output_format p)
    (is_ur_in p) v (max_part_length p) (input p) (ur p).
Definition set_max_part_length v p :=
  mk_Params (raw p) (count p) (rng p) (input_format p) (output_format p)
    (is_ur_in p) (is_ur_out p) v (input p) (ur p).
Definition set_input v p :=
  mk_Params (raw p) (count p) (rng p) (input_format p) (output_format p)
    (is_ur_in p) (is_ur_out p) (max_part_length p) v (ur p).
Definition set_ur v p :=
  mk_Params (raw p) (count p) (rng p) (input_format p) (output_format p)
    (is_ur_in p) (is_ur_out p) (max_part_length p) (input p) v.

(** [std::string::empty] and [std::vector::empty]. *)
Definition str_empty (s : string) : bool :=
  match s with EmptyString => true | String _ _ => false end.

Definition vec_empty {A} (v : list A) : bool :=
  match v with [] => true | _ :: _ => false end.

(** [std::vector::size], a [size_t]. *)
Definition size {A} (v : list A) : Z := Z.of_nat (List.length v).

(** The usual arithmetic conversion of an [int] compared with a
    [size_t]. *)
Definition int_to_size_t (v : Z) : Z := v mod 2 ^ 64.

(* ================================================================== *)
(** ** The validation steps of params.cpp *)

Section Validation.

Variable X : Extern.

(** [Params::validate_count].  The member [count] holds what [stoi]
    returned; with an unsigned member a negative value would wrap to a
    large one and fail the same range check. *)
Definition validate_count : M unit :=
  p <- this ;;
  (if negb (str_empty (Raw.count (raw p))) then
     c <- call (stoi (Raw.count (raw p))) ;;
     assign (set_count c)
   else
     assign (set_count 16)) ;;
  p <- this ;;
  when ((count p <? 1) || (count p >? 64))
    (argp_error "COUNT must be in [1-64].").

(** [Params::validate_deterministic] *)
Definition validate_deterministic : M unit :=
  p <- this ;;
  if negb (str_empty (Raw.random_deterministic (raw p))) then
    assign (set_rng
              (Some (deterministic_random (Raw.random_deterministic (raw p)))))
  else
    assign (set_rng (Some crypto_random)).

Definition FormatInts_new : Format :=
  FormatInts (fst (new_FormatInts X)) (snd (new_FormatInts X)).

Definition FormatSLIP39_new : Format :=
  FormatSLIP39 (fst (new_FormatSLIP39 X)) (snd (new_FormatSLIP39 X)).

(** [Params::validate_input_format] *)
Definition validate_input_format : M unit :=
  p <- this ;;
  if str_empty (Raw.input_format (raw p)) then
    assign (set_input_format (Some FormatRandom))
  else if (Raw.input_format (raw p) =? "ur")%string then
    assign (set_is_ur_in true)
  else
    match key_for_string (Raw.input_format (raw p)) with
    | Key.random => assign (set_input_format (Some FormatRandom))
    | Key.hex => assign (set_input_format (Some FormatHex))
    | Key.bits => assign (set_input_format (Some FormatBits))
    | Key.cards => assign (set_input_format (Some FormatCards))
    | Key.dice => assign (set_input_format (Some FormatDice))
    | Key.base6 => assign (set_input_format (Some FormatBase6))
    | Key.base10 => assign (set_input_format (Some FormatBase10))
    | Key.ints => assign (set_input_format (Some FormatInts_new))
    | Key.bip39 => assign (set_input_format (Some FormatBIP39))
    | Key.slip39 => assign (set_input_format (Some FormatSLIP39_new))
    | Key.bc32 => assign (set_input_format (Some FormatBC32))
    | Key.unknown =>
        argp_error ("Unknown input format: " ++ Raw.input_format (raw p))
    end.

(** [Params::validate_output_format] *)
Definition validate_output_format : M unit :=
  p <- this ;;
  if str_empty (Raw.output_format (raw p)) then
    assign (set_output_format (Some FormatHex))
  else
    match key_for_string (Raw.output_format (raw p)) with
    | Key.hex => assign (set_output_format (Some FormatHex))
    | Key.bits => assign (set_output_format (Some FormatBits))
    | Key.cards => assign (set_output_format (Some FormatCards))
    | Key.dice => assign (set_output_format (Some FormatDice))
    | Key.base6 => assign (set_output_format (Some FormatBase6))
    | Key.base10 => assign (set_output_format (Some FormatBase10))
    | Key.ints => assign (set_output_format (Some FormatInts_new))
    | Key.bip39 => assign (set_output_format (Some FormatBIP39))
    | Key.slip39 => assign (set_output_format (Some FormatSLIP39_new))
    | Key.bc32 => assign (set_output_format (Some FormatBC32))
    | Key.random | Key.unknown =>
        argp_error ("Unknown output format: " ++ Raw.output_format (raw p))
    end.

(** [Params::validate_output_for_input] *)
Definition validate_output_for_input : M unit :=
  p <- this ;;
  (* Any input format works with hex output format. *)
  if is_hex (output_format p) then ret tt
  (* Any input format works with BC32 output format. *)
  else if is_bc32 (output_format p) then ret tt
  (* Random input works with any output format. *)
  else if is_random (input_format p) then ret tt
  (* Hex input works with any output format. *)
  else if is_hex (input_format p) then ret tt
  (* BC32 input works with any output format. *)
  else if is_bc32 (input_format p) then ret tt
  (* BIP39 UR input works with BIP39 output format. *)
  else if is_ur_in p && is_bip39 (input_format p)
          && is_bip39 (output_format p) then ret tt
  (* SLIP39 UR input works with SLIP39 output format. *)
  else if is_ur_in p && is_slip39 (input_format p)
          && is_slip39 (output_format p) then ret tt
  else
    argp_error ("Input format " ++ name_of (input_format p)
                ++ " cannot be used with output format "
                ++ name_of (output_format p)).

Definition ints_range_message : string :=
  "--low and --high must specify a range in [0-255].".

(** [Params::validate_ints_specific] *)
Definition validate_ints_specific : M unit :=
  p <- this ;;
  match output_format p with
  | Some (FormatInts f_low f_high) =>
      low <- (if negb (str_empty (Raw.ints_low (raw p)))
              then call (stoi (Raw.ints_low (raw p))) else ret f_low) ;;
      high <- (if negb (str_empty (Raw.ints_high (raw p)))
               then call (stoi (Raw.ints_high (raw p))) else ret f_high) ;;
      when (negb ((0 <=? low) && (low <? high) && (high <=? 255)))
        (argp_error ints_range_message) ;;
      assign (set_output_format (Some (FormatInts low high)))
  | _ =>
      when (negb (str_empty (Raw.ints_low (raw p))))
        (argp_error ("Option --low can only be used with the "
                     ++ dquote ++ "ints" ++ dquote ++ " output format.")) ;;
      when (negb (str_empty (Raw.ints_high (raw p))))
        (argp_error ("Option --high can only be used with the "
                     ++ dquote ++ "ints" ++ dquote ++ " output format."))
  end.

(** [Params::validate_bip39_specific] *)
Definition validate_bip39_specific : M unit :=
  p <- this ;;
  if negb (is_bip39 (output_format p)) then ret tt
  else
    when (negb (bip39_is_seed_length_valid X (count p)))
      (argp_error "For BIP39 COUNT must be in [12-32] and even.").

(** [Params::parse_group_spec] *)
Definition parse_group_spec (str : string) : M group_descriptor :=
  let '(items, threshold, count) := sscanf_zd_of_zd str (indeterminate X) in
  when (negb (items =? 2))
    (argp_error ("Could not parse group specifier: "
                 ++ dquote ++ str ++ dquote)) ;;
  when (negb ((0 <? threshold) && (threshold <=? count) && (count <=? 16)))
    (argp_error ("Invalid group specifier " ++ dquote ++ str ++ dquote
                 ++ ": 1 <= N <= M <= 16")) ;;
  when ((count >? 1) && (threshold =? 1))
    (argp_error
       "Invalid group specifier. 1-of-M groups where M > 1 are not supported.") ;;
  ret (mk_group threshold count None).

(** The loop [for(auto g: raw.slip39_groups)] of
    [validate_slip39_specific], appending to [groups]. *)
Fixpoint parse_groups (specs : list string) (groups : list group_descriptor)
  : M (list group_descriptor) :=
  match specs with
  | [] => ret groups
  | g :: rest =>
      group <- parse_group_spec g ;;
      parse_groups rest (groups ++ [group])
  end.

Definition slip39_count_message : string :=
  "For BIP39 COUNT must be in [16-32] and even.".

Definition max_groups_message : string :=
  "There must be no more than " ++ decimal (Z.of_nat (MAX_GROUPS X))
  ++ " groups.".

Definition group_threshold_message : string :=
  "Group threshold must be <= the number of groups.".

(** [Params::validate_slip39_specific] *)
Definition validate_slip39_specific : M unit :=
  p <- this ;;
  let raw_groups_count := size (Raw.slip39_groups (raw p)) in
  match output_format p with
  | Some (FormatSLIP39 _ _) =>
      when (negb (slip39_is_seed_length_valid X (count p)))
        (argp_error slip39_count_message) ;;
      groups <-
        (if raw_groups_count >? Z.of_nat (MAX_GROUPS X) then
           argp_error max_groups_message ;; ret []
         else if raw_groups_count =? 0 then
           ret [mk_group 1 1 None]
         else
           parse_groups (Raw.slip39_groups (raw p)) []) ;;
      groups_threshold <-
        (if str_empty (Raw.slip39_groups_threshold (raw p)) then ret 1
         else call (stoi (Raw.slip39_groups_threshold (raw p)))) ;;
      when (negb ((0 <? groups_threshold)
                  && (int_to_size_t groups_threshold <=? size groups)))
        (argp_error group_threshold_message) ;;
      assign (set_output_format (Some (FormatSLIP39 groups_threshold groups)))
  | _ =>
      when (raw_groups_count >? 0)
        (argp_error ("Option --group can only be used with the "
                     ++ dquote ++ "slip39" ++ dquote ++ " output format.")) ;;
      when (negb (str_empty (Raw.slip39_groups_threshold (raw p))))
        (argp_error ("Option --group-threshold can only be used with the "
                     ++ dquote ++ "slip39" ++ dquote ++ " output format."))
  end.

(** The loop [while(getline(cin, line)) raw.args.push_back(line)]. *)
Fixpoint getline_loop (lines : list string) (args : list string)
  : list string :=
  match lines with
  | [] => args
  | line :: rest => getline_loop rest (args ++ [line])
  end.

(** [Params::read_args_from_stdin]: the stream is read to its end. *)
Definition read_args_from_stdin : M unit :=
  fun s =>
    let p := self s in
    let args := getline_loop (cin s) (Raw.args (raw p)) in
    Ok (tt, mk_State (set_raw (Raw.set_args args (raw p)) p) []
              (events s ++ [ReadStdin (cin s)])).

(** [new UR(input)]: the decoder is run on the collected input. *)
Definition UR_new (text : list string) : M UR :=
  fun s =>
    match ur_decode X text with
    | inl e => Throw e
    | inr tag =>
        Ok (mk_UR tag,
            mk_State (self s) (cin s) (events s ++ [DecodeUR text]))
    end.

(** [Params::validate_input] *)
Definition validate_input : M unit :=
  p <- this ;;
  (* Every input method takes arguments except random. *)
  if is_random (input_format p) then
    when (negb (vec_empty (Raw.args (raw p))))
      (argp_error
         "Do not provide arguments when using the random (default) input format.")
  else
    when (vec_empty (Raw.args (raw p))) read_args_from_stdin ;;
    p <- this ;;
    assign (set_input (Raw.args (raw p))) ;;
    p <- this ;;
    when (vec_empty (input p)) (argp_error "No input provided.") ;;
    if is_ur_in p then
      u <- UR_new (input p) ;;
      assign (set_ur (Some u)) ;;
      if (ur_type u =? "crypto-seed")%string then
        assign (set_input_format (Some FormatHex))
      else if (ur_type u =? "crypto-bip39")%string then
        assign (set_input_format (Some FormatBIP39))
      else if (ur_type u =? "crypto-slip39")%string then
        assign (set_input_format (Some FormatSLIP39_new))
      else
        argp_error "Unknown UR type."
    else ret tt.

(** [Params::validate_count_for_input_format] *)
Definition validate_count_for_input_format : M unit :=
  p <- this ;;
  if is_hex (input_format p) then
    when (negb (str_empty (Raw.count (raw p))))
      (argp_error "The --count option is not available for hex input.")
  else if is_bc32 (input_format p) then
    when (negb (str_empty (Raw.count (raw p))))
      (argp_error "The --count option is not available for BC32 input.")
  else ret tt.

(** [Params::validate_ur] *)
Definition validate_ur : M unit :=
  p <- this ;;
  (* The --ur option is only available for hex, BIP39 and SLIP39 output. *)
  if Raw.is_ur (raw p) then
    when (is_ur_in p)
      (argp_error
         "The --ur option may not be combined with the --in ur input method.") ;;
    assign (set_is_ur_out true) ;;
    (if str_empty (Raw.max_part_length (raw p)) then
       assign (set_max_part_length 2500)
     else
       v <- call (stoi (Raw.max_part_length (raw p))) ;;
       assign (set_max_part_length v)) ;;
    if is_hex (output_format p) then ret tt
    else if is_bip39 (output_format p) then ret tt
    else if is_slip39 (output_format p) then ret tt
    else
      argp_error
        "The --ur option is only available for hex, BIP39 and SLIP39 output."
  else ret tt.

(** [Params::validate] *)
Definition validate : M unit :=
  validate_count ;;
  validate_deterministic ;;
  validate_input_format ;;
  validate_input ;;
  validate_count_for_input_format ;;
  validate_output_format ;;
  validate_output_for_input ;;
  validate_ints_specific ;;
  validate_bip39_specific ;;
  validate_slip39_specific ;;
  validate_ur.

(** The [ARGP_KEY_END] case of [parse_opt]: [validate] inside the
    [try] block; an exception is reported through [argp_error] with
    [e.what()] as the message. *)
Definition parse_opt_end : M unit :=
  fun s =>
    match validate s with
    | Throw e => argp_error (what e) s
    | r => r
    end.

End Validation.

(** Modelled from the spec: params.hpp, which declares the members and
    their initial values, is not part of the sources; pointers start
    null, flags false, numbers zero. *)
Definition Params_new (r : Raw.t) : Params :=
  mk_Params r 0 None None None false false 0 [] None.

(** The state [argp_parse] hands to [validate]: the options collected,
    nothing read or decoded yet. *)
Definition start (r : Raw.t) (stdin : list string) : State :=
  mk_State (Params_new r) stdin [].

(** A set of collaborators to run examples with: the seed-length
    predicates as the diagnostics of params.cpp describe them, the
    defaults as its option table documents them. *)
Definition sample_ur_decode (text : list string) : exn + string :=
  match text with
  | ["ur:crypto-seed/x"] => inr "crypto-seed"
  | ["ur:crypto-bip39/x"] => inr "crypto-bip39"
  | ["ur:crypto-slip39/x"] => inr "crypto-slip39"
  | ["ur:crypto-psbt/x"] => inr "crypto-psbt"
  | _ => inl (runtime_error "Invalid UR.")
  end.

Definition sample : Extern :=
  mk_Extern
    sample_ur_decode
    (fun n => (12 <=? n) && (n <=? 32) && Z.even n)
    (fun n => (16 <=? n) && (n <=? 32) && Z.even n)
    16%nat
    (1, 9)
    (1, [])
    0.

(* ================================================================== *)
(** ** Definitions the properties are stated with *)

(** *** Group specifiers *)

(** The numbers a string of the shape [T-of-N] denotes: a decimal
    numeral, the literal [-of-], a decimal numeral ([%zd-of-%zd]). *)
Definition shape_T_of_N (str : string) : option (Z * Z) :=
  match scan_integer str with
  | Converted T rest =>
      match match_literal "-of-" rest with
      | Some rest' =>
          match scan_integer rest' with
          | Converted N _ => Some (T, N)
          | _ => None
          end
      | None => None
      end
  | _ => None
  end.

(** The bounds of a group descriptor: [1 <= T <= N <= 16] and
    [N > 1 => T <> 1]. *)
Definition group_bounds (T N : Z) : bool :=
  (1 <=? T) && (T <=? N) && (N <=? 16) && implb (1 <? N) (negb (T =? 1)).

Definition could_not_parse (str : string) : string :=
  "Could not parse group specifier: " ++ dquote ++ str ++ dquote.

(** The shape stated on the characters of the string.  [all_chars p s]:
    every character of [s] satisfies [p]. *)
Fixpoint all_chars (p : ascii -> bool) (s : string) : bool :=
  match s with
  | String c r => p c && all_chars p r
  | EmptyString => true
  end.

(** The ten characters '0' .. '9', and the digit each stands for. *)
Definition is_digit (c : ascii) : bool :=
  let n := nat_of_ascii c in (48 <=? n)%nat && (n <=? 57)%nat.

Definition digit_value (c : ascii) : Z := Z.of_nat (nat_of_ascii c) - 48.

(** A decimal numeral: one digit or more.  Its value, most significant
    digit first. *)
Definition numeral (ds : string) : Prop :=
  ds <> "" /\ all_chars is_digit ds = true.

Fixpoint numeral_value (ds : string) : Z :=
  match ds with
  | String c r =>
      digit_value c * 10 ^ Z.of_nat (String.length r) + numeral_value r
  | EmptyString => 0
  end.

(** An optional sign in front of a numeral. *)
Definition sign_chars (sg : string) : Prop :=
  sg = "" \/ sg = "+" \/ sg = "-".

Definition signed (sg : string) (v : Z) : Z :=
  if (sg =? "-")%string then - v else v.

Definition no_digit_ahead (rest : string) : Prop :=
  match rest with
  | String c _ => is_digit c = false
  | EmptyString => True
  end.

(** [str] is white space, an optional sign and a numeral of value [v]
    (the whole run of digits), followed by [rest]. *)
Definition written_integer (str : string) (v : Z) (rest : string) : Prop :=
  exists ws sg ds,
    str = ws ++ sg ++ ds ++ rest
    /\ all_chars isspace ws = true
    /\ sign_chars sg
    /\ numeral ds
    /\ no_digit_ahead rest
    /\ v = signed sg (numeral_value ds).

(** [str] begins with an integer [T], the four characters [-of-] and an
    integer [N]; white space may precede each number, anything may
    follow the second. *)
Definition written_T_of_N (str : string) (T N : Z) : Prop :=
  exists after rest,
    written_integer str T ("-of-" ++ after)
    /\ written_integer after N rest.

(** [str] is a numeral, [-of-] and a numeral, and nothing else. *)
Definition exactly_T_of_N (str : string) (T N : Z) : Prop :=
  exists d1 d2,
    str = d1 ++ "-of-" ++ d2
    /\ numeral d1 /\ numeral d2
    /\ T = numeral_value d1 /\ N = numeral_value d2.

(** The characters a string of the exact shape is made of. *)
Definition shape_char (c : ascii) : bool :=
  is_digit c || Ascii.eqb c "-" || Ascii.eqb c "o" || Ascii.eqb c "f".

(** Unfolding the monad operations in a goal. *)
Ltac run_step :=
  unfold bind, this, assign, on_self, when, ret, argp_error, call; simpl.

(** *** Compatibility matrix *)

(** Two descriptors of the same format class. *)
Definition same_kind (f g : Format) : bool :=
  (name f =? name g)%string.

(** The rules of the compatibility matrix as the specification lists
    them, rule 1 to rule 7, each a test on (input arrived as a resource
    string, input format, output format); rule 8 is the rejection. *)
Definition compatibility_rules : list (bool -> Format -> Format -> bool) :=
  [ fun _ _ o => same_kind o FormatHex;
    fun _ _ o => same_kind o FormatBC32;
    fun _ i _ => same_kind i FormatRandom;
    fun _ i _ => same_kind i FormatHex;
    fun _ i _ => same_kind i FormatBC32;
    fun u i o => u && same_kind i FormatBIP39 && same_kind o FormatBIP39;
    fun u i o => u && same_kind i (FormatSLIP39 0 [])
                 && same_kind o (FormatSLIP39 0 []) ].

(** The first rule that matches, if any. *)
Definition first_match (u : bool) (i o : Format) : option nat :=
  let fix go (n : nat) (rs : list (bool -> Format -> Format -> bool)) :=
    match rs with
    | [] => None
    | r :: rs' => if r u i o then Some n else go (S n) rs'
    end
  in go 1%nat compatibility_rules.

(** The diagnostic of rule 8. *)
Definition incompatible_message (i o : Format) : string :=
  "Input format " ++ name i ++ " cannot be used with output format "
  ++ name o.

(** The accepting condition, in words: hex or BC32 output; random,
    hex or BC32 input; or resource-string input with the same word-list
    scheme on both sides. *)
Definition accepted (u : bool) (i o : Format) : Prop :=
  o = FormatHex \/ o = FormatBC32
  \/ i = FormatRandom \/ i = FormatHex \/ i = FormatBC32
  \/ (u = true /\ i = FormatBIP39 /\ o = FormatBIP39)
  \/ (u = true /\ is_slip39 (Some i) = true /\ is_slip39 (Some o) = true).

(** *** Count *)

Definition count_range_message : string := "COUNT must be in [1-64].".

(** The count a raw string resolves to before the range check: 16 when
    the option is absent, what [stoi] reads otherwise. *)
Definition resolved_count (c : string) : exn + Z :=
  if str_empty c then inr 16 else stoi c.

(** Raw options with nothing but a count. *)
Definition with_raw_count (c : string) : Raw.t :=
  Raw.mk c "" [] "" "" "" "" "" false "" [].

(** *** Integer range *)

Definition is_ints (f : option Format) : bool :=
  match f with Some (FormatInts _ _) => true | _ => false end.

(** A bound after the raw override, if any, has been read. *)
Definition resolved_bound (override : string) (builtin : Z) : exn + Z :=
  if str_empty override then inr builtin else stoi override.

Definition low_option_message : string :=
  "Option --low can only be used with the " ++ dquote ++ "ints" ++ dquote
  ++ " output format.".

Definition high_option_message : string :=
  "Option --high can only be used with the " ++ dquote ++ "ints" ++ dquote
  ++ " output format.".

(** --out ints with the given --low and --high, and the state in which
    [validate_ints_specific] then runs. *)
Definition with_ints_bounds (lo hi : string) : Raw.t :=
  Raw.mk "" "" [] hi lo "" "ints" "" false "" [].


(** *** Resource-encoded output *)

Definition ur_combined_message : string :=
  "The --ur option may not be combined with the --in ur input method.".

Definition ur_output_message : string :=
  "The --ur option is only available for hex, BIP39 and SLIP39 output.".

(** The output formats the resource encoding goes with. *)
Definition ur_capable (f : option Format) : bool :=
  is_hex f || is_bip39 f || is_slip39 f.

(** The maximum part length after the raw value, if any, has been
    read. *)
Definition resolved_max_part_length (r : string) : exn + Z :=
  if str_empty r then inr 2500 else stoi r.

(** --ur with the raw part length [mpl], before [validate_ur]. *)
Definition ur_state (o : Format) (ur_in : bool) (mpl : string) : State :=
  mk_State
    (mk_Params (Raw.mk "" "" [] "" "" "" "" "" true mpl [])
       16 None (Some FormatRandom) (Some o) ur_in false 0 [] None)
    [] [].

(** Raw options with --ur and the value [mpl], and the output format
    named [o]. *)
Definition with_ur (mpl o : string) : Raw.t :=
  Raw.mk "" "" [] "" "" "" o "" true mpl [].

(** *** SLIP39 groups *)

Definition group_option_message : string :=
  "Option --group can only be used with the " ++ dquote ++ "slip39"
  ++ dquote ++ " output format.".

Definition group_threshold_option_message : string :=
  "Option --group-threshold can only be used with the " ++ dquote
  ++ "slip39" ++ dquote ++ " output format.".

(** The groups threshold after the raw option, if any, has been read. *)
Definition resolved_groups_threshold (r : string) : exn + Z :=
  if str_empty r then inr 1 else stoi r.

(** The group list [validate_slip39_specific] builds once the count and
    the number of specifiers have passed. *)
Definition build_groups (X : Extern) (specs : list string)
  : M (list group_descriptor) :=
  if size specs =? 0 then ret [mk_group 1 1 None]
  else parse_groups X specs [].

(** --out slip39 with the given count, group specifiers and raw groups
    threshold, before [validate_slip39_specific]. *)
Definition slip39_state (c : Z) (specs : list string) (gt : string) : State :=
  mk_State
    (mk_Params (Raw.mk "" "" specs "" "" "" "slip39" gt false "" [])
       c None (Some FormatRandom) (Some (FormatSLIP39 1 [])) false false 0
       [] None)
    [] [].

Definition three_groups : list string := ["2-of-3"; "3-of-5"; "2-of-2"].

(** *** Input acquisition *)

Definition random_args_message : string :=
  "Do not provide arguments when using the random (default) input format.".

Definition no_input_message : string := "No input provided.".

Definition unknown_ur_message : string := "Unknown UR type.".

(** The format a resource type tag stands for. *)
Definition format_for_tag (X : Extern) (tag : string) : option Format :=
  if (tag =? "crypto-seed")%string then Some FormatHex
  else if (tag =? "crypto-bip39")%string then Some FormatBIP39
  else if (tag =? "crypto-slip39")%string then Some (FormatSLIP39_new X)
  else None.

(** The state once standard input has been read to its end. *)
Definition stdin_read (s : State) : State :=
  let p := self s in
  mk_State
    (set_raw (Raw.set_args (getline_loop (cin s) (Raw.args (raw p))) (raw p))
       p)
    [] (events s ++ [ReadStdin (cin s)]).

(** The state once the input has been acquired. *)
Definition acquired (s : State) : State :=
  on_self (fun p => set_input (Raw.args (raw p)) p)
    (if vec_empty (Raw.args (raw (self s))) then stdin_read s else s).

(** The state once the acquired input has been decoded as a resource
    of type [tag] that stands for the format [f]. *)
Definition decoded (tag : string) (f : Format) (s1 : State) : State :=
  mk_State
    (set_input_format (Some f) (set_ur (Some (mk_UR tag)) (self s1)))
    (cin s1) (events s1 ++ [DecodeUR (input (self s1))]).

(** How often the resource decoder ran. *)
Fixpoint decodings (l : list event) : nat :=
  match l with
  | [] => 0
  | DecodeUR _ :: l' => S (decodings l')
  | ReadStdin _ :: l' => decodings l'
  end.

(** A state before [validate_input], with the given positional
    arguments and standard input. *)
Definition input_state (f : option Format) (ur_in : bool)
  (args stdin : list string) : State :=
  mk_State
    (mk_Params (Raw.mk "" "" [] "" "" "" "" "" false "" args)
       16 None f None ur_in false 0 [] None)
    stdin [].

(** *** Pipeline *)

(** The steps of [Params::validate], first to last. *)
Definition steps (X : Extern) : list (M unit) :=
  [ validate_count;
    validate_deterministic;
    validate_input_format X;
    validate_input X;
    validate_count_for_input_format;
    validate_output_format X;
    validate_output_for_input;
    validate_ints_specific;
    validate_bip39_specific X;
    validate_slip39_specific X;
    validate_ur ].

(** Running a list of steps one after the other. *)
Fixpoint sequence (l : list (M unit)) : M unit :=
  match l with
  | [] => ret tt
  | m :: l' => m ;; sequence l'
  end.

(** Every step of [l] returns, each one started in the state the one
    before it left, from [s] to [s']. *)
Fixpoint threads (l : list (M unit)) (s s' : State) : Prop :=
  match l with
  | [] => s = s'
  | m :: l' => exists s1, m s = Ok (tt, s1) /\ threads l' s1 s'
  end.

(** Raw options that break several rules at once: a count out of range,
    unknown format names, range overrides and groups without their
    output formats. *)
Definition all_wrong : Raw.t :=
  Raw.mk "0" "" ["1-of-2"] "3" "9" "bogus" "nope" "7" true "x" ["arg"].

(** Replacing one raw option. *)
Definition set_raw_count (c : string) (r : Raw.t) : Raw.t :=
  Raw.mk c (Raw.random_deterministic r) (Raw.slip39_groups r)
    (Raw.ints_high r) (Raw.ints_low r) (Raw.input_format r)
    (Raw.output_format r) (Raw.slip39_groups_threshold r) (Raw.is_ur r)
    (Raw.max_part_length r) (Raw.args r).

Definition set_raw_input_format (f : string) (r : Raw.t) : Raw.t :=
  Raw.mk (Raw.count r) (Raw.random_deterministic r) (Raw.slip39_groups r)
    (Raw.ints_high r) (Raw.ints_low r) f
    (Raw.output_format r) (Raw.slip39_groups_threshold r) (Raw.is_ur r)
    (Raw.max_part_length r) (Raw.args r).

Definition set_raw_output_format (f : string) (r : Raw.t) : Raw.t :=
  Raw.mk (Raw.count r) (Raw.random_deterministic r) (Raw.slip39_groups r)
    (Raw.ints_high r) (Raw.ints_low r) (Raw.input_format r)
    f (Raw.slip39_groups_threshold r) (Raw.is_ur r)
    (Raw.max_part_length r) (Raw.args r).

(** *** Count option against the input format *)

Definition hex_count_message : string :=
  "The --count option is not available for hex input.".

Definition bc32_count_message : string :=
  "The --count option is not available for BC32 input.".

(** The steps that resolve the input format, up to and including the
    decoding of a resource. *)
Definition input_steps (X : Extern) : list (M unit) :=
  [ validate_count; validate_deterministic; validate_input_format X;
    validate_input X ].

(** The steps after [validate_count_for_input_format]. *)
Definition later_steps (X : Extern) : list (M unit) :=
  [ validate_output_format X; validate_output_for_input;
    validate_ints_specific; validate_bip39_specific X;
    validate_slip39_specific X; validate_ur ].

(** A step that leaves the raw count string as it found it. *)
Definition keeps_raw_count (m : M unit) : Prop :=
  forall s s', m s = Ok (tt, s') ->
               Raw.count (raw (self s')) = Raw.count (raw (self s)).

(** --in [fmt] --count [c] with positional arguments, as [validate]
    starts. *)
Definition count_state (fmt c : string) (args : list string) : State :=
  start (Raw.mk c "" [] "" "" fmt "" "" false "" args) [].

(** *** Text of diagnostics *)

(** [needle] occurs in [hay]. *)
Fixpoint contains (needle hay : string) : bool :=
  String.prefix needle hay
  || match hay with
     | EmptyString => false
     | String _ hay' => contains needle hay'
     end.

(** Group specifiers written in decimal, for all T and N up to 20: the
    specifier is accepted exactly within the bounds, and the descriptor
    holds the two numbers. *)
Definition group_spec_table_ok (X : Extern) (s : State) : bool :=
  forallb
    (fun T =>
       forallb
         (fun N =>
            match parse_group_spec X (decimal T ++ "-of-" ++ decimal N) s with
            | Ok (g, _) =>
                group_bounds T N && (threshold g =? T) && (g_count g =? N)
            | Exit _ => negb (group_bounds T N)
            | Throw _ => false
            end)
         (map Z.of_nat (seq 0 21)))
    (map Z.of_nat (seq 0 21)).

(** *** Option collection and accessors *)

(** The keys of the entries of [options] that are options: 'c', 'd',
    'g', 'h', 'i', 'l', 'o', 't' and 'u'. *)
Inductive option_key : Type :=
| key_c | key_d | key_g | key_h | key_i | key_l | key_o | key_t | key_u.

Definition key_eqb (a b : option_key) : bool :=
  match a, b with
  | key_c, key_c | key_d, key_d | key_g, key_g | key_h, key_h
  | key_i, key_i | key_l, key_l | key_o, key_o | key_t, key_t
  | key_u, key_u => true
  | _, _ => false
  end.

(** The calls [argp_parse] makes to the parser: with the key of an
    option of the table and its argument, with a positional argument,
    or with one of the other special keys.  Only --ur, whose argument
    is optional, can come with a null argument. *)
Inductive argp_call : Type :=
| ARGP_KEY_INIT
| OPTION (key : option_key) (arg : string)
| OPTION_u_NULL
| ARGP_KEY_ARG (arg : string)
| ARGP_KEY_END
| ARGP_KEY_OTHER.

Definition set_raw_random_deterministic (v : string) (r : Raw.t) : Raw.t :=
  Raw.mk (Raw.count r) v (Raw.slip39_groups r)
    (Raw.ints_high r) (Raw.ints_low r) (Raw.input_format r)
    (Raw.output_format r) (Raw.slip39_groups_threshold r) (Raw.is_ur r)
    (Raw.max_part_length r) (Raw.args r).

Definition set_raw_slip39_groups (v : list string) (r : Raw.t) : Raw.t :=
  Raw.mk (Raw.count r) (Raw.random_deterministic r) v
    (Raw.ints_high r) (Raw.ints_low r) (Raw.input_format r)
    (Raw.output_format r) (Raw.slip39_groups_threshold r) (Raw.is_ur r)
    (Raw.max_part_length r) (Raw.args r).

Definition set_raw_ints_high (v : string) (r : Raw.t) : Raw.t :=
  Raw.mk (Raw.count r) (Raw.random_deterministic r) (Raw.slip39_groups r)
    v (Raw.ints_low r) (Raw.input_format r)
    (Raw.output_format r) (Raw.slip39_groups_threshold r) (Raw.is_ur r)
    (Raw.max_part_length r) (Raw.args r).

Definition set_raw_ints_low (v : string) (r : Raw.t) : Raw.t :=
  Raw.mk (Raw.count r) (Raw.random_deterministic r) (Raw.slip39_groups r)
    (Raw.ints_high r) v (Raw.input_format r)
    (Raw.output_format r) (Raw.slip39_groups_threshold r) (Raw.is_ur r)
    (Raw.max_part_length r) (Raw.args r).

Definition set_raw_slip39_groups_threshold (v : string) (r : Raw.t) : Raw.t :=
  Raw.mk (Raw.count r) (Raw.random_deterministic r) (Raw.slip39_groups r)
    (Raw.ints_high r) (Raw.ints_low r) (Raw.input_format r)
    (Raw.output_format r) v (Raw.is_ur r)
    (Raw.max_part_length r) (Raw.args r).

(** [raw.is_ur = true; raw.max_part_length = v] *)
Definition set_raw_ur (v : string) (r : Raw.t) : Raw.t :=
  Raw.mk (Raw.count r) (Raw.random_deterministic r) (Raw.slip39_groups r)
    (Raw.ints_high r) (Raw.ints_low r) (Raw.input_format r)
    (Raw.output_format r) (Raw.slip39_groups_threshold r) true
    v (Raw.args r).

(** An assignment to a member of [raw]. *)
Definition assign_raw (f : Raw.t -> Raw.t) : M unit :=
  assign (fun p => set_raw (f (raw p)) p).

(** The [try] block of [parse_opt] and its handler. *)
Definition try_catch (m : M unit) : M unit :=
  fun s =>
    match m s with
    | Throw e => argp_error (what e) s
    | r => r
    end.

(** [parse_opt]: the switch on the key inside the [try] block.  The
    parser returns 0 in every case. *)
Definition parse_opt (X : Extern) (c : argp_call) : M unit :=
  try_catch
    match c with
    | ARGP_KEY_INIT => ret tt
    | OPTION key_c arg => assign_raw (set_raw_count arg)
    | OPTION key_d arg => assign_raw (set_raw_random_deterministic arg)
    | OPTION key_g arg =>
        assign_raw (fun r =>
                      set_raw_slip39_groups (Raw.slip39_groups r ++ [arg]) r)
    | OPTION key_h arg => assign_raw (set_raw_ints_high arg)
    | OPTION key_i arg => assign_raw (set_raw_input_format arg)
    | OPTION key_l arg => assign_raw (set_raw_ints_low arg)
    | OPTION key_o arg => assign_raw (set_raw_output_format arg)
    | OPTION key_t arg => assign_raw (set_raw_slip39_groups_threshold arg)
    | OPTION key_u arg => assign_raw (set_raw_ur arg)
    | OPTION_u_NULL => assign_raw (set_raw_ur "")
    | ARGP_KEY_ARG arg =>
        assign_raw (fun r => Raw.set_args (Raw.args r ++ [arg]) r)
    | ARGP_KEY_END => validate X
    | ARGP_KEY_OTHER => ret tt
    end.

(** [argp_parse] seen from the parser: one call for each item, in the
    order given; a call that ends the process ends the run. *)
Definition argp_parse (X : Extern) (calls : list argp_call) : M unit :=
  sequence (map (parse_opt X) calls).

(** [Params::parse]: a new object, [argp_parse], and the object is
    returned. *)
Definition Params_parse (X : Extern) (calls : list argp_call)
  (stdin : list string) : Outcome Params :=
  match argp_parse X calls (start Raw.empty stdin) with
  | Ok (_, s) => Ok (self s)
  | Exit msg => Exit msg
  | Throw e => Throw e
  end.

(** [Params::get_one_argument] *)
Definition get_one_argument (p : Params) : exn + string :=
  if negb (size (input p) =? 1) then
    inl (runtime_error "Only one argument accepted.")
  else inr (nth 0 (input p) "").

(** [Params::get_multiple_arguments] *)
Definition get_multiple_arguments (p : Params) : list string := input p.

(** The positional arguments among the calls, in their order. *)
Fixpoint positional (calls : list argp_call) : list string :=
  match calls with
  | [] => []
  | ARGP_KEY_ARG arg :: rest => arg :: positional rest
  | _ :: rest => positional rest
  end.

(** The values given to the option [key] among the calls, in their
    order; --ur without a value counts as the empty value. *)
Fixpoint option_args (key : option_key) (calls : list argp_call)
  : list string :=
  match calls with
  | [] => []
  | OPTION k arg :: rest =>
      if key_eqb k key then arg :: option_args key rest
      else option_args key rest
  | OPTION_u_NULL :: rest =>
      if key_eqb key_u key then "" :: option_args key rest
      else option_args key rest
  | _ :: rest => option_args key rest
  end.

(** No call of the list is [ARGP_KEY_END]. *)
Definition before_end (calls : list argp_call) : bool :=
  forallb (fun c => match c with ARGP_KEY_END => false | _ => true end) calls.

(** The raw options after the calls, from the raw options [r]: a scalar
    option holds the value given last, the repeatable ones and the
    positional arguments are appended in their order. *)
Definition collected (calls : list argp_call) (r : Raw.t) : Raw.t :=
  Raw.mk
    (last (option_args key_c calls) (Raw.count r))
    (last (option_args key_d calls) (Raw.random_deterministic r))
    (Raw.slip39_groups r ++ option_args key_g calls)
    (last (option_args key_h calls) (Raw.ints_high r))
    (last (option_args key_l calls) (Raw.ints_low r))
    (last (option_args key_i calls) (Raw.input_format r))
    (last (option_args key_o calls) (Raw.output_format r))
    (last (option_args key_t calls) (Raw.slip39_groups_threshold r))
    (Raw.is_ur r || negb (vec_empty (option_args key_u calls)))
    (last (option_args key_u calls) (Raw.max_part_length r))
    (Raw.args r ++ positional calls).

(** *** What a step that returned has done *)

(** The format the switch of [validate_input_format] and of
    [validate_output_format] constructs for a name, if it has a case
    for its key. *)
Definition resolved_format (X : Extern) (n : string) : option Format :=
  match key_for_string n with
  | Key.random => Some FormatRandom
  | Key.hex => Some FormatHex
  | Key.bits => Some FormatBits
  | Key.cards => Some FormatCards
  | Key.dice => Some FormatDice
  | Key.base6 => Some FormatBase6
  | Key.base10 => Some FormatBase10
  | Key.ints => Some (FormatInts_new X)
  | Key.bip39 => Some FormatBIP39
  | Key.slip39 => Some (FormatSLIP39_new X)
  | Key.bc32 => Some FormatBC32
  | Key.unknown => None
  end.

(** The generator [validate_deterministic] selects for a raw seed. *)
Definition selected_rng (seed : string) : random_generator :=
  if str_empty seed then crypto_random else deterministic_random seed.

(** The test of [validate_output_for_input] on the two pointers. *)
Definition compatible_b (u : bool) (i o : option Format) : bool :=
  is_hex o || is_bc32 o || is_random i || is_hex i || is_bc32 i
  || (u && is_bip39 i && is_bip39 o) || (u && is_slip39 i && is_slip39 o).

(** The input [validate_input] collects in the state [s]: the
    positional arguments, or all of standard input when there are
    none. *)
Definition acquired_input (s : State) : list string :=
  if vec_empty (Raw.args (raw (self s))) then cin s
  else Raw.args (raw (self s)).

(** The state [acquired s], member by member. *)
Definition acquired_state (s : State) : State :=
  mk_State
    (set_input (acquired_input s)
       (set_raw (Raw.set_args (acquired_input s) (raw (self s))) (self s)))
    (if vec_empty (Raw.args (raw (self s))) then [] else cin s)
    (if vec_empty (Raw.args (raw (self s)))
     then (events s ++ [ReadStdin (cin s)])%list else events s).

Definition count_post (s s' : State) : Prop :=
  exists n,
    resolved_count (Raw.count (raw (self s))) = inr n
    /\ 1 <= n <= 64
    /\ s' = on_self (set_count n) s.

Definition deterministic_post (s s' : State) : Prop :=
  s' = on_self
         (set_rng
            (Some (selected_rng (Raw.random_deterministic (raw (self s))))))
         s.

Definition input_format_post (X : Extern) (s s' : State) : Prop :=
  let n := Raw.input_format (raw (self s)) in
  (n = "ur" /\ s' = on_self (set_is_ur_in true) s)
  \/ (n <> "ur"
      /\ exists f,
           s' = on_self (set_input_format (Some f)) s
           /\ ((n = "" /\ f = FormatRandom)
               \/ (n <> "" /\ resolved_format X n = Some f))).

Definition input_post (X : Extern) (s s' : State) : Prop :=
  (is_random (input_format (self s)) = true
   /\ Raw.args (raw (self s)) = [] /\ s' = s)
  \/ (is_random (input_format (self s)) = false
      /\ acquired_input s <> []
      /\ ((is_ur_in (self s) = false /\ s' = acquired_state s)
          \/ (is_ur_in (self s) = true
              /\ exists tag f,
                   ur_decode X (acquired_input s) = inr tag
                   /\ format_for_tag X tag = Some f
                   /\ s' = decoded tag f (acquired_state s)))).

Definition count_for_input_format_post (s s' : State) : Prop :=
  s' = s
  /\ (is_hex (input_format (self s)) || is_bc32 (input_format (self s)) = true
      -> Raw.count (raw (self s)) = "").

Definition output_format_post (X : Extern) (s s' : State) : Prop :=
  let n := Raw.output_format (raw (self s)) in
  exists o,
    s' = on_self (set_output_format (Some o)) s
    /\ o <> FormatRandom
    /\ ((n = "" /\ o = FormatHex)
        \/ (n <> "" /\ resolved_format X n = Some o)).

Definition output_for_input_post (s s' : State) : Prop :=
  s' = s
  /\ compatible_b (is_ur_in (self s)) (input_format (self s))
       (output_format (self s)) = true.

Definition ints_post (s s' : State) : Prop :=
  let r := raw (self s) in
  (exists l0 h0 low high,
     output_format (self s) = Some (FormatInts l0 h0)
     /\ resolved_bound (Raw.ints_low r) l0 = inr low
     /\ resolved_bound (Raw.ints_high r) h0 = inr high
     /\ 0 <= low < high /\ high <= 255
     /\ s' = on_self (set_output_format (Some (FormatInts low high))) s)
  \/ (is_ints (output_format (self s)) = false
      /\ Raw.ints_low r = "" /\ Raw.ints_high r = "" /\ s' = s).

Definition bip39_post (X : Extern) (s s' : State) : Prop :=
  s' = s
  /\ (is_bip39 (output_format (self s)) = true ->
      bip39_is_seed_length_valid X (count (self s)) = true).

Definition slip39_post (X : Extern) (s s' : State) : Prop :=
  let r := raw (self s) in
  (is_slip39 (output_format (self s)) = true
   /\ slip39_is_seed_length_valid X (count (self s)) = true
   /\ (List.length (Raw.slip39_groups r) <= MAX_GROUPS X)%nat
   /\ exists gt groups,
        build_groups X (Raw.slip39_groups r) s = Ok (groups, s)
        /\ resolved_groups_threshold (Raw.slip39_groups_threshold r) = inr gt
        /\ 1 <= gt <= size groups
        /\ s' = on_self (set_output_format (Some (FormatSLIP39 gt groups))) s)
  \/ (is_slip39 (output_format (self s)) = false
      /\ Raw.slip39_groups r = [] /\ Raw.slip39_groups_threshold r = ""
      /\ s' = s).

Definition ur_post (s s' : State) : Prop :=
  let r := raw (self s) in
  (Raw.is_ur r = false /\ s' = s)
  \/ (Raw.is_ur r = true
      /\ is_ur_in (self s) = false
      /\ ur_capable (output_format (self s)) = true
      /\ exists n,
           resolved_max_part_length (Raw.max_part_length r) = inr n
           /\ s' = on_self (fun p => set_max_part_length n
                                       (set_is_ur_out true p)) s).

(** A group descriptor within its bounds. *)
Definition group_ok (g : group_descriptor) : Prop :=
  group_bounds (threshold g) (g_count g) = true /\ passwords g = None.

(** The specifier and the descriptor it was parsed into. *)
Definition parsed_as (spec : string) (g : group_descriptor) : Prop :=
  shape_T_of_N spec = Some (threshold g, g_count g) /\ group_ok g.

(** *** A run of [validate] that returned *)

(** The states between the steps of a run of [validate] from [s] that
    returned in [s']: after the count, the random source, the input
    format, the input, the output format, the integer range and the
    SLIP39 groups; the other steps leave the state as it is. *)
Definition validated (X : Extern) (s s' : State) : Prop :=
  exists s1 s2 s3 s4 s6 s8 s10,
    count_post s s1
    /\ deterministic_post s1 s2
    /\ input_format_post X s2 s3
    /\ input_post X s3 s4
    /\ count_for_input_format_post s4 s4
    /\ output_format_post X s4 s6
    /\ output_for_input_post s6 s6
    /\ ints_post s6 s8
    /\ bip39_post X s8 s8
    /\ slip39_post X s8 s10
    /\ ur_post s10 s'.


(** Proving that a member is the same on both sides of a step that
    returned, from what the step has done. *)
Ltac frame_by P :=
  let Q := fresh "Q" in
  pose proof P as Q;
  unfold count_post, deterministic_post, input_format_post, input_post,
    count_for_input_format_post, output_format_post, output_for_input_post,
    ints_post, bip39_post, slip39_post, ur_post in Q;
  cbv zeta in Q;
  decompose [ex and or] Q; subst; reflexivity.

(** Every raw option but the positional arguments is the same in the
    two states. *)
Definition same_options (s s' : State) : Prop :=
  let r := raw (self s) in
  let r' := raw (self s') in
  Raw.count r' = Raw.count r
  /\ Raw.random_deterministic r' = Raw.random_deterministic r
  /\ Raw.slip39_groups r' = Raw.slip39_groups r
  /\ Raw.ints_high r' = Raw.ints_high r
  /\ Raw.ints_low r' = Raw.ints_low r
  /\ Raw.input_format r' = Raw.input_format r
  /\ Raw.output_format r' = Raw.output_format r
  /\ Raw.slip39_groups_threshold r' = Raw.slip39_groups_threshold r
  /\ Raw.is_ur r' = Raw.is_ur r
  /\ Raw.max_part_length r' = Raw.max_part_length r.

(** The trace a run of [validate] adds: standard input is read when
    [reads] holds, the resource is decoded when [decodes] holds. *)
Definition added_events (reads decodes : bool) (stdin text : list string)
  : list event :=
  ((if reads then [ReadStdin stdin] else [])
   ++ (if decodes then [DecodeUR text] else []))%list.

(** The state a run of [validate] from [s] returns in ([s] itself when
    it does not return). *)
Definition run_state (X : Extern) (s : State) : State :=
  match parse_opt_end X s with
  | Ok (_, s') => s'
  | _ => s
  end.

(** Two calls that store into the same member of the raw options. *)
Definition same_target (c1 c2 : argp_call) : bool :=
  match c1, c2 with
  | OPTION k1 _, OPTION k2 _ => key_eqb k1 k2
  | OPTION k _, OPTION_u_NULL => key_eqb k key_u
  | OPTION_u_NULL, OPTION k _ => key_eqb k key_u
  | OPTION_u_NULL, OPTION_u_NULL => true
  | ARGP_KEY_ARG _, ARGP_KEY_ARG _ => true
  | _, _ => false
  end.

(** The exceptions [stoi] throws. *)
Definition thrown_by_stoi (e : exn) : Prop :=
  e = invalid_argument "stoi" \/ e = out_of_range "stoi".

(** --out ints with the given raw --low and --high, as [validate]
    starts. *)
Definition ints_state_raw (lo hi : string) : State :=
  start (with_ints_bounds lo hi) [].

(** [stoi] is called on the raw value [r] and throws [e]; the value of
    an option that was not given is not read. *)
Definition unreadable (r : string) (e : exn) : Prop :=
  r <> "" /\ stoi r = inl e.

(** The raw value [r] is absent, or [stoi] reads it. *)
Definition readable (r : string) : Prop :=
  r = "" \/ exists n, stoi r = inr n.

(** The steps that throw [e] when they start in [s], each with what
    makes it throw. *)
Inductive throw_site (X : Extern) (s : State) (e : exn) : M unit -> Prop :=
| throws_count :
    unreadable (Raw.count (raw (self s))) e ->
    throw_site X s e validate_count
| throws_decode :
    is_random (input_format (self s)) = false ->
    acquired_input s <> [] ->
    is_ur_in (self s) = true ->
    ur_decode X (acquired_input s) = inl e ->
    throw_site X s e (validate_input X)
| throws_low :
    is_ints (output_format (self s)) = true ->
    unreadable (Raw.ints_low (raw (self s))) e ->
    throw_site X s e validate_ints_specific
| throws_high :
    is_ints (output_format (self s)) = true ->
    readable (Raw.ints_low (raw (self s))) ->
    unreadable (Raw.ints_high (raw (self s))) e ->
    throw_site X s e validate_ints_specific
| throws_groups_threshold :
    is_slip39 (output_format (self s)) = true ->
    slip39_is_seed_length_valid X (count (self s)) = true ->
    size (Raw.slip39_groups (raw (self s))) <= Z.of_nat (MAX_GROUPS X) ->
    (exists gs,
       build_groups X (Raw.slip39_groups (raw (self s))) s = Ok (gs, s)) ->
    unreadable (Raw.slip39_groups_threshold (raw (self s))) e ->
    throw_site X s e (validate_slip39_specific X)
| throws_max_part_length :
    Raw.is_ur (raw (self s)) = true ->
    is_ur_in (self s) = false ->
    unreadable (Raw.max_part_length (raw (self s))) e ->
    throw_site X s e validate_ur.

(** *** The diagnostics of a run *)

Definition bip39_count_message : string :=
  "For BIP39 COUNT must be in [12-32] and even.".

Definition group_bounds_message (spec : string) : string :=
  "Invalid group specifier " ++ dquote ++ spec ++ dquote
  ++ ": 1 <= N <= M <= 16".

Definition group_one_of_many_message : string :=
  "Invalid group specifier. 1-of-M groups where M > 1 are not supported.".

(** The diagnostics [argp_error] is called with in params.cpp, for the
    raw options [r]: those with a fixed text, those that quote a format
    name, and those of a group specifier. *)
Definition diagnostic (X : Extern) (r : Raw.t) (msg : string) : Prop :=
  In msg
    [ count_range_message;
      "Unknown input format: " ++ Raw.input_format r;
      random_args_message; no_input_message; unknown_ur_message;
      hex_count_message; bc32_count_message;
      "Unknown output format: " ++ Raw.output_format r;
      ints_range_message; low_option_message; high_option_message;
      bip39_count_message; slip39_count_message; max_groups_message X;
      group_threshold_message; group_option_message;
      group_threshold_option_message;
      ur_combined_message; ur_output_message ]
  \/ (exists i o : option Format,
        msg = "Input format " ++ name_of i
              ++ " cannot be used with output format " ++ name_of o)
  \/ (exists spec,
        In spec (Raw.slip39_groups r)
        /\ In msg [ could_not_parse spec; group_bounds_message spec;
                    group_one_of_many_message ]).

(** A step that leaves every raw option but the positional arguments
    as it found it. *)
Definition keeps_options (m : M unit) : Prop :=
  forall s s', m s = Ok (tt, s') -> same_options s s'.

(** Finding a message among the diagnostics with a fixed text. *)
Ltac fixed_diagnostic :=
  left; cbn [In]; repeat (first [left; reflexivity | right]).

(* ================================================================== *)
(** ** Group specifiers *)

Lemma to_size_t_small (v : Z) :
  0 <= v <= LONG_MAX -> to_size_t v = v.
Proof.
  intros H. unfold to_size_t, LONG_MIN, LONG_MAX in *.
  rewrite Z.min_r by lia. rewrite Z.max_r by lia.
  apply Z.mod_small. lia.
Qed.

Lemma to_size_t_range (v : Z) : 0 <= to_size_t v < 2 ^ 64.
Proof. unfold to_size_t. apply Z.mod_pos_bound. lia. Qed.

Lemma to_size_t_large (v : Z) : 16 < v -> 16 < to_size_t v.
Proof.
  intros H. unfold to_size_t, LONG_MIN, LONG_MAX.
  destruct (Z.min_spec (2 ^ 63 - 1) v) as [[? ->] | [? ->]];
    rewrite Z.max_r by lia; rewrite Z.mod_small; lia.
Qed.

Lemma to_size_t_negative (v : Z) : v < 0 -> 2 ^ 63 <= to_size_t v.
Proof.
  intros H. unfold to_size_t, LONG_MIN, LONG_MAX.
  rewrite Z.min_r by lia.
  destruct (Z.max_spec (- 2 ^ 63) v) as [[? ->] | [? ->]].
  - replace v with (v + 2 ^ 64 + (-1) * 2 ^ 64) by lia.
    rewrite Z.mod_add by lia. rewrite Z.mod_small; lia.
  - replace (- 2 ^ 63) with (2 ^ 63 + (-1) * 2 ^ 64) by lia.
    rewrite Z.mod_add by lia. rewrite Z.mod_small; lia.
Qed.

(** The two checks of [parse_group_spec] on the stored [size_t] values
    decide the bounds on the numbers that were written. *)
Lemma size_t_checks_decide_bounds (T N : Z) :
  let t := to_size_t T in
  let n := to_size_t N in
  (0 <? t) && (t <=? n) && (n <=? 16) && negb ((n >? 1) && (t =? 1))
  = group_bounds T N.
Proof.
  intros t n. unfold group_bounds.
  destruct (Z_lt_le_dec T 0) as [HT | HT].
  { pose proof (to_size_t_negative T HT).
    pose proof (to_size_t_range N).
    replace (1 <=? T) with false by (symmetry; apply Z.leb_gt; lia).
    destruct (Z.leb_spec n 16); [| rewrite !andb_false_r; reflexivity].
    replace (t <=? n) with false by (symmetry; apply Z.leb_gt; subst t n; lia).
    rewrite !andb_false_r. reflexivity. }
  destruct (Z_lt_le_dec 16 T) as [HT' | HT'].
  { pose proof (to_size_t_large T HT').
    pose proof (to_size_t_range N).
    destruct (Z.leb_spec n 16); [| rewrite !andb_false_r;
      destruct (Z.leb_spec N 16); [| rewrite !andb_false_r; reflexivity ];
      replace (T <=? N) with false by (symmetry; apply Z.leb_gt; lia);
      rewrite !andb_false_r; reflexivity ].
    replace (t <=? n) with false by (symmetry; apply Z.leb_gt; subst t n; lia).
    destruct (Z.leb_spec N 16); [| rewrite !andb_false_r; reflexivity ].
    replace (T <=? N) with false by (symmetry; apply Z.leb_gt; lia).
    rewrite !andb_false_r. reflexivity. }
  assert (Et : t = T) by (apply to_size_t_small; unfold LONG_MAX; lia).
  rewrite Et.
  destruct (Z_lt_le_dec N 0) as [HN | HN].
  { pose proof (to_size_t_negative N HN).
    replace (n <=? 16) with false by (symmetry; apply Z.leb_gt; subst n; lia).
    replace (T <=? N) with false by (symmetry; apply Z.leb_gt; lia).
    rewrite !andb_false_r. reflexivity. }
  destruct (Z_lt_le_dec 16 N) as [HN' | HN'].
  { pose proof (to_size_t_large N HN').
    replace (n <=? 16) with false by (symmetry; apply Z.leb_gt; subst n; lia).
    replace (N <=? 16) with false by (symmetry; apply Z.leb_gt; lia).
    rewrite !andb_false_r. reflexivity. }
  assert (En : n = N) by (apply to_size_t_small; unfold LONG_MAX; lia).
  rewrite En.
  replace (0 <? T) with (1 <=? T)
    by (destruct (Z.leb_spec 1 T), (Z.ltb_spec 0 T); auto; lia).
  replace (N >? 1) with (1 <? N) by (rewrite Z.gtb_ltb; reflexivity).
  destruct (1 <? N), (T =? 1); reflexivity.
Qed.

Lemma group_bounds_iff (T N : Z) :
  group_bounds T N = true <-> 1 <= T <= N /\ N <= 16 /\ (N > 1 -> T <> 1).
Proof.
  unfold group_bounds.
  rewrite !andb_true_iff, !Z.leb_le.
  destruct (Z.ltb_spec 1 N), (Z.eqb_spec T 1); simpl; split; intros; try lia;
    intuition (try lia; try discriminate).
Qed.

Lemma group_bounds_small (T N : Z) :
  group_bounds T N = true -> to_size_t T = T /\ to_size_t N = N.
Proof.
  intros H. apply group_bounds_iff in H.
  split; apply to_size_t_small; unfold LONG_MAX; lia.
Qed.

Lemma append_empty_r (s : string) : s ++ "" = s.
Proof. induction s as [| c s IH]; simpl; [| rewrite IH]; reflexivity. Qed.

Lemma append_assoc (a b c : string) : (a ++ b) ++ c = a ++ b ++ c.
Proof. induction a as [| x a IH]; simpl; [| rewrite IH]; reflexivity. Qed.

Lemma all_chars_app (p : ascii -> bool) (a b : string) :
  all_chars p (a ++ b) = all_chars p a && all_chars p b.
Proof.
  induction a as [| c a IH]; simpl; [reflexivity |].
  rewrite IH, andb_assoc. reflexivity.
Qed.

(** The scanner's digit test is the class of the ten digits. *)
Lemma digit_class (c : ascii) :
  digit c = if is_digit c then Some (digit_value c) else None.
Proof.
  unfold digit, is_digit, digit_value.
  destruct (Nat.leb_spec 48 (nat_of_ascii c)),
           (Nat.leb_spec (nat_of_ascii c) 57),
           (Z.leb_spec 48 (Z.of_nat (nat_of_ascii c))),
           (Z.leb_spec (Z.of_nat (nat_of_ascii c)) 57);
    simpl; try reflexivity; lia.
Qed.

Lemma is_digit_not_space (c : ascii) : is_digit c = true -> isspace c = false.
Proof.
  unfold is_digit, isspace. intros H.
  apply andb_true_iff in H. destruct H as [H1 H2].
  apply Nat.leb_le in H1.
  destruct (Nat.eqb_spec (nat_of_ascii c) 32); [lia |].
  destruct (Nat.leb_spec (nat_of_ascii c) 13); [| rewrite andb_false_r; reflexivity].
  lia.
Qed.

Lemma is_digit_not_sign (c : ascii) :
  is_digit c = true -> Ascii.eqb c "-" = false /\ Ascii.eqb c "+" = false.
Proof.
  intros H. split.
  - destruct (Ascii.eqb_spec c "-"%char) as [-> |];
      [vm_compute in H; discriminate | reflexivity].
  - destruct (Ascii.eqb_spec c "+"%char) as [-> |];
      [vm_compute in H; discriminate | reflexivity].
Qed.

(** The scanner's run of digits is a numeral and its value. *)
Lemma digits_numeral (ds rest : string) :
  all_chars is_digit ds = true -> no_digit_ahead rest ->
  forall acc,
    digits (ds ++ rest) acc
    = (acc * 10 ^ Z.of_nat (String.length ds) + numeral_value ds, rest).
Proof.
  intros D R. induction ds as [| c ds IH]; intros acc.
  - simpl. destruct rest as [| c r]; simpl.
    + f_equal. lia.
    + simpl in R. rewrite digit_class, R. f_equal. lia.
  - simpl in D. apply andb_true_iff in D. destruct D as [Dc D].
    cbn [append digits numeral_value].
    change (String.length (String c ds)) with (S (String.length ds)).
    rewrite digit_class, Dc, (IH D). f_equal.
    rewrite Nat2Z.inj_succ, Z.pow_succ_r by lia. ring.
Qed.

Lemma digits_run (s : string) :
  forall acc v rest,
    digits s acc = (v, rest) ->
    exists ds,
      s = ds ++ rest
      /\ all_chars is_digit ds = true
      /\ no_digit_ahead rest
      /\ v = acc * 10 ^ Z.of_nat (String.length ds) + numeral_value ds.
Proof.
  induction s as [| c s IH]; intros acc v rest; cbn [digits].
  - intros [= <- <-]. exists "". simpl. repeat split. lia.
  - rewrite digit_class. destruct (is_digit c) eqn:Dc.
    + intros E. destruct (IH _ _ _ E) as (ds & -> & D & R & ->).
      exists (String c ds). cbn [append all_chars numeral_value].
      change (String.length (String c ds)) with (S (String.length ds)).
      rewrite Dc, D. repeat split; [exact R |].
      rewrite Nat2Z.inj_succ, Z.pow_succ_r by lia. ring.
    + intros [= <- <-]. exists "". simpl. repeat split; [exact Dc | lia].
Qed.

Lemma skip_spaces_app (ws t : string) :
  all_chars isspace ws = true ->
  match t with String c _ => isspace c = false | EmptyString => True end ->
  skip_spaces (ws ++ t) = t.
Proof.
  intros W T. induction ws as [| c ws IH]; simpl.
  - destruct t as [| c r]; simpl; [reflexivity | rewrite T; reflexivity].
  - simpl in W. apply andb_true_iff in W. destruct W as [Wc W].
    rewrite Wc. exact (IH W).
Qed.

Lemma skip_spaces_split (s : string) :
  exists ws, s = ws ++ skip_spaces s /\ all_chars isspace ws = true.
Proof.
  induction s as [| c s (ws & E & W)]; simpl.
  - exists "". split; reflexivity.
  - destruct (isspace c) eqn:C.
    + exists (String c ws). simpl. rewrite C, W, <- E. split; reflexivity.
    + exists "". split; reflexivity.
Qed.

(** [scan_integer] converts exactly the strings that begin with a
    written integer, to its value, and leaves what follows it. *)
Lemma scan_integer_written (str : string) (v : Z) (rest : string) :
  scan_integer str = Converted v rest <-> written_integer str v rest.
Proof.
  split.
  - unfold scan_integer.
    destruct (skip_spaces_split str) as (ws & E & W).
    destruct (skip_spaces str) as [| c r] eqn:K; [discriminate |].
    set (neg := Ascii.eqb c "-").
    set (body := if neg || Ascii.eqb c "+" then r else String c r).
    destruct (starts_with_digit body) eqn:SD; [| discriminate].
    destruct (digits body 0) as [v0 rest0] eqn:DG.
    intros [= <- <-].
    destruct (digits_run _ _ _ _ DG) as (ds & B & D & R & V).
    assert (N : numeral ds).
    { split; [| exact D]. intros ->. simpl in B. subst body.
      rewrite B in SD. destruct rest0 as [| d r0]; simpl in SD;
        [discriminate |].
      simpl in R. rewrite digit_class, R in SD. discriminate. }
    assert (V0 : v0 = numeral_value ds) by lia.
    subst neg.
    destruct (Ascii.eqb_spec c "-"%char) as [-> | Cm].
    + exists ws, "-", ds. simpl in body. subst body. rewrite E, B.
      split; [reflexivity |]. split; [exact W |].
      split; [right; right; reflexivity |]. split; [exact N |].
      split; [exact R |]. rewrite V0. reflexivity.
    + destruct (Ascii.eqb_spec c "+"%char) as [-> | Cp].
      * exists ws, "+", ds. simpl in body. subst body. rewrite E, B.
        split; [reflexivity |]. split; [exact W |].
        split; [right; left; reflexivity |]. split; [exact N |].
        split; [exact R |]. rewrite V0. reflexivity.
      * exists ws, "", ds. simpl in body. subst body. rewrite E, B.
        split; [reflexivity |]. split; [exact W |].
        split; [left; reflexivity |]. split; [exact N |].
        split; [exact R |]. rewrite V0. reflexivity.
  - intros (ws & sg & ds & -> & W & S & [N D] & R & ->).
    destruct ds as [| d ds]; [congruence |].
    pose proof D as D'. simpl in D'. apply andb_true_iff in D'.
    destruct D' as [Dd _].
    destruct (is_digit_not_sign d Dd) as [Dm Dp].
    pose proof (digits_numeral (String d ds) rest D R 0) as DG.
    assert (SD : starts_with_digit (String d ds ++ rest) = true)
      by (simpl; rewrite digit_class, Dd; reflexivity).
    unfold scan_integer.
    destruct S as [-> | [-> | ->]].
    + rewrite skip_spaces_app
        by (try exact W; simpl; apply is_digit_not_space; exact Dd).
      cbn [append]. rewrite Dm, Dp. cbn [orb].
      change (String d (ds ++ rest)) with (String d ds ++ rest).
      rewrite SD, DG. reflexivity.
    + rewrite skip_spaces_app by (try exact W; reflexivity).
      cbn [append].
      change (Ascii.eqb "+" "-") with false.
      change (Ascii.eqb "+" "+") with true. cbn [orb].
      change (String d (ds ++ rest)) with (String d ds ++ rest).
      rewrite SD, DG. reflexivity.
    + rewrite skip_spaces_app by (try exact W; reflexivity).
      cbn [append].
      change (Ascii.eqb "-" "-") with true. cbn [orb].
      change (String d (ds ++ rest)) with (String d ds ++ rest).
      rewrite SD, DG. reflexivity.
Qed.

Lemma match_literal_prefix (lit s rest : string) :
  match_literal lit s = Some rest <-> s = lit ++ rest.
Proof.
  revert s. induction lit as [| a lit IH]; intros s; simpl.
  - split; [intros [= ->] | intros ->]; reflexivity.
  - destruct s as [| b s]; [split; discriminate |].
    destruct (Ascii.eqb_spec a b) as [-> | NE].
    + rewrite IH. split; [intros -> | intros [= ->]]; reflexivity.
    + split; [discriminate | intros [= <- _]; congruence].
Qed.

Lemma exactly_written (str : string) (T N : Z) :
  exactly_T_of_N str T N -> written_T_of_N str T N.
Proof.
  intros (d1 & d2 & -> & N1 & N2 & -> & ->).
  exists d2, "". split.
  - exists "", "", d1. repeat split; try apply N1. left; reflexivity.
  - exists "", "", d2. simpl. rewrite append_empty_r.
    repeat split; try apply N2. left; reflexivity.
Qed.

Lemma exactly_shape_chars (str : string) (T N : Z) :
  exactly_T_of_N str T N -> all_chars shape_char str = true.
Proof.
  assert (D : forall ds, all_chars is_digit ds = true ->
                         all_chars shape_char ds = true).
  { induction ds as [| c ds IH]; simpl; [reflexivity |].
    intros H. apply andb_true_iff in H. destruct H as [Hc H].
    unfold shape_char at 1. rewrite Hc, (IH H). reflexivity. }
  intros (d1 & d2 & -> & [_ N1] & [_ N2] & _).
  rewrite !all_chars_app, (D _ N1), (D _ N2). reflexivity.
Qed.

(** A written T-of-N determines its two numbers. *)
Lemma written_T_of_N_unique (str : string) (T N T' N' : Z) :
  written_T_of_N str T N -> written_T_of_N str T' N' -> T = T' /\ N = N'.
Proof.
  intros (a & r & HT & HN) (a' & r' & HT' & HN').
  apply scan_integer_written in HT, HT', HN, HN'.
  rewrite HT in HT'. injection HT' as -> <-.
  rewrite HN in HN'. injection HN' as -> _.
  split; reflexivity.
Qed.

(** The numbers the scanner finds are those that are written. *)
Lemma shape_written (str : string) (T N : Z) :
  shape_T_of_N str = Some (T, N) <-> written_T_of_N str T N.
Proof.
  unfold shape_T_of_N. split.
  - destruct (scan_integer str) as [| | T0 rest] eqn:ST; try discriminate.
    destruct (match_literal "-of-" rest) as [after |] eqn:L;
      [| discriminate].
    destruct (scan_integer after) as [| | N0 rest'] eqn:SN;
      try discriminate.
    intros [= <- <-]. exists after, rest'.
    apply match_literal_prefix in L. subst rest.
    split; apply scan_integer_written; assumption.
  - intros (after & rest & HT & HN).
    apply scan_integer_written in HT, HN. rewrite HT.
    assert (L : match_literal "-of-" ("-of-" ++ after) = Some after)
      by (apply match_literal_prefix; reflexivity).
    rewrite L, HN. reflexivity.
Qed.

Lemma parse_group_spec_on_shape (X : Extern) (s : State) (str : string) :
  match shape_T_of_N str with
  | None => parse_group_spec X str s = Exit (could_not_parse str)
  | Some (T, N) =>
      if group_bounds T N
      then parse_group_spec X str s = Ok (mk_group T N None, s)
      else exists msg,
             parse_group_spec X str s = Exit msg
             /\ msg <> could_not_parse str
  end.
Proof.
  unfold shape_T_of_N, parse_group_spec, sscanf_zd_of_zd.
  destruct (scan_integer str) as [| | T rest]; try reflexivity.
  destruct (match_literal "-of-" rest) as [rest' |]; try reflexivity.
  destruct (scan_integer rest') as [| | N rest'']; try reflexivity.
  pose proof (size_t_checks_decide_bounds T N) as D. cbv zeta in D.
  run_step.
  destruct (group_bounds T N) eqn:B.
  - destruct (group_bounds_small T N B) as [ET EN].
    rewrite ET, EN in *. rewrite !andb_true_iff in D.
    destruct D as [[[-> ->] ->] D]. simpl.
    apply negb_true_iff in D. rewrite D. reflexivity.
  - destruct ((0 <? to_size_t T) && (to_size_t T <=? to_size_t N)
              && (to_size_t N <=? 16)); simpl.
    + simpl in D. apply negb_false_iff in D. rewrite D.
      eexists. split; [reflexivity | discriminate].
    + eexists. split; [reflexivity | discriminate].
Qed.

(** C3. [parse_group_spec] reads its string as [sscanf] reads
    [%zd-of-%zd]: an integer T, the characters -of-, an integer N, where
    white space and a sign may precede each number and anything may
    follow the second.  On a string that does not begin so it ends with
    the diagnostic "Could not parse group specifier" that quotes the
    string.  On a string that does, it returns the descriptor (T, N)
    exactly when 1 <= T <= N <= 16 and (N > 1 implies T <> 1), and
    otherwise ends with another fatal diagnostic.  A string that is
    exactly a numeral, -of- and a numeral is read as those two numbers.
    At the boundary: "1-of-1" and "16-of-16" are accepted, "1-of-2" and
    "17-of-16" are rejected; "2-of-3junk" and " +2-of- 3 x" are accepted
    as (2, 3), "-1-of-3" is rejected for its bounds. *)
Theorem parse_group_spec_decides (X : Extern) (s : State) :
  (forall str,
     (forall T N, ~ written_T_of_N str T N) ->
     parse_group_spec X str s = Exit (could_not_parse str))
  /\ (forall str T N,
        written_T_of_N str T N ->
        if group_bounds T N
        then parse_group_spec X str s = Ok (mk_group T N None, s)
        else exists msg,
               parse_group_spec X str s = Exit msg
               /\ msg <> could_not_parse str)
  /\ (forall str g s',
        parse_group_spec X str s = Ok (g, s') ->
        s' = s
        /\ passwords g = None
        /\ written_T_of_N str (threshold g) (g_count g)
        /\ group_bounds (threshold g) (g_count g) = true)
  /\ (forall str T N, exactly_T_of_N str T N -> written_T_of_N str T N)
  /\ (forall str T N T' N',
        written_T_of_N str T N -> written_T_of_N str T' N' ->
        T = T' /\ N = N')
  /\ parse_group_spec X "1-of-1" s = Ok (mk_group 1 1 None, s)
  /\ (exists msg, parse_group_spec X "1-of-2" s = Exit msg)
  /\ parse_group_spec X "16-of-16" s = Ok (mk_group 16 16 None, s)
  /\ (exists msg, parse_group_spec X "17-of-16" s = Exit msg)
  /\ parse_group_spec X "2of3" s = Exit (could_not_parse "2of3")
  /\ parse_group_spec X "2-to-3" s = Exit (could_not_parse "2-to-3")
  /\ parse_group_spec X "2-of-3junk" s = Ok (mk_group 2 3 None, s)
  /\ parse_group_spec X " +2-of- 3 x" s = Ok (mk_group 2 3 None, s)
  /\ (exists msg,
        parse_group_spec X "-1-of-3" s = Exit msg
        /\ msg <> could_not_parse "-1-of-3").
Proof.
  split; [| split; [| split; [| split; [| split ] ] ] ].
  - intros str H. pose proof (parse_group_spec_on_shape X s str) as P.
    destruct (shape_T_of_N str) as [[T N] |] eqn:E; [| exact P].
    exfalso. apply (H T N), shape_written, E.
  - intros str T N H. apply shape_written in H.
    pose proof (parse_group_spec_on_shape X s str) as P.
    rewrite H in P. exact P.
  - intros str g s' H. pose proof (parse_group_spec_on_shape X s str) as P.
    destruct (shape_T_of_N str) as [[T N] |] eqn:E.
    + destruct (group_bounds T N) eqn:B.
      * rewrite P in H. injection H as <- <-. simpl.
        repeat split; [apply shape_written, E | exact B].
      * destruct P as (msg & P & _). rewrite P in H. discriminate.
    + rewrite P in H. discriminate.
  - apply exactly_written.
  - apply written_T_of_N_unique.
  - repeat split; try reflexivity; eexists; try reflexivity.
    split; [reflexivity | discriminate].
Qed.

Lemma parse_group_spec_decides_witness :
  let s := start Raw.empty [] in
  written_T_of_N " 3-of-5 " 3 5
  /\ parse_group_spec sample " 3-of-5 " s = Ok (mk_group 3 5 None, s)
  /\ (forall T N, ~ written_T_of_N "2-to-3" T N)
  /\ parse_group_spec sample "2-to-3" s = Exit (could_not_parse "2-to-3").
Proof.
  intros s.
  assert (W : written_T_of_N " 3-of-5 " 3 5).
  { exists "5 ", " ". split.
    - exists " ", "", "3". repeat split; try reflexivity;
        [left; reflexivity | discriminate].
    - exists "", "", "5". repeat split; try reflexivity;
        [left; reflexivity | discriminate]. }
  assert (F : forall T N, ~ written_T_of_N "2-to-3" T N).
  { intros T N H. apply shape_written in H. discriminate H. }
  split; [exact W |].
  split;
    [exact (proj1 (proj2 (parse_group_spec_decides sample s))
              " 3-of-5 " 3 5 W) |].
  split; [exact F |].
  exact (proj1 (parse_group_spec_decides sample s) "2-to-3" F).
Defined.

(** The strings "2-of-3junk" and " +2-of- 3 x" are not a numeral, -of-
    and a numeral, and [parse_group_spec] does not end with the
    diagnostic "Could not parse group specifier" on them: it returns the
    group (2, 3).  The string "-1-of-3" is not of that shape either, and
    the diagnostic is that of the bounds. *)
Lemma parse_group_spec_trailing_counterexample :
  let s := start Raw.empty [] in
  (forall T N, ~ exactly_T_of_N "2-of-3junk" T N)
  /\ parse_group_spec sample "2-of-3junk" s = Ok (mk_group 2 3 None, s)
  /\ parse_group_spec sample "2-of-3junk" s
     <> Exit (could_not_parse "2-of-3junk")
  /\ (forall T N, ~ exactly_T_of_N " +2-of- 3 x" T N)
  /\ parse_group_spec sample " +2-of- 3 x" s = Ok (mk_group 2 3 None, s)
  /\ parse_group_spec sample " +2-of- 3 x" s
     <> Exit (could_not_parse " +2-of- 3 x")
  /\ (forall T N, ~ exactly_T_of_N "-1-of-3" T N)
  /\ parse_group_spec sample "-1-of-3" s
     <> Exit (could_not_parse "-1-of-3").
Proof.
  intros s.
  assert (E : forall str, all_chars shape_char str = false ->
                          forall T N, ~ exactly_T_of_N str T N).
  { intros str F T N H. apply exactly_shape_chars in H. congruence. }
  repeat split; try reflexivity; try discriminate;
    try (apply E; reflexivity).
  intros T N (d1 & d2 & H & [N1 D1] & _).
  destruct d1 as [| c d1]; [congruence |].
  injection H as <- _. discriminate D1.
Qed.

(* ================================================================== *)
(** ** Input/output compatibility *)

Lemma first_match_accepted (u : bool) (i o : Format) :
  first_match u i o <> None <-> accepted u i o.
Proof.
  unfold accepted.
  destruct u, i, o; cbv; split; intros H; try discriminate;
    try congruence; auto 10;
    repeat (destruct H as [H | H]; try discriminate);
    try (destruct H as (? & ? & ?); discriminate).
Qed.

(** C1. For a resolved pair of descriptors, [validate_output_for_input]
    takes the verdict of the first matching rule of the matrix, rules 1
    to 7 in their order: it accepts if the output format is hex or BC32,
    or the input format is random, hex or BC32, or the input arrived as
    a resource string and both sides are BIP39 or both are SLIP39; in
    every other case it ends with the diagnostic that names both
    formats.  Word-list input that did not arrive as a resource string
    is rejected by the matching word-list output. *)
Theorem validate_output_for_input_matrix (s : State) (i o : Format) :
  input_format (self s) = Some i ->
  output_format (self s) = Some o ->
  let u := is_ur_in (self s) in
  validate_output_for_input s
  = match first_match u i o with
    | Some _ => Ok (tt, s)
    | None => Exit (incompatible_message i o)
    end
  /\ (accepted u i o -> validate_output_for_input s = Ok (tt, s))
  /\ (~ accepted u i o ->
      validate_output_for_input s = Exit (incompatible_message i o))
  /\ (u = false ->
      (i = FormatBIP39 /\ o = FormatBIP39)
      \/ (is_slip39 (Some i) = true /\ is_slip39 (Some o) = true) ->
      validate_output_for_input s = Exit (incompatible_message i o)).
Proof.
  intros Hi Ho u.
  assert (E : validate_output_for_input s
              = match first_match u i o with
                | Some _ => Ok (tt, s)
                | None => Exit (incompatible_message i o)
                end).
  { unfold validate_output_for_input. run_step. fold u.
    rewrite Hi, Ho.
    destruct u, i, o; reflexivity. }
  split; [exact E |]. rewrite E.
  pose proof (first_match_accepted u i o) as A.
  split; [| split].
  - intros H. apply A in H.
    destruct (first_match u i o); [reflexivity | congruence].
  - intros H. destruct (first_match u i o) eqn:F; [| reflexivity].
    exfalso. apply H, A. discriminate.
  - intros Hu W. destruct (first_match u i o) eqn:F; [| reflexivity].
    exfalso. assert (Acc : accepted u i o) by (apply A; congruence).
    clear - Hu W Acc. unfold accepted in Acc. rewrite Hu in Acc.
    destruct W as [[-> ->] | [Wi Wo]].
    + repeat (destruct Acc as [Acc | Acc]; try discriminate);
        destruct Acc as (? & ?); discriminate.
    + destruct i; try discriminate; destruct o; try discriminate;
      repeat (destruct Acc as [Acc | Acc]; try discriminate);
        destruct Acc as (? & ?); discriminate.
Qed.

Lemma validate_output_for_input_matrix_witness :
  let s := mk_State
             (mk_Params Raw.empty 16 None (Some FormatBIP39)
                (Some FormatBIP39) true false 0 [] None) [] [] in
  validate_output_for_input s = Ok (tt, s).
Proof.
  intros s.
  apply (proj1 (proj2 (validate_output_for_input_matrix
                         s FormatBIP39 FormatBIP39 eq_refl eq_refl))).
  unfold accepted. simpl. auto 10.
Defined.

(* ================================================================== *)
(** ** Count resolution *)

(** What [stoi] makes of some count strings. *)
Example stoi_samples :
  stoi "1" = inr 1 /\ stoi "64" = inr 64 /\ stoi "65" = inr 65
  /\ stoi "0" = inr 0 /\ stoi "-3" = inr (-3) /\ stoi " +12abc" = inr 12
  /\ stoi "abc" = inl (invalid_argument "stoi")
  /\ stoi "-" = inl (invalid_argument "stoi")
  /\ stoi "2147483648" = inl (out_of_range "stoi")
  /\ stoi "2147483647" = inr 2147483647.
Proof. repeat split; reflexivity. Qed.

(** Every integer of [1, 64] written in decimal is read back as
    itself. *)
Lemma stoi_decimal_1_64 :
  forallb (fun n => match stoi (decimal n) with
                    | inr m => m =? n
                    | inl _ => false
                    end)
          (map Z.of_nat (seq 1 64)) = true.
Proof. vm_compute. reflexivity. Qed.

Lemma str_empty_false (c : string) : c <> "" -> str_empty c = false.
Proof. destruct c; [congruence | reflexivity]. Qed.

Lemma str_empty_true (c : string) : c = "" -> str_empty c = true.
Proof. intros ->. reflexivity. Qed.

Lemma validate_count_cases (s : State) :
  validate_count s
  = match resolved_count (Raw.count (raw (self s))) with
    | inl e => Throw e
    | inr n =>
        if (n <? 1) || (n >? 64) then Exit count_range_message
        else Ok (tt, on_self (set_count n) s)
    end.
Proof.
  unfold validate_count, resolved_count. run_step.
  destruct (str_empty (Raw.count (raw (self s)))); simpl.
  - reflexivity.
  - destruct (stoi (Raw.count (raw (self s)))) as [e | n]; simpl.
    + reflexivity.
    + destruct ((n <? 1) || (n >? 64)); reflexivity.
Qed.

(** A step that throws ends [parse_opt] with the exception's text. *)
Lemma parse_opt_end_first_throw (X : Extern) (s : State) (e : exn) :
  validate_count s = Throw e -> parse_opt_end X s = Exit (what e).
Proof.
  intros H. unfold parse_opt_end, validate.
  unfold bind at 1. rewrite H. reflexivity.
Qed.

Lemma parse_opt_end_first_exit (X : Extern) (s : State) (msg : string) :
  validate_count s = Exit msg -> parse_opt_end X s = Exit msg.
Proof.
  intros H. unfold parse_opt_end, validate.
  unfold bind at 1. rewrite H. reflexivity.
Qed.

(** C5, as the code has it.  An absent count resolves to 16; a count
    string that [stoi] reads as an integer of [1, 64] resolves to that
    integer; one read as an integer outside [1, 64] ends with "COUNT must
    be in [1-64]."; one that [stoi] rejects (no number at its head, or a
    number that does not fit an int) ends the run as well, but with the
    text of the exception as the diagnostic, not the count-range
    message. *)
Theorem validate_count_resolution (X : Extern) (s : State) :
  let c := Raw.count (raw (self s)) in
  (c = "" -> validate_count s = Ok (tt, on_self (set_count 16) s))
  /\ (forall n, c <> "" -> stoi c = inr n -> 1 <= n <= 64 ->
      validate_count s = Ok (tt, on_self (set_count n) s))
  /\ (forall n, c <> "" -> stoi c = inr n -> n < 1 \/ 64 < n ->
      validate_count s = Exit count_range_message
      /\ parse_opt_end X s = Exit count_range_message)
  /\ (forall e, c <> "" -> stoi c = inl e ->
      validate_count s = Throw e
      /\ parse_opt_end X s = Exit (what e)
      /\ what e = "stoi").
Proof.
  intros c. pose proof (validate_count_cases s) as V.
  unfold resolved_count in V. fold c in V.
  split; [| split; [| split ] ].
  - intros E. rewrite E in V. exact V.
  - intros n Hc Hs Hn. rewrite (str_empty_false _ Hc), Hs in V. rewrite V.
    replace (n <? 1) with false by (symmetry; apply Z.ltb_ge; lia).
    replace (n >? 64) with false
      by (rewrite Z.gtb_ltb; symmetry; apply Z.ltb_ge; lia).
    reflexivity.
  - intros n Hc Hs Hn. rewrite (str_empty_false _ Hc), Hs in V.
    assert (R : (n <? 1) || (n >? 64) = true).
    { rewrite Z.gtb_ltb. apply orb_true_iff. rewrite !Z.ltb_lt. exact Hn. }
    rewrite R in V. split; [exact V |].
    apply parse_opt_end_first_exit. exact V.
  - intros e Hc Hs. rewrite (str_empty_false _ Hc), Hs in V.
    split; [exact V |]. split.
    + apply parse_opt_end_first_throw. exact V.
    + unfold stoi in Hs. destruct (scan_integer c) as [| | v r].
      * injection Hs as <-. reflexivity.
      * injection Hs as <-. reflexivity.
      * destruct ((v <? INT_MIN) || (INT_MAX <? v)); [| discriminate].
        injection Hs as <-. reflexivity.
Qed.

Lemma validate_count_resolution_witness :
  let s := start (with_raw_count "32") [] in
  validate_count s = Ok (tt, on_self (set_count 32) s).
Proof.
  intros s.
  apply (proj1 (proj2 (validate_count_resolution sample s)) 32).
  - discriminate.
  - reflexivity.
  - lia.
Defined.

(** The count string "abc" is not numeric, and the run does not end
    with the count-range diagnostic: [stoi] throws, and [parse_opt]
    reports the text of the exception.  The count string "12abc" is not
    a number either, and resolves to 12. *)
Lemma validate_count_non_numeric_counterexample :
  let s := start (with_raw_count "abc") [] in
  let s' := start (with_raw_count "12abc") [] in
  validate_count s = Throw (invalid_argument "stoi")
  /\ parse_opt_end sample s = Exit "stoi"
  /\ validate_count s <> Exit count_range_message
  /\ parse_opt_end sample s <> Exit count_range_message
  /\ validate_count s' = Ok (tt, on_self (set_count 12) s').
Proof.
  intros s s'. repeat split; try reflexivity; discriminate.
Qed.

(* ================================================================== *)
(** ** Integer-list range *)

Lemma validate_ints_specific_cases (s : State) :
  validate_ints_specific s
  = let r := raw (self s) in
    match output_format (self s) with
    | Some (FormatInts l0 h0) =>
        match resolved_bound (Raw.ints_low r) l0 with
        | inl e => Throw e
        | inr low =>
            match resolved_bound (Raw.ints_high r) h0 with
            | inl e => Throw e
            | inr high =>
                if (0 <=? low) && (low <? high) && (high <=? 255)
                then Ok (tt, on_self
                               (set_output_format (Some (FormatInts low high)))
                               s)
                else Exit ints_range_message
            end
        end
    | _ =>
        if negb (str_empty (Raw.ints_low r)) then Exit low_option_message
        else if negb (str_empty (Raw.ints_high r))
             then Exit high_option_message
             else Ok (tt, s)
    end.
Proof.
  unfold validate_ints_specific, resolved_bound. run_step.
  destruct (output_format (self s)) as [[] |]; simpl;
    try (destruct (str_empty (Raw.ints_low (raw (self s))));
         destruct (str_empty (Raw.ints_high (raw (self s))));
         reflexivity).
  destruct (str_empty (Raw.ints_low (raw (self s)))); simpl;
    [| destruct (stoi (Raw.ints_low (raw (self s)))); simpl;
       [reflexivity |] ];
    (destruct (str_empty (Raw.ints_high (raw (self s)))); simpl;
     [| destruct (stoi (Raw.ints_high (raw (self s)))); simpl;
        [reflexivity |] ]);
    match goal with
    | |- context [negb ?c] => destruct c; reflexivity
    end.
Qed.



(* ================================================================== *)
(** ** Resource-encoded output *)

Lemma validate_ur_cases (s : State) :
  validate_ur s
  = let p := self s in
    if Raw.is_ur (raw p) then
      if is_ur_in p then Exit ur_combined_message
      else
        match resolved_max_part_length (Raw.max_part_length (raw p)) with
        | inl e => Throw e
        | inr n =>
            if ur_capable (output_format p)
            then Ok (tt, on_self (fun p => set_max_part_length n
                                             (set_is_ur_out true p)) s)
            else Exit ur_output_message
        end
    else Ok (tt, s).
Proof.
  unfold validate_ur, resolved_max_part_length, ur_capable. run_step.
  destruct (Raw.is_ur (raw (self s))); [| reflexivity].
  destruct (is_ur_in (self s)); simpl; [reflexivity |].
  destruct (str_empty (Raw.max_part_length (raw (self s)))); simpl.
  - destruct (is_hex (output_format (self s))); [reflexivity |].
    destruct (is_bip39 (output_format (self s))); [reflexivity |].
    destruct (is_slip39 (output_format (self s))); reflexivity.
  - destruct (stoi (Raw.max_part_length (raw (self s)))); simpl;
      [reflexivity |].
    destruct (is_hex (output_format (self s))); [reflexivity |].
    destruct (is_bip39 (output_format (self s))); [reflexivity |].
    destruct (is_slip39 (output_format (self s))); reflexivity.
Qed.

(** C8. With the resource-encoding flag set, [validate_ur] ends the run
    when the input method is --in ur.  Otherwise the maximum part length
    is resolved first: 2500 when no value was given, what [stoi] reads
    from the raw value when one was; when [stoi] throws, the step
    throws, whatever the output format, and [parse_opt] ends the run
    with the text of the exception.  Once the length is resolved, the
    flag is accepted for hex, BIP39 and SLIP39 output, and only for
    them: every other output format ends the run with the diagnostic of
    the option.  Without the flag the step does nothing. *)
Theorem validate_ur_rules (s : State) :
  let p := self s in
  (Raw.is_ur (raw p) = false -> validate_ur s = Ok (tt, s))
  /\ (Raw.is_ur (raw p) = true -> is_ur_in p = true ->
      validate_ur s = Exit ur_combined_message)
  /\ (forall n,
        Raw.is_ur (raw p) = true -> is_ur_in p = false ->
        resolved_max_part_length (Raw.max_part_length (raw p)) = inr n ->
        (ur_capable (output_format p) = true ->
         exists s',
           validate_ur s = Ok (tt, s')
           /\ max_part_length (self s') = n
           /\ is_ur_out (self s') = true
           /\ s' = on_self (fun p => set_max_part_length n
                                       (set_is_ur_out true p)) s)
        /\ (ur_capable (output_format p) = false ->
            validate_ur s = Exit ur_output_message))
  /\ (forall e,
        Raw.is_ur (raw p) = true -> is_ur_in p = false ->
        resolved_max_part_length (Raw.max_part_length (raw p)) = inl e ->
        validate_ur s = Throw e)
  /\ (forall s',
        validate_ur s = Ok (tt, s') ->
        Raw.is_ur (raw p) = true ->
        is_ur_in p = false
        /\ ur_capable (output_format p) = true
        /\ exists n,
             resolved_max_part_length (Raw.max_part_length (raw p)) = inr n
             /\ s' = on_self (fun p => set_max_part_length n
                                         (set_is_ur_out true p)) s)
  /\ (validate_ur s = Exit ur_output_message
      <-> Raw.is_ur (raw p) = true
          /\ is_ur_in p = false
          /\ (exists n,
                resolved_max_part_length (Raw.max_part_length (raw p))
                = inr n)
          /\ ur_capable (output_format p) = false)
  /\ resolved_max_part_length "" = inr 2500
  /\ (forall r, r <> "" -> resolved_max_part_length r = stoi r)
  /\ (forall o,
        ur_capable (Some o) = true
        <-> o = FormatHex \/ o = FormatBIP39 \/ is_slip39 (Some o) = true)
  /\ (exists s',
        validate_ur (ur_state FormatHex false "") = Ok (tt, s')
        /\ max_part_length (self s') = 2500 /\ is_ur_out (self s') = true)
  /\ (exists s',
        validate_ur (ur_state (FormatSLIP39 1 []) false "300") = Ok (tt, s')
        /\ max_part_length (self s') = 300 /\ is_ur_out (self s') = true)
  /\ validate_ur (ur_state FormatBits false "100") = Exit ur_output_message
  /\ validate_ur (ur_state FormatHex true "") = Exit ur_combined_message
  /\ validate_ur (ur_state FormatBits false "abc")
     = Throw (invalid_argument "stoi")
  /\ validate_ur (ur_state FormatHex false "abc")
     = Throw (invalid_argument "stoi")
  /\ validate_ur (ur_state FormatBits true "abc") = Exit ur_combined_message
  /\ parse_opt_end sample (start (with_ur "abc" "bits") []) = Exit "stoi"
  /\ parse_opt_end sample (start (with_ur "100" "bits") [])
     = Exit ur_output_message.
Proof.
  intros p. pose proof (validate_ur_cases s) as V. cbv zeta in V. fold p in V.
  split; [| split; [| split; [| split; [| split; [| split; [| split;
    [| split; [| split ] ] ] ] ] ] ] ].
  - intros H. rewrite H in V. exact V.
  - intros H1 H2. rewrite H1, H2 in V. exact V.
  - intros n H1 H2 H3. rewrite H1, H2, H3 in V. split; intros H4;
      rewrite H4 in V.
    + eexists. split; [exact V |]. repeat split.
    + exact V.
  - intros e H1 H2 H3. rewrite H1, H2, H3 in V. exact V.
  - intros s' H H1. rewrite H1 in V. rewrite V in H.
    destruct (is_ur_in p); [discriminate |].
    destruct (resolved_max_part_length (Raw.max_part_length (raw p)))
      as [e | n]; [discriminate |].
    destruct (ur_capable (output_format p)); [| discriminate].
    injection H as <-. repeat split. exists n. split; reflexivity.
  - rewrite V. split.
    + destruct (Raw.is_ur (raw p)); [| discriminate].
      destruct (is_ur_in p); [discriminate |].
      destruct (resolved_max_part_length (Raw.max_part_length (raw p)))
        as [e | n]; [discriminate |].
      destruct (ur_capable (output_format p)); [discriminate |].
      intros _. repeat split. exists n. reflexivity.
    + intros (-> & -> & [n ->] & ->). reflexivity.
  - reflexivity.
  - intros r Hr. unfold resolved_max_part_length.
    rewrite (str_empty_false _ Hr). reflexivity.
  - intros o. unfold ur_capable. destruct o; simpl; split; intros H;
      try discriminate; auto;
      repeat (destruct H as [H | H]; try discriminate).
  - split; [| split; [| split; [| split; [| split; [| split;
      [| split; [| split ] ] ] ] ] ] ];
      try (vm_compute; reflexivity);
      eexists; (split; [reflexivity | split; reflexivity]).
Qed.

Lemma validate_ur_rules_witness :
  validate_ur (ur_state FormatBIP39 true "") = Exit ur_combined_message
  /\ validate_ur (ur_state FormatCards false "x")
     = Throw (invalid_argument "stoi").
Proof.
  split.
  - apply (proj1 (proj2 (validate_ur_rules (ur_state FormatBIP39 true "")))
             eq_refl eq_refl).
  - apply (proj1 (proj2 (proj2 (proj2
             (validate_ur_rules (ur_state FormatCards false "x")))))
             (invalid_argument "stoi") eq_refl eq_refl eq_refl).
Defined.

(** The flag is set, the output format is bits, and the run does not
    end with the diagnostic of the --ur option: the value "abc" of the
    option is read first, [stoi] throws, and [parse_opt] reports the
    text of the exception. *)
Lemma validate_ur_unreadable_length_counterexample :
  let s := ur_state FormatBits false "abc" in
  let s0 := start (with_ur "abc" "bits") [] in
  Raw.is_ur (raw (self s)) = true
  /\ ur_capable (output_format (self s)) = false
  /\ validate_ur s = Throw (invalid_argument "stoi")
  /\ validate_ur s <> Exit ur_output_message
  /\ Raw.is_ur (raw (self s0)) = true
  /\ Raw.output_format (raw (self s0)) = "bits"
  /\ parse_opt_end sample s0 = Exit "stoi"
  /\ parse_opt_end sample s0 <> Exit ur_output_message.
Proof.
  intros s s0.
  assert (P : parse_opt_end sample s0 = Exit "stoi")
    by (vm_compute; reflexivity).
  repeat split; try reflexivity; try discriminate; exact P.
Qed.

(* ================================================================== *)
(** ** SLIP39 groups *)

Lemma stoi_range (c : string) (n : Z) :
  stoi c = inr n -> INT_MIN <= n <= INT_MAX.
Proof.
  unfold stoi. destruct (scan_integer c) as [| | v rest]; try discriminate.
  destruct (Z.ltb_spec v INT_MIN), (Z.ltb_spec INT_MAX v); simpl;
    try discriminate.
  intros [= <-]. lia.
Qed.

Lemma resolved_groups_threshold_range (r : string) (n : Z) :
  resolved_groups_threshold r = inr n -> INT_MIN <= n <= INT_MAX.
Proof.
  unfold resolved_groups_threshold. destruct (str_empty r).
  - intros [= <-]. unfold INT_MIN, INT_MAX. lia.
  - apply stoi_range.
Qed.

(** [parse_group_spec] neither throws nor touches the object. *)
Lemma parse_group_spec_pure (X : Extern) (str : string) (s : State) :
  (exists g, parse_group_spec X str s = Ok (g, s))
  \/ (exists msg, parse_group_spec X str s = Exit msg).
Proof.
  unfold parse_group_spec.
  destruct (sscanf_zd_of_zd str (indeterminate X)) as [[items t] n].
  run_step.
  destruct (negb (items =? 2)); [right; eexists; reflexivity |].
  destruct (negb ((0 <? t) && (t <=? n) && (n <=? 16)));
    [right; eexists; reflexivity |].
  destruct ((n >? 1) && (t =? 1)); [right | left]; eexists; reflexivity.
Qed.

Lemma parse_groups_pure (X : Extern) (specs : list string) :
  forall (acc : list group_descriptor) (s : State),
    (exists gs, parse_groups X specs acc s = Ok (gs, s)
                /\ List.length gs = (List.length acc + List.length specs)%nat)
    \/ (exists msg, parse_groups X specs acc s = Exit msg).
Proof.
  induction specs as [| g rest IH]; intros acc s; simpl.
  - left. exists acc. split; [reflexivity | lia].
  - unfold bind.
    destruct (parse_group_spec_pure X g s) as [[d ->] | [msg ->]].
    + destruct (IH (acc ++ [d])%list s) as [(gs & -> & L) | [msg ->]].
      * left. exists gs. split; [reflexivity |].
        rewrite L, length_app. simpl. lia.
      * right. eexists. reflexivity.
    + right. eexists. reflexivity.
Qed.

Lemma validate_slip39_specific_cases (X : Extern) (s : State) :
  validate_slip39_specific X s
  = let p := self s in
    let r := raw p in
    if is_slip39 (output_format p) then
      if negb (slip39_is_seed_length_valid X (count p))
      then Exit slip39_count_message
      else if size (Raw.slip39_groups r) >? Z.of_nat (MAX_GROUPS X)
      then Exit (max_groups_message X)
      else
        match build_groups X (Raw.slip39_groups r) s with
        | Ok (groups, s1) =>
            match resolved_groups_threshold (Raw.slip39_groups_threshold r)
            with
            | inl e => Throw e
            | inr gt =>
                if (0 <? gt) && (int_to_size_t gt <=? size groups)
                then Ok (tt, on_self
                               (set_output_format
                                  (Some (FormatSLIP39 gt groups))) s1)
                else Exit group_threshold_message
            end
        | Exit msg => Exit msg
        | Throw e => Throw e
        end
    else
      if size (Raw.slip39_groups r) >? 0 then Exit group_option_message
      else if negb (str_empty (Raw.slip39_groups_threshold r))
           then Exit group_threshold_option_message
           else Ok (tt, s).
Proof.
  unfold validate_slip39_specific, build_groups, resolved_groups_threshold.
  cbv zeta.
  unfold bind at 1. unfold this at 1. cbv beta iota.
  destruct (output_format (self s)) as [[] |] eqn:Ho; simpl is_slip39;
    cbv iota;
    try (run_step;
         destruct (size (Raw.slip39_groups (raw (self s))) >? 0);
         [reflexivity |];
         destruct (str_empty (Raw.slip39_groups_threshold (raw (self s))));
         reflexivity).
  unfold bind at 1. unfold when at 1.
  destruct (negb (slip39_is_seed_length_valid X (count (self s))));
    [reflexivity |].
  unfold ret at 1. cbv beta iota.
  unfold bind at 1.
  destruct (size (Raw.slip39_groups (raw (self s))) >? Z.of_nat (MAX_GROUPS X));
    [reflexivity |].
  destruct (size (Raw.slip39_groups (raw (self s))) =? 0).
  - unfold ret at 1. cbv beta iota. unfold ret at 2. cbv beta iota.
    run_step.
    destruct (str_empty (Raw.slip39_groups_threshold (raw (self s)))); simpl.
    + reflexivity.
    + destruct (stoi (Raw.slip39_groups_threshold (raw (self s)))); simpl;
        [reflexivity |].
      match goal with |- context [negb ?c] => destruct c; reflexivity end.
  - destruct (parse_groups X (Raw.slip39_groups (raw (self s))) [] s)
      as [[gs s1] | msg | e]; try reflexivity.
    run_step.
    destruct (str_empty (Raw.slip39_groups_threshold (raw (self s)))); simpl.
    + match goal with |- context [negb ?c] => destruct c; reflexivity end.
    + destruct (stoi (Raw.slip39_groups_threshold (raw (self s)))); simpl;
        [reflexivity |].
      match goal with |- context [negb ?c] => destruct c; reflexivity end.
Qed.

Lemma build_groups_pure (X : Extern) (specs : list string) (s : State) :
  (exists gs, build_groups X specs s = Ok (gs, s)
              /\ (specs = [] -> gs = [mk_group 1 1 None])
              /\ (specs <> [] -> List.length gs = List.length specs))
  \/ (exists msg, build_groups X specs s = Exit msg).
Proof.
  unfold build_groups, size. destruct specs as [| g rest].
  - left. eexists. split; [reflexivity |]. split; congruence.
  - replace (Z.of_nat (List.length (g :: rest)) =? 0) with false
      by (symmetry; apply Z.eqb_neq; simpl List.length; lia).
    destruct (parse_groups_pure X (g :: rest) [] s)
      as [(gs & E & L) | [msg E]].
    + left. exists gs. split; [exact E |]. split; [congruence |].
      intros _. exact L.
    + right. exists msg. exact E.
Qed.

Lemma int_to_size_t_positive (n : Z) :
  0 < n <= INT_MAX -> int_to_size_t n = n.
Proof.
  intros H. unfold int_to_size_t, INT_MAX in *. apply Z.mod_small. lia.
Qed.



(* ================================================================== *)
(** ** Input acquisition and resource decoding *)

Lemma decodings_app (l1 l2 : list event) :
  decodings (l1 ++ l2) = (decodings l1 + decodings l2)%nat.
Proof.
  induction l1 as [| [] l1 IH]; simpl; rewrite ?IH; reflexivity.
Qed.

Lemma getline_loop_all (lines args : list string) :
  getline_loop lines args = (args ++ lines)%list.
Proof.
  revert args. induction lines as [| l lines IH]; intros args; simpl.
  - rewrite app_nil_r. reflexivity.
  - rewrite IH, <- app_assoc. reflexivity.
Qed.

Lemma validate_input_cases (X : Extern) (s : State) :
  validate_input X s
  = let p := self s in
    if is_random (input_format p) then
      if negb (vec_empty (Raw.args (raw p))) then Exit random_args_message
      else Ok (tt, s)
    else
      let s1 := acquired s in
      if vec_empty (input (self s1)) then Exit no_input_message
      else if is_ur_in p then
        match ur_decode X (input (self s1)) with
        | inl e => Throw e
        | inr tag =>
            match format_for_tag X tag with
            | Some f => Ok (tt, decoded tag f s1)
            | None => Exit unknown_ur_message
            end
        end
      else Ok (tt, s1).
Proof.
  unfold validate_input, acquired, format_for_tag, decoded, UR_new.
  cbv zeta. unfold bind at 1, this at 1. cbv beta iota.
  destruct (is_random (input_format (self s))).
  - unfold when. destruct (negb (vec_empty (Raw.args (raw (self s)))));
      reflexivity.
  - destruct (vec_empty (Raw.args (raw (self s)))) eqn:Ea.
    + run_step. unfold stdin_read. simpl.
      destruct (vec_empty (getline_loop (cin s) (Raw.args (raw (self s)))));
        [reflexivity |].
      destruct (is_ur_in (self s)); [| reflexivity]. simpl.
      destruct (ur_decode X _) as [e | tag]; [reflexivity |]. simpl.
      destruct (tag =? "crypto-seed")%string; [reflexivity |].
      destruct (tag =? "crypto-bip39")%string; [reflexivity |].
      destruct (tag =? "crypto-slip39")%string; reflexivity.
    + run_step. rewrite Ea.
      destruct (is_ur_in (self s)); [| reflexivity]. simpl.
      destruct (ur_decode X _) as [e | tag]; [reflexivity |]. simpl.
      destruct (tag =? "crypto-seed")%string; [reflexivity |].
      destruct (tag =? "crypto-bip39")%string; [reflexivity |].
      destruct (tag =? "crypto-slip39")%string; reflexivity.
Qed.

Lemma vec_empty_true {A} (v : list A) : v = [] -> vec_empty v = true.
Proof. intros ->. reflexivity. Qed.

Lemma vec_empty_false {A} (v : list A) : v <> [] -> vec_empty v = false.
Proof. destruct v; [congruence | reflexivity]. Qed.

Lemma format_for_tag_other (X : Extern) (tag : string) :
  tag <> "crypto-seed" -> tag <> "crypto-bip39" -> tag <> "crypto-slip39" ->
  format_for_tag X tag = None.
Proof.
  intros H1 H2 H3. unfold format_for_tag.
  apply String.eqb_neq in H1, H2, H3. rewrite H1, H2, H3. reflexivity.
Qed.

(** C6. [validate_input] with the random input format ends the run when
    a positional argument was given.  With any other input format the
    input is the positional arguments, or, when there are none, all the
    lines of standard input, which is then at its end; an input that is
    still empty ends the run with "No input provided.".  When the
    deferred resource flag is set the acquired input is decoded once,
    after the acquisition, and the type tag selects the input format:
    crypto-seed is hex, crypto-bip39 is BIP39, crypto-slip39 is SLIP39,
    and any other tag ends the run with "Unknown UR type.". *)
Theorem validate_input_acquisition (X : Extern) (s : State) :
  let p := self s in
  let args := Raw.args (raw p) in
  (is_random (input_format p) = true ->
   (args <> [] -> validate_input X s = Exit random_args_message)
   /\ (args = [] -> validate_input X s = Ok (tt, s)))
  /\ (is_random (input_format p) = false ->
      let s1 := acquired s in
      (args <> [] ->
       input (self s1) = args /\ cin s1 = cin s /\ events s1 = events s)
      /\ (args = [] ->
          input (self s1) = cin s /\ cin s1 = []
          /\ events s1 = (events s ++ [ReadStdin (cin s)])%list)
      /\ (input (self s1) = [] -> validate_input X s = Exit no_input_message)
      /\ (input (self s1) <> [] -> is_ur_in p = false ->
          validate_input X s = Ok (tt, s1))
      /\ (input (self s1) <> [] -> is_ur_in p = true ->
          (forall e, ur_decode X (input (self s1)) = inl e ->
                     validate_input X s = Throw e)
          /\ (forall tag,
                ur_decode X (input (self s1)) = inr tag ->
                (forall f,
                   format_for_tag X tag = Some f ->
                   exists s2,
                     validate_input X s = Ok (tt, s2)
                     /\ input_format (self s2) = Some f
                     /\ ur (self s2) = Some (mk_UR tag)
                     /\ input (self s2) = input (self s1)
                     /\ events s2
                        = (events s1 ++ [DecodeUR (input (self s1))])%list
                     /\ decodings (events s2) = S (decodings (events s)))
                /\ (format_for_tag X tag = None ->
                    validate_input X s = Exit unknown_ur_message))))
  /\ (forall s',
        validate_input X s = Ok (tt, s') ->
        decodings (events s')
        = (decodings (events s)
           + (if is_ur_in p && negb (is_random (input_format p))
              then 1 else 0))%nat)
  /\ format_for_tag X "crypto-seed" = Some FormatHex
  /\ format_for_tag X "crypto-bip39" = Some FormatBIP39
  /\ is_slip39 (format_for_tag X "crypto-slip39") = true
  /\ (forall tag,
        tag <> "crypto-seed" -> tag <> "crypto-bip39" ->
        tag <> "crypto-slip39" -> format_for_tag X tag = None).
Proof.
  intros p args. pose proof (validate_input_cases X s) as V.
  cbv zeta in V. fold p in V. fold args in V.
  assert (Acq1 : args <> [] ->
                 input (self (acquired s)) = args
                 /\ cin (acquired s) = cin s
                 /\ events (acquired s) = events s).
  { intros Ha. unfold acquired. fold p. fold args.
    rewrite (vec_empty_false _ Ha). repeat split. }
  assert (Acq2 : args = [] ->
                 input (self (acquired s)) = cin s
                 /\ cin (acquired s) = []
                 /\ events (acquired s)
                    = (events s ++ [ReadStdin (cin s)])%list).
  { intros Ha. unfold acquired. fold p. fold args.
    rewrite (vec_empty_true _ Ha). unfold on_self, stdin_read. simpl.
    fold p. fold args. rewrite Ha, getline_loop_all. repeat split. }
  assert (Dec : decodings (events (acquired s)) = decodings (events s)).
  { destruct (Raw.args (raw (self s))) eqn:Ea.
    - destruct (Acq2 Ea) as (_ & _ & ->).
      rewrite decodings_app. simpl. apply Nat.add_0_r.
    - destruct Acq1 as (_ & _ & ->); [| reflexivity].
      unfold args, p. rewrite Ea. discriminate. }
  split; [| split; [| split ] ].
  - intros Hr. rewrite Hr in V. rewrite V. split; intros Ha.
    + rewrite (vec_empty_false _ Ha). reflexivity.
    + rewrite (vec_empty_true _ Ha). reflexivity.
  - intros Hr s1. rewrite Hr in V. fold s1 in V.
    split; [exact Acq1 |]. split; [exact Acq2 |].
    split; [| split ].
    + intros Hi. rewrite Hi in V. exact V.
    + intros Hi Hu. rewrite (vec_empty_false _ Hi), Hu in V. exact V.
    + intros Hi Hu. rewrite (vec_empty_false _ Hi), Hu in V. split.
      * intros e He. rewrite He in V. exact V.
      * intros tag Ht. rewrite Ht in V. split.
        -- intros f Hf. rewrite Hf in V. exists (decoded tag f s1).
           split; [exact V |]. repeat split.
           unfold decoded. cbn [events]. rewrite decodings_app.
           unfold s1. rewrite Dec. simpl. lia.
        -- intros Hf. rewrite Hf in V. exact V.
  - intros s' Hs'. rewrite V in Hs'. clear V.
    destruct (is_random (input_format p)).
    + rewrite andb_false_r.
      destruct (negb (vec_empty args)); [discriminate |].
      injection Hs' as <-. lia.
    + rewrite andb_true_r.
      destruct (vec_empty (input (self (acquired s)))); [discriminate |].
      destruct (is_ur_in p).
      * destruct (ur_decode X _) as [e | tag]; [discriminate |].
        destruct (format_for_tag X tag) as [f |]; [| discriminate].
        injection Hs' as <-. unfold decoded. cbn [events].
        rewrite decodings_app, Dec. simpl. lia.
      * injection Hs' as <-. rewrite Dec. lia.
  - repeat split. apply format_for_tag_other.
Qed.

Lemma validate_input_acquisition_witness :
  let s := input_state None true [] ["ur:crypto-bip39/x"] in
  exists s2,
    validate_input sample s = Ok (tt, s2)
    /\ input_format (self s2) = Some FormatBIP39
    /\ events s2 = [ReadStdin ["ur:crypto-bip39/x"];
                    DecodeUR ["ur:crypto-bip39/x"]]
    /\ cin s2 = [].
Proof.
  intros s.
  pose proof (validate_input_acquisition sample s) as T.
  destruct T as (_ & T & _). specialize (T eq_refl). cbv zeta in T.
  destruct T as (_ & _ & _ & _ & T).
  assert (Hi : input (self (acquired s)) <> []) by discriminate.
  destruct (T Hi eq_refl) as (_ & T2).
  destruct (T2 "crypto-bip39" eq_refl) as (T3 & _).
  destruct (T3 FormatBIP39 eq_refl) as (s2 & E & F & U & I & Ev & D).
  exists s2. split; [exact E |]. split; [exact F |].
  split; [exact Ev |].
  injection E as <-. reflexivity.
Defined.

(* ================================================================== *)
(** ** The pipeline *)

Lemma bind_unit_ret (m : M unit) (s : State) :
  (m ;; ret tt) s = m s.
Proof.
  unfold bind, ret. destruct (m s) as [[[] s'] | msg | e]; reflexivity.
Qed.

Lemma validate_is_sequence (X : Extern) (s : State) :
  validate X s = sequence (steps X) s.
Proof.
  unfold validate, steps, sequence, bind, ret.
  repeat match goal with
         | |- context [match ?f ?x with _ => _ end] =>
             is_var x; destruct (f x) as [[[] ?] | ? | ?]; try reflexivity
         end.
Qed.

Lemma sequence_threads (l : list (M unit)) :
  forall s s', sequence l s = Ok (tt, s') <-> threads l s s'.
Proof.
  induction l as [| m l IH]; intros s s'; simpl.
  - unfold ret. split; [intros [= ->]; reflexivity | intros ->; reflexivity].
  - unfold bind. split.
    + destruct (m s) as [[[] s1] | msg | e]; try discriminate.
      intros H. exists s1. split; [reflexivity | apply IH; exact H].
    + intros (s1 & -> & H). apply IH. exact H.
Qed.

(** A list of steps ends where its first failing step ends: the steps
    before it all returned, the steps after it are not run. *)
Lemma sequence_first_failure (pre post : list (M unit)) (m : M unit) :
  forall s s1,
    threads pre s s1 ->
    (forall msg, m s1 = Exit msg -> sequence (pre ++ m :: post) s = Exit msg)
    /\ (forall e, m s1 = Throw e -> sequence (pre ++ m :: post) s = Throw e).
Proof.
  induction pre as [| m0 pre IH]; intros s s1 T; simpl in *.
  - subst s1. unfold bind. split; intros ? ->; reflexivity.
  - destruct T as (s0 & E & T). unfold bind. rewrite E.
    apply (IH _ _ T).
Qed.

(** Conversely, a failure of the list is the failure of one of its
    steps, reached after all the steps before it returned. *)
Lemma sequence_failure_origin (l : list (M unit)) :
  forall s,
    match sequence l s with
    | Ok (_, s') => threads l s s'
    | Exit msg =>
        exists pre m post s1,
          l = (pre ++ m :: post)%list /\ threads pre s s1 /\ m s1 = Exit msg
    | Throw e =>
        exists pre m post s1,
          l = (pre ++ m :: post)%list /\ threads pre s s1 /\ m s1 = Throw e
    end.
Proof.
  induction l as [| m l IH]; intros s; simpl.
  - reflexivity.
  - unfold bind. destruct (m s) as [[[] s0] | msg | e] eqn:E.
    + specialize (IH s0).
      destruct (sequence l s0) as [[[] s'] | msg | e].
      * exists s0. split; [reflexivity | exact IH].
      * destruct IH as (pre & m1 & post & s1 & -> & T & F).
        exists (m :: pre), m1, post, s1. split; [reflexivity |].
        split; [| exact F]. exists s0. split; [exact E | exact T].
      * destruct IH as (pre & m1 & post & s1 & -> & T & F).
        exists (m :: pre), m1, post, s1. split; [reflexivity |].
        split; [| exact F]. exists s0. split; [exact E | exact T].
    + exists [], m, l, s. repeat split. exact E.
    + exists [], m, l, s. repeat split. exact E.
Qed.

Lemma parse_opt_end_outcome (X : Extern) (s : State) :
  parse_opt_end X s
  = match sequence (steps X) s with
    | Throw e => Exit (what e)
    | r => r
    end.
Proof.
  unfold parse_opt_end. rewrite validate_is_sequence.
  destruct (sequence (steps X) s); reflexivity.
Qed.

(** C2. [validate] is its eleven steps in the order count, random
    source, input format, input acquisition and resource decoding,
    count against input format, output format, compatibility, integer
    range, BIP39 seed length, SLIP39 groups, resource encoding.  The run
    ends at the first step that fails, with the diagnostic of that step,
    whatever the later steps would have said; it yields a configuration
    only when every step returned, and otherwise only a diagnostic. *)
Theorem validate_fail_fast (X : Extern) :
  (forall s, validate X s = sequence (steps X) s)
  /\ steps X
     = [ validate_count; validate_deterministic; validate_input_format X;
         validate_input X; validate_count_for_input_format;
         validate_output_format X; validate_output_for_input;
         validate_ints_specific; validate_bip39_specific X;
         validate_slip39_specific X; validate_ur ]
  /\ (forall pre m post s s1,
        steps X = (pre ++ m :: post)%list ->
        threads pre s s1 ->
        (forall msg, m s1 = Exit msg ->
                     validate X s = Exit msg /\ parse_opt_end X s = Exit msg)
        /\ (forall e, m s1 = Throw e ->
                      validate X s = Throw e
                      /\ parse_opt_end X s = Exit (what e)))
  /\ (forall s,
        (exists s', parse_opt_end X s = Ok (tt, s')
                    /\ threads (steps X) s s')
        \/ (exists msg pre m post s1,
              parse_opt_end X s = Exit msg
              /\ steps X = (pre ++ m :: post)%list
              /\ threads pre s s1
              /\ (m s1 = Exit msg
                  \/ exists e, m s1 = Throw e /\ msg = what e)))
  /\ parse_opt_end X (start all_wrong []) = Exit count_range_message
  /\ parse_opt_end X (start (set_raw_count "abc" all_wrong) [])
     = Exit "stoi"
  /\ parse_opt_end X (start (set_raw_count "12" all_wrong) [])
     = Exit "Unknown input format: bogus"
  /\ parse_opt_end X
       (start (set_raw_input_format "hex" (set_raw_count "12" all_wrong)) [])
     = Exit "The --count option is not available for hex input."
  /\ parse_opt_end X
       (start (set_raw_input_format "hex" (set_raw_count "" all_wrong)) [])
     = Exit "Unknown output format: nope"
  /\ parse_opt_end X
       (start (set_raw_output_format "dice"
                 (set_raw_input_format "bits" (set_raw_count "12" all_wrong)))
          [])
     = Exit "Input format bits cannot be used with output format dice"
  /\ parse_opt_end X
       (start (set_raw_output_format "bip39"
                 (set_raw_input_format "hex" (set_raw_count "" all_wrong)))
          [])
     = Exit low_option_message.
Proof.
  split; [apply validate_is_sequence |].
  split; [reflexivity |].
  split; [| split; [| repeat split; reflexivity ] ].
  - intros pre m post s s1 Hs T.
    destruct (sequence_first_failure pre post m s s1 T) as [F1 F2].
    split.
    + intros msg Hm. specialize (F1 msg Hm).
      rewrite parse_opt_end_outcome, validate_is_sequence, Hs, F1.
      split; reflexivity.
    + intros e Hm. specialize (F2 e Hm).
      rewrite parse_opt_end_outcome, validate_is_sequence, Hs, F2.
      split; reflexivity.
  - intros s. rewrite parse_opt_end_outcome.
    pose proof (sequence_failure_origin (steps X) s) as O.
    destruct (sequence (steps X) s) as [[[] s'] | msg | e].
    + left. exists s'. split; [reflexivity | exact O].
    + right. destruct O as (pre & m & post & s1 & Hs & T & F).
      exists msg, pre, m, post, s1. repeat split; auto.
    + right. destruct O as (pre & m & post & s1 & Hs & T & F).
      exists (what e), pre, m, post, s1. repeat split; auto.
      right. exists e. split; [exact F | reflexivity].
Qed.

Lemma validate_fail_fast_witness :
  parse_opt_end sample
    (start (set_raw_input_format "hex" (set_raw_count "12" all_wrong)) [])
  = Exit "The --count option is not available for hex input.".
Proof.
  pose proof (proj1 (proj2 (proj2 (validate_fail_fast sample)))) as F.
  specialize (F [validate_count; validate_deterministic;
                 validate_input_format sample; validate_input sample]
                validate_count_for_input_format
                [validate_output_format sample; validate_output_for_input;
                 validate_ints_specific; validate_bip39_specific sample;
                 validate_slip39_specific sample; validate_ur]
                (start (set_raw_input_format "hex"
                          (set_raw_count "12" all_wrong)) [])).
  simpl threads in F.
  edestruct F as [F1 _].
  - reflexivity.
  - repeat (eexists; split; [reflexivity |]). reflexivity.
  - apply (proj2 (F1 _ eq_refl)).
Defined.

(* ================================================================== *)
(** ** The count option against the input format *)

Lemma validate_count_keeps_raw_count : keeps_raw_count validate_count.
Proof.
  intros s s'. rewrite validate_count_cases.
  destruct (resolved_count _) as [e | n]; [discriminate |].
  destruct ((n <? 1) || (n >? 64)); [discriminate |].
  intros [= <-]. reflexivity.
Qed.

Lemma validate_deterministic_keeps_raw_count :
  keeps_raw_count validate_deterministic.
Proof.
  intros s s'. unfold validate_deterministic. run_step.
  destruct (negb (str_empty (Raw.random_deterministic (raw (self s)))));
    intros [= <-]; reflexivity.
Qed.

Lemma validate_input_format_keeps_raw_count (X : Extern) :
  keeps_raw_count (validate_input_format X).
Proof.
  intros s s'. unfold validate_input_format. run_step.
  destruct (str_empty (Raw.input_format (raw (self s))));
    [intros [= <-]; reflexivity |].
  destruct (Raw.input_format (raw (self s)) =? "ur")%string;
    [intros [= <-]; reflexivity |].
  destruct (key_for_string (Raw.input_format (raw (self s))));
    try discriminate; intros [= <-]; reflexivity.
Qed.

Lemma validate_input_keeps_raw_count (X : Extern) :
  keeps_raw_count (validate_input X).
Proof.
  intros s s'. rewrite validate_input_cases. cbv zeta.
  assert (A : Raw.count (raw (self (acquired s)))
              = Raw.count (raw (self s))).
  { unfold acquired. destruct (vec_empty (Raw.args (raw (self s))));
      reflexivity. }
  destruct (is_random (input_format (self s))).
  - destruct (negb (vec_empty (Raw.args (raw (self s)))));
      [discriminate | intros [= <-]; reflexivity].
  - destruct (vec_empty (input (self (acquired s)))); [discriminate |].
    destruct (is_ur_in (self s)).
    + destruct (ur_decode X _) as [e | tag]; [discriminate |].
      destruct (format_for_tag X tag); [| discriminate].
      intros [= <-]. exact A.
    + intros [= <-]. exact A.
Qed.

Lemma input_steps_keep_raw_count (X : Extern) (s s4 : State) :
  threads (input_steps X) s s4 ->
  Raw.count (raw (self s4)) = Raw.count (raw (self s)).
Proof.
  simpl. intros (s1 & E1 & s2 & E2 & s3 & E3 & s4' & E4 & <-).
  rewrite (validate_input_keeps_raw_count X _ _ E4),
    (validate_input_format_keeps_raw_count X _ _ E3),
    (validate_deterministic_keeps_raw_count _ _ E2),
    (validate_count_keeps_raw_count _ _ E1).
  reflexivity.
Qed.

(** C10. [validate_count_for_input_format] looks at whether a raw count
    string is there, not at its value, and at the input format as the
    steps before it left it: whenever those steps return with a hex or
    BC32 input format and a count was given, the run ends with the
    count diagnostic of that format.  This holds for a count of 16, the
    default, and for --in ur input whose crypto-seed tag selected the
    hex format. *)
Theorem count_rejected_for_resolved_input (X : Extern) :
  (forall s,
     Raw.count (raw (self s)) <> "" ->
     (is_hex (input_format (self s)) = true ->
      validate_count_for_input_format s = Exit hex_count_message)
     /\ (is_bc32 (input_format (self s)) = true ->
         validate_count_for_input_format s = Exit bc32_count_message))
  /\ (forall s,
        Raw.count (raw (self s)) = ""
        \/ (is_hex (input_format (self s)) = false
            /\ is_bc32 (input_format (self s)) = false) ->
        validate_count_for_input_format s = Ok (tt, s))
  /\ (forall s s4,
        Raw.count (raw (self s)) <> "" ->
        threads (input_steps X) s s4 ->
        (is_hex (input_format (self s4)) = true ->
         parse_opt_end X s = Exit hex_count_message)
        /\ (is_bc32 (input_format (self s4)) = true ->
            parse_opt_end X s = Exit bc32_count_message))
  /\ parse_opt_end X (count_state "hex" "16" ["deadbeef"])
     = Exit hex_count_message
  /\ parse_opt_end X (count_state "bc32" "16" ["tcsrspkh"])
     = Exit bc32_count_message
  /\ parse_opt_end sample (count_state "ur" "16" ["ur:crypto-seed/x"])
     = Exit hex_count_message
  /\ (exists s4,
        threads (input_steps sample)
          (count_state "ur" "16" ["ur:crypto-seed/x"]) s4
        /\ is_ur_in (self s4) = true
        /\ input_format (self s4) = Some FormatHex
        /\ count (self s4) = 16)
  /\ (exists s', parse_opt_end X (count_state "hex" "" ["deadbeef"])
                 = Ok (tt, s')).
Proof.
  assert (Step : forall s,
             Raw.count (raw (self s)) <> "" ->
             (is_hex (input_format (self s)) = true ->
              validate_count_for_input_format s = Exit hex_count_message)
             /\ (is_bc32 (input_format (self s)) = true ->
                 validate_count_for_input_format s
                 = Exit bc32_count_message)).
  { intros s Hc. unfold validate_count_for_input_format. run_step.
    rewrite (str_empty_false _ Hc). simpl.
    split; intros H.
    - rewrite H. reflexivity.
    - destruct (input_format (self s)) as [[] |]; try discriminate.
      reflexivity. }
  split; [exact Step |].
  split; [| split; [| repeat split; try reflexivity ] ].
  - intros s H. unfold validate_count_for_input_format. run_step.
    destruct H as [H | [H1 H2]].
    + rewrite H. simpl.
      destruct (is_hex (input_format (self s))); [reflexivity |].
      destruct (is_bc32 (input_format (self s))); reflexivity.
    + rewrite H1, H2. reflexivity.
  - intros s s4 Hc T.
    pose proof (input_steps_keep_raw_count X s s4 T) as K.
    assert (Hc4 : Raw.count (raw (self s4)) <> "") by (rewrite K; exact Hc).
    destruct (Step s4 Hc4) as [S1 S2].
    assert (Hs : steps X = (input_steps X
                            ++ validate_count_for_input_format
                               :: later_steps X)%list) by reflexivity.
    destruct (sequence_first_failure (input_steps X) (later_steps X)
                validate_count_for_input_format s s4 T) as [F _].
    rewrite parse_opt_end_outcome, Hs.
    split; intros H.
    + rewrite (F _ (S1 H)). reflexivity.
    + rewrite (F _ (S2 H)). reflexivity.
  - eexists. split.
    + simpl. repeat (eexists; split; [reflexivity |]). reflexivity.
    + repeat split.
  - eexists. reflexivity.
Qed.

Lemma count_rejected_for_resolved_input_witness :
  parse_opt_end sample (count_state "ur" "7" ["ur:crypto-seed/x"])
  = Exit hex_count_message.
Proof.
  pose proof (proj1 (proj2 (proj2 (count_rejected_for_resolved_input sample))))
    as F.
  edestruct (F (count_state "ur" "7" ["ur:crypto-seed/x"])) as [F1 _].
  - discriminate.
  - simpl. repeat (eexists; split; [reflexivity |]). reflexivity.
  - apply F1. reflexivity.
Defined.

(* ================================================================== *)
(** ** The text of the SLIP39 count diagnostic *)

Lemma validate_slip39_specific_count (X : Extern) (s : State) :
  is_slip39 (output_format (self s)) = true ->
  slip39_is_seed_length_valid X (count (self s)) = false ->
  validate_slip39_specific X s = Exit slip39_count_message.
Proof.
  intros Ho Hc. rewrite validate_slip39_specific_cases. cbv zeta.
  rewrite Ho, Hc. reflexivity.
Qed.

Lemma validate_bip39_specific_count (X : Extern) (s : State) :
  is_bip39 (output_format (self s)) = true ->
  bip39_is_seed_length_valid X (count (self s)) = false ->
  validate_bip39_specific X s
  = Exit "For BIP39 COUNT must be in [12-32] and even.".
Proof.
  intros Ho Hc. unfold validate_bip39_specific. run_step.
  rewrite Ho, Hc. reflexivity.
Qed.

(** C9. With --out slip39 --count 10 every step before the SLIP39 one
    returns, the count fails the SLIP39 seed-length predicate, and the
    run ends with a diagnostic that names BIP39 and does not name
    SLIP39. *)
Theorem slip39_count_diagnostic_names_bip39 :
  let s := count_state "" "10" [] in
  let s0 := on_self (set_raw (set_raw_output_format "slip39" (raw (self s))))
              s in
  slip39_is_seed_length_valid sample 10 = false
  /\ (exists s9,
        threads [ validate_count; validate_deterministic;
                  validate_input_format sample; validate_input sample;
                  validate_count_for_input_format;
                  validate_output_format sample; validate_output_for_input;
                  validate_ints_specific; validate_bip39_specific sample ]
          s0 s9
        /\ is_slip39 (output_format (self s9)) = true
        /\ count (self s9) = 10
        /\ validate_slip39_specific sample s9
           = Exit "For BIP39 COUNT must be in [16-32] and even.")
  /\ parse_opt_end sample s0
     = Exit "For BIP39 COUNT must be in [16-32] and even."
  /\ contains "BIP39" slip39_count_message = true
  /\ contains "SLIP39" slip39_count_message = false
  /\ contains "slip39" slip39_count_message = false.
Proof.
  intros s s0. split; [reflexivity |]. split.
  - eexists. split.
    + simpl. repeat (eexists; split; [reflexivity |]). reflexivity.
    + repeat split.
  - repeat split.
Qed.

(* ================================================================== *)
(** ** Whole runs *)

Example group_spec_table :
  group_spec_table_ok sample (start Raw.empty []) = true.
Proof. vm_compute. reflexivity. Qed.

(** No options and no arguments: random input, hex output, 16 units. *)
Example run_defaults :
  exists s',
    parse_opt_end sample (start Raw.empty []) = Ok (tt, s')
    /\ input_format (self s') = Some FormatRandom
    /\ output_format (self s') = Some FormatHex
    /\ count (self s') = 16
    /\ rng (self s') = Some crypto_random
    /\ events s' = [].
Proof. eexists. split; [reflexivity | repeat split]. Qed.

(** --in hex --out ints --low 5 --high 10 deadbeef *)
Example run_hex_to_ints :
  exists s',
    parse_opt_end sample
      (start (Raw.mk "" "" [] "10" "5" "hex" "ints" "" false "" ["deadbeef"])
         [])
    = Ok (tt, s')
    /\ input_format (self s') = Some FormatHex
    /\ output_format (self s') = Some (FormatInts 5 10)
    /\ input (self s') = ["deadbeef"].
Proof. eexists. split; [reflexivity | repeat split]. Qed.

(** --out slip39 --group 2-of-3 --group 1-of-1 --group-threshold 3 *)
Example run_threshold_above_groups :
  parse_opt_end sample
    (start (Raw.mk "" "" ["2-of-3"; "1-of-1"] "" "" "" "slip39" "3" false ""
              []) [])
  = Exit group_threshold_message.
Proof. reflexivity. Qed.

(** --in ur --out bip39 with a resource tagged crypto-slip39, read from
    standard input. *)
Example run_ur_slip39_to_bip39 :
  parse_opt_end sample
    (start (Raw.mk "" "" [] "" "" "ur" "bip39" "" false "" [])
       ["ur:crypto-slip39/x"])
  = Exit "Input format slip39 cannot be used with output format bip39".
Proof. reflexivity. Qed.

(** --in ur --out bip39 with a resource tagged crypto-bip39 passes, and
    the resource is decoded once, after standard input was read. *)
Example run_ur_bip39_to_bip39 :
  exists s',
    parse_opt_end sample
      (start (Raw.mk "" "" [] "" "" "ur" "bip39" "" false "" [])
         ["ur:crypto-bip39/x"])
    = Ok (tt, s')
    /\ input_format (self s') = Some FormatBIP39
    /\ ur (self s') = Some (mk_UR "crypto-bip39")
    /\ events s' = [ReadStdin ["ur:crypto-bip39/x"];
                    DecodeUR ["ur:crypto-bip39/x"]].
Proof. eexists. split; [reflexivity | repeat split]. Qed.

(* ================================================================== *)
(** ** Option collection *)

Lemma last_cons {A} (a d : A) (l : list A) : last (a :: l) d = last l a.
Proof.
  revert a d. induction l as [| b l IH]; intros a d; [reflexivity |].
  change (last (a :: b :: l) d) with (last (b :: l) d).
  rewrite (IH b d), (IH b a). reflexivity.
Qed.

Lemma last_app {A} (l1 l2 : list A) (d : A) :
  last (l1 ++ l2) d = last l2 (last l1 d).
Proof.
  revert d. induction l1 as [| a l1 IH]; intros d; [reflexivity |].
  change ((a :: l1) ++ l2)%list with (a :: (l1 ++ l2))%list.
  rewrite !last_cons. apply IH.
Qed.

Lemma option_args_app (key : option_key) (l1 l2 : list argp_call) :
  option_args key (l1 ++ l2)
  = (option_args key l1 ++ option_args key l2)%list.
Proof.
  induction l1 as [| c l1 IH]; [reflexivity |].
  destruct c; cbn [app option_args]; try exact IH.
  - destruct (key_eqb key0 key); cbn [app]; rewrite IH; reflexivity.
  - destruct (key_eqb key_u key); cbn [app]; rewrite IH; reflexivity.
Qed.

Lemma positional_app (l1 l2 : list argp_call) :
  positional (l1 ++ l2) = (positional l1 ++ positional l2)%list.
Proof.
  induction l1 as [| c l1 IH]; [reflexivity |].
  destruct c; simpl; rewrite ?IH; reflexivity.
Qed.

Lemma vec_empty_app {A} (l1 l2 : list A) :
  vec_empty (l1 ++ l2) = vec_empty l1 && vec_empty l2.
Proof. destruct l1; reflexivity. Qed.

(** Collecting two runs of calls one after the other is collecting
    their concatenation. *)
Lemma collected_app (l1 l2 : list argp_call) (r : Raw.t) :
  collected (l1 ++ l2) r = collected l2 (collected l1 r).
Proof.
  unfold collected. simpl.
  rewrite !option_args_app, !last_app, positional_app, !app_assoc.
  rewrite vec_empty_app, negb_andb, orb_assoc. reflexivity.
Qed.

Lemma on_self_set_raw_id (s : State) :
  on_self (set_raw (raw (self s))) s = s.
Proof. destruct s as [[] ? ?]. reflexivity. Qed.

Lemma collected_nil (r : Raw.t) : collected [] r = r.
Proof.
  unfold collected. destruct r. simpl.
  rewrite !app_nil_r, orb_false_r. reflexivity.
Qed.

(** One call that is not [ARGP_KEY_END] stores its argument and
    returns. *)
Lemma parse_opt_stores (X : Extern) (c : argp_call) (s : State) :
  c <> ARGP_KEY_END ->
  parse_opt X c s = Ok (tt, on_self (set_raw (collected [c] (raw (self s)))) s).
Proof.
  intros Hc. destruct c; try congruence.
  - change (collected [ARGP_KEY_INIT] (raw (self s)))
      with (collected [] (raw (self s))).
    rewrite collected_nil, on_self_set_raw_id. reflexivity.
  - unfold parse_opt, try_catch, collected, assign_raw.
    destruct key; run_step; destruct (raw (self s)); simpl;
      rewrite ?app_nil_r, ?orb_false_r, ?orb_true_r; reflexivity.
  - unfold parse_opt, try_catch, collected, assign_raw. run_step.
    destruct (raw (self s)). simpl.
    rewrite !app_nil_r, orb_true_r. reflexivity.
  - unfold parse_opt, try_catch, collected, assign_raw. run_step.
    destruct (raw (self s)). simpl.
    rewrite !app_nil_r, orb_false_r. reflexivity.
  - change (collected [ARGP_KEY_OTHER] (raw (self s)))
      with (collected [] (raw (self s))).
    rewrite collected_nil, on_self_set_raw_id. reflexivity.
Qed.

(** The calls before [ARGP_KEY_END] all return, with the raw options
    collected. *)
Lemma argp_parse_before_end (X : Extern) (calls : list argp_call) :
  forall s,
    before_end calls = true ->
    argp_parse X calls s
    = Ok (tt, on_self (set_raw (collected calls (raw (self s)))) s).
Proof.
  induction calls as [| c calls IH]; intros s H.
  - rewrite collected_nil, on_self_set_raw_id. reflexivity.
  - simpl in H. apply andb_true_iff in H. destruct H as [Hc H].
    unfold argp_parse. simpl. unfold bind.
    rewrite parse_opt_stores by (destruct c; discriminate).
    fold (argp_parse X calls). rewrite (IH _ H).
    change (c :: calls) with ([c] ++ calls)%list.
    rewrite collected_app. reflexivity.
Qed.


(** X1. The calls before [ARGP_KEY_END] never end the run and validate
    nothing: they leave the object, standard input and the trace as
    they were, except for the raw options, where every scalar option
    holds the value it was given last (or the one it had), the --group
    values and the positional arguments are appended in the order
    given, and the resource flag is set once --ur was given. *)
Theorem argp_parse_collects (X : Extern) (calls : list argp_call)
  (s : State) :
  before_end calls = true ->
  argp_parse X calls s
  = Ok (tt, on_self (set_raw (collected calls (raw (self s)))) s)
  /\ (forall more,
        collected (calls ++ more) (raw (self s))
        = collected more (collected calls (raw (self s)))).
Proof.
  intros H. split.
  - apply argp_parse_before_end. exact H.
  - intros more. apply collected_app.
Qed.

Lemma argp_parse_collects_witness :
  exists s',
    argp_parse sample
      [ARGP_KEY_INIT; OPTION key_c "12"; OPTION key_g "2-of-3"; ARGP_KEY_ARG "a";
       OPTION key_c "20"; OPTION_u_NULL; OPTION key_g "1-of-1"; ARGP_KEY_ARG "b"]
      (start Raw.empty ["line"])
    = Ok (tt, s')
    /\ raw (self s')
       = Raw.mk "20" "" ["2-of-3"; "1-of-1"] "" "" "" "" "" true "" ["a"; "b"]
    /\ cin s' = ["line"] /\ events s' = [].
Proof.
  eexists. split.
  - refine (proj1 (argp_parse_collects sample _ _ _)). reflexivity.
  - repeat split.
Defined.

Lemma sequence_app (l1 l2 : list (M unit)) :
  forall s, sequence (l1 ++ l2) s = (sequence l1 ;; sequence l2) s.
Proof.
  induction l1 as [| m l1 IH]; intros s; simpl.
  - reflexivity.
  - unfold bind in *. destruct (m s) as [[[] s1] | msg | e]; try reflexivity.
    apply IH.
Qed.

Lemma parse_opt_at_end (X : Extern) (s : State) :
  parse_opt X ARGP_KEY_END s = parse_opt_end X s.
Proof. reflexivity. Qed.

(** X2. [Params::parse] on calls that end with [ARGP_KEY_END] is the
    validation of the raw options collected from a new object; it never
    leaves with an exception, and it returns an object only when every
    step of [validate] returned. *)
Theorem Params_parse_validates (X : Extern) (calls : list argp_call)
  (stdin : list string) :
  before_end calls = true ->
  let s0 := start (collected calls Raw.empty) stdin in
  Params_parse X (calls ++ [ARGP_KEY_END]) stdin
  = match parse_opt_end X s0 with
    | Ok (_, s) => Ok (self s)
    | Exit msg => Exit msg
    | Throw e => Throw e
    end
  /\ (forall e, Params_parse X (calls ++ [ARGP_KEY_END]) stdin <> Throw e)
  /\ (forall p,
        Params_parse X (calls ++ [ARGP_KEY_END]) stdin = Ok p ->
        exists s', threads (steps X) s0 s' /\ p = self s').
Proof.
  intros H s0.
  assert (E : Params_parse X (calls ++ [ARGP_KEY_END]) stdin
              = match parse_opt_end X s0 with
                | Ok (_, s) => Ok (self s)
                | Exit msg => Exit msg
                | Throw e => Throw e
                end).
  { unfold Params_parse, argp_parse. rewrite map_app, sequence_app.
    unfold bind at 1. fold (argp_parse X calls).
    rewrite (argp_parse_before_end X calls _ H).
    change (on_self (set_raw (collected calls (raw (self (start Raw.empty stdin)))))
              (start Raw.empty stdin)) with s0.
    simpl map. simpl sequence. rewrite bind_unit_ret, parse_opt_at_end.
    reflexivity. }
  split; [exact E |]. rewrite E. rewrite parse_opt_end_outcome.
  pose proof (sequence_threads (steps X) s0) as T.
  destruct (sequence (steps X) s0) as [[[] s'] | msg | e]; split;
    try discriminate.
  intros p [= <-]. exists s'. split; [apply T; reflexivity | reflexivity].
Qed.

Lemma Params_parse_validates_witness :
  Params_parse sample
    [OPTION key_i "hex"; OPTION key_o "dice"; ARGP_KEY_ARG "deadbeef";
     ARGP_KEY_END] []
  = Ok (mk_Params
          (Raw.mk "" "" [] "" "" "hex" "dice" "" false "" ["deadbeef"])
          16 (Some crypto_random) (Some FormatHex) (Some FormatDice)
          false false 0 ["deadbeef"] None).
Proof.
  etransitivity.
  - exact (proj1 (Params_parse_validates sample
                    [OPTION key_i "hex"; OPTION key_o "dice";
                     ARGP_KEY_ARG "deadbeef"] [] eq_refl)).
  - reflexivity.
Defined.

(* ================================================================== *)
(** ** Format names *)

Lemma key_for_string_name (n : string) :
  match key_for_string n with
  | Key.unknown => True
  | Key.random => n = "random"
  | Key.hex => n = "hex"
  | Key.bits => n = "bits"
  | Key.cards => n = "cards"
  | Key.dice => n = "dice"
  | Key.base6 => n = "base6"
  | Key.base10 => n = "base10"
  | Key.ints => n = "ints"
  | Key.bip39 => n = "bip39"
  | Key.slip39 => n = "slip39"
  | Key.bc32 => n = "bc32"
  end.
Proof.
  unfold key_for_string.
  repeat match goal with
         | |- context [(n =? ?k)%string] =>
             destruct (String.eqb_spec n k); [assumption |]
         end.
  exact I.
Qed.

(** A name the switch has a case for is the name of the format it
    constructs. *)
Lemma resolved_format_name (X : Extern) (n : string) (f : Format) :
  resolved_format X n = Some f -> name f = n.
Proof.
  unfold resolved_format. pose proof (key_for_string_name n) as K.
  destruct (key_for_string n); intros [= <-]; symmetry; exact K.
Qed.


Lemma validate_input_format_cases (X : Extern) (s : State) :
  validate_input_format X s
  = let n := Raw.input_format (raw (self s)) in
    if str_empty n then Ok (tt, on_self (set_input_format (Some FormatRandom)) s)
    else if (n =? "ur")%string then Ok (tt, on_self (set_is_ur_in true) s)
    else match resolved_format X n with
         | Some f => Ok (tt, on_self (set_input_format (Some f)) s)
         | None => Exit ("Unknown input format: " ++ n)
         end.
Proof.
  unfold validate_input_format, resolved_format. run_step.
  destruct (str_empty (Raw.input_format (raw (self s)))); [reflexivity |].
  destruct (Raw.input_format (raw (self s)) =? "ur")%string; [reflexivity |].
  destruct (key_for_string (Raw.input_format (raw (self s)))); reflexivity.
Qed.

Lemma validate_output_format_cases (X : Extern) (s : State) :
  validate_output_format X s
  = let n := Raw.output_format (raw (self s)) in
    if str_empty n then Ok (tt, on_self (set_output_format (Some FormatHex)) s)
    else match resolved_format X n with
         | Some FormatRandom | None => Exit ("Unknown output format: " ++ n)
         | Some f => Ok (tt, on_self (set_output_format (Some f)) s)
         end.
Proof.
  unfold validate_output_format, resolved_format. run_step.
  destruct (str_empty (Raw.output_format (raw (self s)))); [reflexivity |].
  destruct (key_for_string (Raw.output_format (raw (self s)))); reflexivity.
Qed.

Lemma validate_input_format_post (X : Extern) (s s' : State) :
  validate_input_format X s = Ok (tt, s') <-> input_format_post X s s'.
Proof.
  pose proof (validate_input_format_cases X s) as V. cbv zeta in V.
  revert V. generalize (eq_refl (Raw.input_format (raw (self s)))).
  set (n := Raw.input_format (raw (self s))) at 2 3 4 5 6.
  intros _ V. unfold input_format_post. fold n. rewrite V. clear V.
    destruct (String.eqb_spec n "ur") as [U | U].
    + rewrite U. simpl. split.
      * intros [= <-]. left. split; reflexivity.
      * intros [[_ ->] | [C _]]; [reflexivity | congruence].
    + destruct n as [| c n'] eqn:En.
      * simpl. split.
        -- intros [= <-]. right. split; [exact U |].
           exists FormatRandom. split; [reflexivity |]. left. split; reflexivity.
        -- intros [[C _] | (_ & f & -> & [[_ ->] | [C _]])];
             [congruence | reflexivity | congruence].
      * cbn [str_empty]. split.
        -- destruct (resolved_format X (String c n')) as [f |] eqn:R;
             [| discriminate].
           intros [= <-]. right. split; [exact U |]. exists f.
           split; [reflexivity |]. right. split; [discriminate | reflexivity].
        -- intros [[C _] | (_ & f & -> & [[C _] | [_ R]])];
             [congruence | discriminate |].
           rewrite R. reflexivity.
Qed.



Lemma validate_output_format_post (X : Extern) (s s' : State) :
  validate_output_format X s = Ok (tt, s') <-> output_format_post X s s'.
Proof.
  pose proof (validate_output_format_cases X s) as V. cbv zeta in V.
  revert V. generalize (eq_refl (Raw.output_format (raw (self s)))).
  set (n := Raw.output_format (raw (self s))) at 2 3 4 5.
  intros _ V. unfold output_format_post. fold n. rewrite V. clear V.
    destruct n as [| c n'] eqn:En.
    + simpl. split.
      * intros [= <-]. exists FormatHex. split; [reflexivity |].
        split; [discriminate |]. left. split; reflexivity.
      * intros (o & -> & _ & [[_ ->] | [C _]]); [reflexivity | congruence].
    + cbn [str_empty]. split.
      * destruct (resolved_format X (String c n')) as [f |] eqn:R;
          [| discriminate].
        destruct f; try discriminate; intros [= <-]; eexists;
          (split; [reflexivity |]); (split; [discriminate |]);
          right; (split; [discriminate | reflexivity]).
      * intros (o & -> & Ho & [[C _] | [_ R]]); [discriminate |].
        rewrite R. destruct o; try reflexivity. congruence.
Qed.



(* ================================================================== *)
(** ** What each step has done when it returns *)

Lemma acquired_explicit (s : State) : acquired s = acquired_state s.
Proof.
  unfold acquired, acquired_state, acquired_input, stdin_read, on_self.
  destruct s as [[[c d g h l i o t u m a] ? ? ? ? ? ? ? ? ?] ? ?].
  cbn [self raw Raw.args cin events].
  destruct a as [| a0 a]; cbn [vec_empty self raw Raw.args].
  - rewrite getline_loop_all. reflexivity.
  - reflexivity.
Qed.

Lemma validate_count_post (s s' : State) :
  validate_count s = Ok (tt, s') <-> count_post s s'.
Proof.
  rewrite validate_count_cases. unfold count_post.
  destruct (resolved_count (Raw.count (raw (self s)))) as [e | n]; split.
  - discriminate.
  - intros (n & C & _). discriminate.
  - destruct (Z.ltb_spec n 1); [discriminate |].
    destruct (Z.gtb_spec n 64); [discriminate |]. simpl.
    intros [= <-]. exists n. repeat split; lia.
  - intros (n' & [= <-] & R & ->).
    replace (n <? 1) with false by (symmetry; apply Z.ltb_ge; lia).
    replace (n >? 64) with false
      by (rewrite Z.gtb_ltb; symmetry; apply Z.ltb_ge; lia).
    reflexivity.
Qed.

Lemma validate_deterministic_post (s s' : State) :
  validate_deterministic s = Ok (tt, s') <-> deterministic_post s s'.
Proof.
  unfold validate_deterministic, deterministic_post, selected_rng. run_step.
  destruct (str_empty (Raw.random_deterministic (raw (self s)))); simpl;
    split; intros H; [injection H as <- | rewrite H
                     | injection H as <- | rewrite H]; reflexivity.
Qed.

Lemma validate_input_post (X : Extern) (s s' : State) :
  validate_input X s = Ok (tt, s') <-> input_post X s s'.
Proof.
  rewrite validate_input_cases. cbv zeta. unfold input_post.
  rewrite acquired_explicit.
  change (input (self (acquired_state s))) with (acquired_input s).
  destruct (is_random (input_format (self s))).
  - destruct (Raw.args (raw (self s))) eqn:A; simpl; split.
    + intros [= <-]. left. repeat split.
    + intros [(_ & _ & ->) | (C & _)]; [reflexivity | discriminate].
    + discriminate.
    + intros [(_ & C & _) | (C & _)]; discriminate.
  - destruct (acquired_input s) eqn:I; cbn [vec_empty]; split.
    + discriminate.
    + intros [(C & _) | (_ & C & _)]; [discriminate | congruence].
    + destruct (is_ur_in (self s)).
      * destruct (ur_decode X (s0 :: l)) as [e | tag] eqn:D; [discriminate |].
        destruct (format_for_tag X tag) as [f |] eqn:F; [| discriminate].
        intros [= <-]. right. split; [reflexivity |].
        split; [discriminate |]. right. split; [reflexivity |].
        exists tag, f. repeat split; assumption.
      * intros [= <-]. right. split; [reflexivity |].
        split; [discriminate |]. left. split; reflexivity.
    + intros [(C & _) | (_ & _ & [(U & ->) | (U & tag & f & D & F & ->)])].
      * discriminate.
      * rewrite U. reflexivity.
      * rewrite U, D, F. reflexivity.
Qed.

Lemma validate_count_for_input_format_post (s s' : State) :
  validate_count_for_input_format s = Ok (tt, s')
  <-> count_for_input_format_post s s'.
Proof.
  unfold validate_count_for_input_format, count_for_input_format_post.
  run_step.
  destruct (is_hex (input_format (self s)));
    [| destruct (is_bc32 (input_format (self s)))];
    destruct (Raw.count (raw (self s))); simpl; split;
    try discriminate;
    try (intros [= <-]; split; [reflexivity | intros _; reflexivity]);
    try (intros [-> _]; reflexivity);
    try (intros [_ C]; specialize (C eq_refl); discriminate);
    try (intros [= <-]; split; [reflexivity | discriminate]).
Qed.

Lemma validate_output_for_input_cases (s : State) :
  validate_output_for_input s
  = if compatible_b (is_ur_in (self s)) (input_format (self s))
         (output_format (self s))
    then Ok (tt, s)
    else Exit ("Input format " ++ name_of (input_format (self s))
               ++ " cannot be used with output format "
               ++ name_of (output_format (self s))).
Proof.
  unfold validate_output_for_input, compatible_b. run_step.
  destruct (is_hex (output_format (self s))); [reflexivity |].
  destruct (is_bc32 (output_format (self s))); [reflexivity |].
  destruct (is_random (input_format (self s))); [reflexivity |].
  destruct (is_hex (input_format (self s))); [reflexivity |].
  destruct (is_bc32 (input_format (self s))); [reflexivity |]. simpl.
  destruct (is_ur_in (self s) && is_bip39 (input_format (self s))
            && is_bip39 (output_format (self s))); [reflexivity |].
  destruct (is_ur_in (self s) && is_slip39 (input_format (self s))
            && is_slip39 (output_format (self s))); reflexivity.
Qed.

Lemma validate_output_for_input_post (s s' : State) :
  validate_output_for_input s = Ok (tt, s') <-> output_for_input_post s s'.
Proof.
  rewrite validate_output_for_input_cases. unfold output_for_input_post.
  destruct (compatible_b _ _ _); split.
  - intros [= <-]. split; reflexivity.
  - intros [-> _]. reflexivity.
  - discriminate.
  - intros [_ C]. discriminate.
Qed.

Lemma validate_ints_specific_post (s s' : State) :
  validate_ints_specific s = Ok (tt, s') <-> ints_post s s'.
Proof.
  rewrite validate_ints_specific_cases. cbv zeta. unfold ints_post.
  destruct (is_ints (output_format (self s))) eqn:I.
  - destruct (output_format (self s)) as [[] |] eqn:O; try discriminate I.
    split.
    + destruct (resolved_bound (Raw.ints_low (raw (self s))) low)
        as [e | l] eqn:L; [discriminate |].
      destruct (resolved_bound (Raw.ints_high (raw (self s))) high)
        as [e | h] eqn:H; [discriminate |].
      destruct ((0 <=? l) && (l <? h) && (h <=? 255)) eqn:R; [| discriminate].
      intros [= <-]. left. exists low, high, l, h.
      rewrite !andb_true_iff, !Z.leb_le, Z.ltb_lt in R.
      repeat split; tauto.
    + intros [(l0 & h0 & l & h & [= <- <-] & L & H & R1 & R2 & ->)
             | (C & _)]; [| discriminate].
      rewrite L, H.
      replace ((0 <=? l) && (l <? h) && (h <=? 255)) with true;
        [reflexivity |].
      symmetry. rewrite !andb_true_iff, !Z.leb_le, Z.ltb_lt. lia.
  - assert (E : match output_format (self s) with
                | Some (FormatInts l0 h0) =>
                    match resolved_bound (Raw.ints_low (raw (self s))) l0 with
                    | inl e => Throw e
                    | inr low =>
                        match
                          resolved_bound (Raw.ints_high (raw (self s))) h0
                        with
                        | inl e => Throw e
                        | inr high =>
                            if (0 <=? low) && (low <? high) && (high <=? 255)
                            then Ok (tt, on_self
                                           (set_output_format
                                              (Some (FormatInts low high))) s)
                            else Exit ints_range_message
                        end
                    end
                | _ =>
                    if negb (str_empty (Raw.ints_low (raw (self s))))
                    then Exit low_option_message
                    else if negb (str_empty (Raw.ints_high (raw (self s))))
                         then Exit high_option_message
                         else Ok (tt, s)
                end
                = if negb (str_empty (Raw.ints_low (raw (self s))))
                  then Exit low_option_message
                  else if negb (str_empty (Raw.ints_high (raw (self s))))
                       then Exit high_option_message
                       else Ok (tt, s)).
    { destruct (output_format (self s)) as [[] |]; try reflexivity.
      discriminate I. }
    rewrite E. clear E.
    destruct (Raw.ints_low (raw (self s))) eqn:L; simpl;
      [destruct (Raw.ints_high (raw (self s))) eqn:H; simpl |]; split;
      try discriminate.
    + intros [= <-]. right. repeat split.
    + intros [(? & ? & ? & ? & C & _) | (_ & _ & _ & ->)];
        [rewrite C in I; discriminate | reflexivity].
    + intros [(? & ? & ? & ? & C & _) | (_ & _ & C & _)];
        [rewrite C in I; discriminate | discriminate].
    + intros [(? & ? & ? & ? & C & _) | (_ & C & _)];
        [rewrite C in I; discriminate | discriminate].
Qed.

Lemma validate_bip39_specific_post (X : Extern) (s s' : State) :
  validate_bip39_specific X s = Ok (tt, s') <-> bip39_post X s s'.
Proof.
  unfold validate_bip39_specific, bip39_post. run_step.
  destruct (is_bip39 (output_format (self s))); simpl.
  - destruct (bip39_is_seed_length_valid X (count (self s))); simpl; split.
    + intros [= <-]. split; reflexivity.
    + intros [-> _]. reflexivity.
    + discriminate.
    + intros [_ C]. specialize (C eq_refl). discriminate.
  - split.
    + intros [= <-]. split; [reflexivity | discriminate].
    + intros [-> _]. reflexivity.
Qed.

Lemma validate_slip39_specific_post (X : Extern) (s s' : State) :
  validate_slip39_specific X s = Ok (tt, s') <-> slip39_post X s s'.
Proof.
  rewrite validate_slip39_specific_cases. cbv zeta. unfold slip39_post.
  destruct (is_slip39 (output_format (self s))).
  - destruct (slip39_is_seed_length_valid X (count (self s))); simpl.
    2:{ split; [discriminate |].
        intros [(_ & C & _) | (C & _)]; discriminate. }
    destruct (Z.gtb_spec (size (Raw.slip39_groups (raw (self s))))
                (Z.of_nat (MAX_GROUPS X))) as [G | G].
    { split; [discriminate |].
      intros [(_ & _ & C & _) | (C & _)]; [| discriminate].
      unfold size in G. lia. }
    destruct (build_groups_pure X (Raw.slip39_groups (raw (self s))) s)
      as [(gs & B & _) | [msg B]]; rewrite B.
    2:{ split; [discriminate |].
        intros [(_ & _ & _ & gt & groups & C & _) | (C & _)]; discriminate. }
    destruct (resolved_groups_threshold
                (Raw.slip39_groups_threshold (raw (self s))))
      as [e | gt] eqn:T.
    { split; [discriminate |].
      intros [(_ & _ & _ & gt & groups & _ & C & _) | (C & _)]; discriminate. }
    pose proof (resolved_groups_threshold_range _ _ T) as Rg.
    destruct ((0 <? gt) && (int_to_size_t gt <=? size gs)) eqn:C; split.
    + intros [= <-]. left. repeat split; auto.
      * unfold size in G. lia.
      * exists gt, gs. apply andb_true_iff in C. destruct C as [C1 C2].
        apply Z.ltb_lt in C1. apply Z.leb_le in C2.
        rewrite int_to_size_t_positive in C2 by lia.
        repeat split; auto; lia.
    + intros [(_ & _ & _ & gt' & groups & [= <-] & [= <-] & _ & ->)
             | (C' & _)]; [reflexivity | discriminate].
    + discriminate.
    + intros [(_ & _ & _ & gt' & groups & [= <-] & [= <-] & R & _)
             | (C' & _)]; [| discriminate].
      exfalso. apply andb_false_iff in C.
      rewrite Z.ltb_ge, Z.leb_gt in C.
      destruct C as [C | C]; [lia |].
      rewrite int_to_size_t_positive in C by lia. lia.
  - unfold size.
    destruct (Raw.slip39_groups (raw (self s))) eqn:G; simpl.
    + destruct (Raw.slip39_groups_threshold (raw (self s))) eqn:T; simpl; split.
      * intros [= <-]. right. repeat split.
      * intros [(C & _) | (_ & _ & _ & ->)]; [discriminate | reflexivity].
      * discriminate.
      * intros [(C & _) | (_ & _ & C & _)]; discriminate.
    + split; [discriminate |].
      intros [(C & _) | (_ & C & _)]; discriminate.
Qed.

Lemma validate_ur_post (s s' : State) :
  validate_ur s = Ok (tt, s') <-> ur_post s s'.
Proof.
  rewrite validate_ur_cases. cbv zeta. unfold ur_post.
  destruct (Raw.is_ur (raw (self s))).
  - destruct (is_ur_in (self s)).
    { split; [discriminate |].
      intros [(C & _) | (_ & C & _)]; discriminate. }
    destruct (resolved_max_part_length (Raw.max_part_length (raw (self s))))
      as [e | n].
    { split; [discriminate |].
      intros [(C & _) | (_ & _ & _ & n & C & _)]; discriminate. }
    destruct (ur_capable (output_format (self s))); split.
    + intros [= <-]. right. repeat split. exists n. split; reflexivity.
    + intros [(C & _) | (_ & _ & _ & n' & [= <-] & ->)];
        [discriminate | reflexivity].
    + discriminate.
    + intros [(C & _) | (_ & _ & C & _)]; discriminate.
  - split.
    + intros [= <-]. left. split; reflexivity.
    + intros [(_ & ->) | (C & _)]; [reflexivity | discriminate].
Qed.

(* ================================================================== *)
(** ** Lists of group specifiers *)

Lemma parse_group_spec_ok (X : Extern) (str : string) (s s' : State)
  (g : group_descriptor) :
  parse_group_spec X str s = Ok (g, s') ->
  s' = s
  /\ shape_T_of_N str = Some (threshold g, g_count g)
  /\ group_ok g.
Proof.
  unfold shape_T_of_N, parse_group_spec, sscanf_zd_of_zd, group_ok.
  destruct (scan_integer str) as [| | T rest]; try discriminate.
  destruct (match_literal "-of-" rest) as [rest' |]; try discriminate.
  destruct (scan_integer rest') as [| | N rest'']; try discriminate.
  pose proof (size_t_checks_decide_bounds T N) as D. cbv zeta in D.
  run_step.
  destruct ((0 <? to_size_t T) && (to_size_t T <=? to_size_t N)
            && (to_size_t N <=? 16)); simpl; [| discriminate].
  destruct ((to_size_t N >? 1) && (to_size_t T =? 1)); simpl;
    [discriminate |].
  simpl in D. symmetry in D.
  destruct (group_bounds_small T N D) as [ET EN].
  intros [= <- <-]. simpl. rewrite ET, EN. repeat split. exact D.
Qed.

(** What the loop over the group specifiers leaves. *)
Lemma parse_groups_outcome (X : Extern) (specs : list string) :
  forall (acc : list group_descriptor) (s : State),
    match parse_groups X specs acc s with
    | Ok (gs, s') =>
        s' = s
        /\ exists new, gs = (acc ++ new)%list /\ Forall2 parsed_as specs new
    | Exit msg =>
        exists pre bad post new,
          specs = (pre ++ bad :: post)%list
          /\ Forall2 parsed_as pre new
          /\ parse_group_spec X bad s = Exit msg
    | Throw _ => False
    end.
Proof.
  induction specs as [| spec rest IH]; intros acc s; simpl.
  - unfold ret. split; [reflexivity |]. exists []. rewrite app_nil_r.
    split; [reflexivity | constructor].
  - unfold bind.
    destruct (parse_group_spec_pure X spec s) as [[g E] | [msg E]]; rewrite E.
    + destruct (parse_group_spec_ok X spec s s g E) as (_ & Sh & Gk).
      specialize (IH (acc ++ [g])%list s).
      destruct (parse_groups X rest (acc ++ [g]) s) as [[gs s'] | msg | e].
      * destruct IH as (-> & new & -> & F). split; [reflexivity |].
        exists (g :: new). rewrite <- app_assoc. split; [reflexivity |].
        constructor; [split; assumption | exact F].
      * destruct IH as (pre & bad & post & new & -> & F & B).
        exists (spec :: pre), bad, post, (g :: new).
        split; [reflexivity |]. split; [| exact B].
        constructor; [split; assumption | exact F].
      * exact IH.
    + exists [], spec, rest, []. repeat split; [constructor | exact E].
Qed.

(** X5. When the loop over the group specifiers returns, it has
    appended one descriptor for each specifier, in their order, each
    holding the two numbers of its specifier, within the bounds
    1 <= T <= N <= 16 and (N > 1 implies T <> 1), and it has changed
    nothing else; when it ends the run, the diagnostic is that of the
    first specifier [parse_group_spec] rejects. *)
Theorem parse_groups_results (X : Extern) (specs : list string) :
  forall (acc : list group_descriptor) (s : State),
    match parse_groups X specs acc s with
    | Ok (gs, s') =>
        s' = s
        /\ exists new, gs = (acc ++ new)%list /\ Forall2 parsed_as specs new
    | Exit msg =>
        exists pre bad post new,
          specs = (pre ++ bad :: post)%list
          /\ Forall2 parsed_as pre new
          /\ parse_group_spec X bad s = Exit msg
    | Throw _ => False
    end.
Proof. apply parse_groups_outcome. Qed.

(* ================================================================== *)
(** ** A run of [validate] that returned *)

Lemma validate_returns (X : Extern) (s s' : State) :
  parse_opt_end X s = Ok (tt, s') <-> validated X s s'.
Proof.
  rewrite parse_opt_end_outcome.
  assert (E : match sequence (steps X) s with
              | Throw e => Exit (what e)
              | r => r
              end = Ok (tt, s') <-> sequence (steps X) s = Ok (tt, s')).
  { destruct (sequence (steps X) s) as [[[] ?] | ? | ?]; split;
      intros H; try discriminate; exact H. }
  rewrite E, sequence_threads. unfold validated. simpl. split.
  - intros (s1 & E1 & s2 & E2 & s3 & E3 & s4 & E4 & s5 & E5 & s6 & E6
            & s7 & E7 & s8 & E8 & s9 & E9 & s10 & E10 & s11 & E11 & <-).
    apply validate_count_post in E1.
    apply validate_deterministic_post in E2.
    apply validate_input_format_post in E3.
    apply validate_input_post in E4.
    apply validate_count_for_input_format_post in E5.
    apply validate_output_format_post in E6.
    apply validate_output_for_input_post in E7.
    apply validate_ints_specific_post in E8.
    apply validate_bip39_specific_post in E9.
    apply validate_slip39_specific_post in E10.
    apply validate_ur_post in E11.
    pose proof (proj1 E5) as ->. pose proof (proj1 E7) as ->.
    pose proof (proj1 E9) as ->.
    exists s1, s2, s3, s4, s6, s8, s10. repeat split; try assumption;
      try (apply E5); try (apply E7); try (apply E9).
  - intros (s1 & s2 & s3 & s4 & s6 & s8 & s10 & E1 & E2 & E3 & E4 & E5 & E6
            & E7 & E8 & E9 & E10 & E11).
    exists s1. split; [apply validate_count_post; exact E1 |].
    exists s2. split; [apply validate_deterministic_post; exact E2 |].
    exists s3. split; [apply validate_input_format_post; exact E3 |].
    exists s4. split; [apply validate_input_post; exact E4 |].
    exists s4.
    split; [apply validate_count_for_input_format_post; exact E5 |].
    exists s6. split; [apply validate_output_format_post; exact E6 |].
    exists s6. split; [apply validate_output_for_input_post; exact E7 |].
    exists s8. split; [apply validate_ints_specific_post; exact E8 |].
    exists s8. split; [apply validate_bip39_specific_post; exact E9 |].
    exists s10. split; [apply validate_slip39_specific_post; exact E10 |].
    exists s'. split; [apply validate_ur_post; exact E11 | reflexivity].
Qed.


(** The count is the same in every state after the first step. *)
Lemma validated_count_frame (X : Extern) (s1 s2 s3 s4 s6 s8 s10 s' : State) :
  deterministic_post s1 s2 -> input_format_post X s2 s3 ->
  input_post X s3 s4 -> output_format_post X s4 s6 -> ints_post s6 s8 ->
  slip39_post X s8 s10 -> ur_post s10 s' ->
  count (self s8) = count (self s1) /\ count (self s') = count (self s1).
Proof.
  intros P2 P3 P4 P6 P8 P10 P11.
  assert (E2 : count (self s2) = count (self s1)) by frame_by P2.
  assert (E3 : count (self s3) = count (self s2)) by frame_by P3.
  assert (E4 : count (self s4) = count (self s3)) by frame_by P4.
  assert (E6 : count (self s6) = count (self s4)) by frame_by P6.
  assert (E8 : count (self s8) = count (self s6)) by frame_by P8.
  assert (E10 : count (self s10) = count (self s8)) by frame_by P10.
  assert (E11 : count (self s') = count (self s10)) by frame_by P11.
  split; congruence.
Qed.

(** The output descriptor after the last steps: the resource step
    leaves it alone, the SLIP39 step replaces only a SLIP39 one. *)
Lemma validated_output_frame (X : Extern) (s8 s10 s' : State) :
  slip39_post X s8 s10 -> ur_post s10 s' ->
  output_format (self s') = output_format (self s10)
  /\ is_slip39 (output_format (self s10))
     = is_slip39 (output_format (self s8))
  /\ is_bip39 (output_format (self s10)) = is_bip39 (output_format (self s8))
  /\ is_ints (output_format (self s10)) = is_ints (output_format (self s8))
  /\ (is_slip39 (output_format (self s8)) = false ->
      output_format (self s10) = output_format (self s8)).
Proof.
  intros P10 P11.
  assert (E11 : output_format (self s') = output_format (self s10))
    by frame_by P11.
  split; [exact E11 |].
  unfold slip39_post in P10. cbv zeta in P10.
  destruct P10 as [(S10 & _ & _ & gt & groups & _ & _ & _ & ->)
                  | (S10 & _ & _ & ->)].
  - destruct (output_format (self s8)) as [[] |]; try discriminate S10.
    repeat split. discriminate.
  - repeat split.
Qed.

(** X6. After a run of [validate] that returned, the count is the one
    the raw count resolves to, it lies in [1, 64], it is 16 when no
    count was given, and it passes the seed-length predicate of the
    output format when that is BIP39 or SLIP39. *)
Theorem validated_count (X : Extern) (s s' : State) :
  parse_opt_end X s = Ok (tt, s') ->
  1 <= count (self s') <= 64
  /\ resolved_count (Raw.count (raw (self s))) = inr (count (self s'))
  /\ (Raw.count (raw (self s)) = "" -> count (self s') = 16)
  /\ (is_bip39 (output_format (self s')) = true ->
      bip39_is_seed_length_valid X (count (self s')) = true)
  /\ (is_slip39 (output_format (self s')) = true ->
      slip39_is_seed_length_valid X (count (self s')) = true).
Proof.
  intros H. apply validate_returns in H.
  destruct H as (s1 & s2 & s3 & s4 & s6 & s8 & s10 & P1 & P2 & P3 & P4
                 & P5 & P6 & P7 & P8 & P9 & P10 & P11).
  destruct (validated_count_frame X _ _ _ _ _ _ _ _ P2 P3 P4 P6 P8 P10 P11)
    as [C8 C'].
  destruct (validated_output_frame X _ _ _ P10 P11)
    as (O' & Sl & Bi & _ & _).
  destruct P1 as (n & Rn & Bn & E1).
  assert (C1 : count (self s1) = n) by (rewrite E1; reflexivity).
  rewrite C', C1. rewrite O', Sl, Bi.
  split; [exact Bn |]. split; [exact Rn |].
  split; [intros E; rewrite E in Rn; injection Rn as <-; reflexivity |].
  split.
  - destruct P9 as [_ B9]. rewrite C8, C1 in B9. exact B9.
  - intros S. destruct P10 as [(_ & V10 & _) | (S10 & _)].
    + rewrite C8, C1 in V10. exact V10.
    + rewrite S in S10. discriminate.
Qed.

Lemma validated_count_witness :
  exists s',
    parse_opt_end sample (slip39_state 0 three_groups "2") = Ok (tt, s')
    /\ count (self s') = 16.
Proof.
  eexists. split; [reflexivity |].
  apply (proj1 (proj2 (proj2 (validated_count sample
                                (slip39_state 0 three_groups "2") _
                                eq_refl)))).
  reflexivity.
Defined.

(** What the first three steps leave alone. *)
Lemma validated_head_frame (X : Extern) (s s1 s2 s3 : State) :
  count_post s s1 -> deterministic_post s1 s2 -> input_format_post X s2 s3 ->
  raw (self s3) = raw (self s) /\ cin s3 = cin s /\ events s3 = events s
  /\ input (self s3) = input (self s) /\ ur (self s3) = ur (self s)
  /\ output_format (self s3) = output_format (self s)
  /\ is_ur_out (self s3) = is_ur_out (self s)
  /\ max_part_length (self s3) = max_part_length (self s).
Proof.
  intros P1 P2 P3.
  assert (raw (self s1) = raw (self s) /\ cin s1 = cin s
          /\ events s1 = events s /\ input (self s1) = input (self s)
          /\ ur (self s1) = ur (self s)
          /\ output_format (self s1) = output_format (self s)
          /\ is_ur_out (self s1) = is_ur_out (self s)
          /\ max_part_length (self s1) = max_part_length (self s)) as E1
    by (repeat split; frame_by P1).
  assert (raw (self s2) = raw (self s1) /\ cin s2 = cin s1
          /\ events s2 = events s1 /\ input (self s2) = input (self s1)
          /\ ur (self s2) = ur (self s1)
          /\ output_format (self s2) = output_format (self s1)
          /\ is_ur_out (self s2) = is_ur_out (self s1)
          /\ max_part_length (self s2) = max_part_length (self s1)) as E2
    by (repeat split; frame_by P2).
  assert (raw (self s3) = raw (self s2) /\ cin s3 = cin s2
          /\ events s3 = events s2 /\ input (self s3) = input (self s2)
          /\ ur (self s3) = ur (self s2)
          /\ output_format (self s3) = output_format (self s2)
          /\ is_ur_out (self s3) = is_ur_out (self s2)
          /\ max_part_length (self s3) = max_part_length (self s2)) as E3
    by (repeat split; frame_by P3).
  decompose [and] E1. decompose [and] E2. decompose [and] E3.
  repeat split; congruence.
Qed.

(** What the steps after the input acquisition leave alone. *)
Lemma validated_tail_frame (X : Extern) (s4 s6 s8 s10 s' : State) :
  output_format_post X s4 s6 -> ints_post s6 s8 -> slip39_post X s8 s10 ->
  ur_post s10 s' ->
  (raw (self s') = raw (self s4) /\ cin s' = cin s4 /\ events s' = events s4
   /\ input (self s') = input (self s4) /\ ur (self s') = ur (self s4)
   /\ input_format (self s') = input_format (self s4)
   /\ is_ur_in (self s') = is_ur_in (self s4)
   /\ rng (self s') = rng (self s4))
  /\ (raw (self s6) = raw (self s4)
      /\ input_format (self s6) = input_format (self s4)
      /\ is_ur_in (self s6) = is_ur_in (self s4))
  /\ (raw (self s8) = raw (self s4) /\ raw (self s10) = raw (self s4)
      /\ is_ur_in (self s10) = is_ur_in (self s4)
      /\ is_ur_out (self s10) = is_ur_out (self s4)
      /\ max_part_length (self s10) = max_part_length (self s4)).
Proof.
  intros P6 P8 P10 P11.
  assert (raw (self s6) = raw (self s4) /\ cin s6 = cin s4
          /\ events s6 = events s4 /\ input (self s6) = input (self s4)
          /\ ur (self s6) = ur (self s4)
          /\ input_format (self s6) = input_format (self s4)
          /\ is_ur_in (self s6) = is_ur_in (self s4)
          /\ rng (self s6) = rng (self s4)
          /\ is_ur_out (self s6) = is_ur_out (self s4)
          /\ max_part_length (self s6) = max_part_length (self s4)) as E6
    by (repeat split; frame_by P6).
  assert (raw (self s8) = raw (self s6) /\ cin s8 = cin s6
          /\ events s8 = events s6 /\ input (self s8) = input (self s6)
          /\ ur (self s8) = ur (self s6)
          /\ input_format (self s8) = input_format (self s6)
          /\ is_ur_in (self s8) = is_ur_in (self s6)
          /\ rng (self s8) = rng (self s6)
          /\ is_ur_out (self s8) = is_ur_out (self s6)
          /\ max_part_length (self s8) = max_part_length (self s6)) as E8
    by (repeat split; frame_by P8).
  assert (raw (self s10) = raw (self s8) /\ cin s10 = cin s8
          /\ events s10 = events s8 /\ input (self s10) = input (self s8)
          /\ ur (self s10) = ur (self s8)
          /\ input_format (self s10) = input_format (self s8)
          /\ is_ur_in (self s10) = is_ur_in (self s8)
          /\ rng (self s10) = rng (self s8)
          /\ is_ur_out (self s10) = is_ur_out (self s8)
          /\ max_part_length (self s10) = max_part_length (self s8)) as E10
    by (repeat split; frame_by P10).
  assert (raw (self s') = raw (self s10) /\ cin s' = cin s10
          /\ events s' = events s10 /\ input (self s') = input (self s10)
          /\ ur (self s') = ur (self s10)
          /\ input_format (self s') = input_format (self s10)
          /\ is_ur_in (self s') = is_ur_in (self s10)
          /\ rng (self s') = rng (self s10)) as E11
    by (repeat split; frame_by P11).
  decompose [and] E6. decompose [and] E8. decompose [and] E10.
  decompose [and] E11.
  repeat split; congruence.
Qed.

(** What the input acquisition does to the members it touches. *)
Lemma input_post_frame (X : Extern) (s s' : State) :
  input_post X s s' ->
  same_options s s'
  /\ count (self s') = count (self s) /\ rng (self s') = rng (self s)
  /\ output_format (self s') = output_format (self s)
  /\ is_ur_in (self s') = is_ur_in (self s)
  /\ is_ur_out (self s') = is_ur_out (self s)
  /\ max_part_length (self s') = max_part_length (self s).
Proof.
  intros P. unfold same_options. cbv zeta. repeat split; frame_by P.
Qed.

Lemma format_for_tag_formats (X : Extern) (tag : string) (f : Format) :
  format_for_tag X tag = Some f ->
  is_random (Some f) = false
  /\ (f = FormatHex \/ f = FormatBIP39 \/ is_slip39 (Some f) = true).
Proof.
  unfold format_for_tag.
  destruct (tag =? "crypto-seed")%string; [intros [= <-]; auto |].
  destruct (tag =? "crypto-bip39")%string; [intros [= <-]; auto |].
  destruct (tag =? "crypto-slip39")%string; [intros [= <-]; auto |].
  discriminate.
Qed.

(** The input acquisition, read from the state it leaves. *)
Lemma input_post_facts (X : Extern) (s s' : State) :
  input_post X s s' ->
  (is_random (input_format (self s')) = true ->
   Raw.args (raw (self s)) = [] /\ s' = s)
  /\ (is_random (input_format (self s')) = false ->
      acquired_input s <> []
      /\ input (self s') = acquired_input s
      /\ Raw.args (raw (self s')) = acquired_input s
      /\ cin s' = (if vec_empty (Raw.args (raw (self s))) then [] else cin s)
      /\ events s'
         = (events s
            ++ added_events (vec_empty (Raw.args (raw (self s))))
                 (is_ur_in (self s)) (cin s) (acquired_input s))%list
      /\ (is_ur_in (self s) = false ->
          input_format (self s') = input_format (self s)
          /\ ur (self s') = ur (self s))
      /\ (is_ur_in (self s) = true ->
          exists tag f,
            ur_decode X (acquired_input s) = inr tag
            /\ format_for_tag X tag = Some f
            /\ input_format (self s') = Some f
            /\ ur (self s') = Some (mk_UR tag))).
Proof.
  unfold input_post, added_events.
  intros [(R & A & ->) | (R & I & [(U & ->) | (U & tag & f & D & F & ->)])].
  - split; [intros _; split; [exact A | reflexivity] |].
    intros C. rewrite R in C. discriminate.
  - split.
    + intros C. change (is_random (input_format (self s)) = true) in C.
      rewrite R in C. discriminate.
    + intros _. rewrite U. cbn [self cin events acquired_state].
      split; [exact I |]. split; [reflexivity |]. split; [reflexivity |].
      split; [reflexivity |]. split.
      * destruct (vec_empty (Raw.args (raw (self s)))); cbn [app];
          rewrite ?app_nil_r; reflexivity.
      * split; [intros _; split; reflexivity | discriminate].
  - destruct (format_for_tag_formats X tag f F) as [NR _]. split.
    + intros C. change (is_random (Some f) = true) in C.
      rewrite NR in C. discriminate.
    + intros _. rewrite U. unfold decoded. cbn [self cin events acquired_state].
      split; [exact I |]. split; [reflexivity |]. split; [reflexivity |].
      split; [reflexivity |]. split.
      * destruct (vec_empty (Raw.args (raw (self s)))); cbn [app];
          rewrite <- ?app_assoc; reflexivity.
      * split; [discriminate |]. intros _. exists tag, f.
        repeat split; assumption.
Qed.

(** X7. After a run of [validate] that returned with a hex or BC32
    input format, no count was given and the count is 16. *)
Theorem validated_count_of_byte_input (X : Extern) (s s' : State) :
  parse_opt_end X s = Ok (tt, s') ->
  is_hex (input_format (self s')) || is_bc32 (input_format (self s')) = true ->
  Raw.count (raw (self s)) = "" /\ count (self s') = 16.
Proof.
  intros H Hb. apply validate_returns in H.
  destruct H as (s1 & s2 & s3 & s4 & s6 & s8 & s10 & P1 & P2 & P3 & P4
                 & P5 & P6 & P7 & P8 & P9 & P10 & P11).
  destruct (validated_head_frame X _ _ _ _ P1 P2 P3) as (R3 & _).
  destruct (validated_tail_frame X _ _ _ _ _ P6 P8 P10 P11)
    as ((_ & _ & _ & _ & _ & F' & _) & _).
  destruct (input_post_frame X _ _ P4) as ((Rc & _) & _).
  destruct (validated_count_frame X _ _ _ _ _ _ _ _ P2 P3 P4 P6 P8 P10 P11)
    as [_ C'].
  destruct P5 as [_ C5]. rewrite F' in Hb. specialize (C5 Hb).
  rewrite Rc, R3 in C5. split; [exact C5 |].
  destruct P1 as (n & Rn & _ & E1). rewrite C', E1. cbn.
  rewrite C5 in Rn. injection Rn as <-. reflexivity.
Qed.

Lemma validated_count_of_byte_input_witness :
  exists s',
    parse_opt_end sample (count_state "hex" "" ["deadbeef"]) = Ok (tt, s')
    /\ count (self s') = 16.
Proof.
  eexists. split; [reflexivity |].
  apply (validated_count_of_byte_input sample
           (count_state "hex" "" ["deadbeef"]) _ eq_refl).
  reflexivity.
Defined.

(** X8. After a run of [validate] that returned, the random source is
    selected: the deterministic generator with the seed given, or the
    secure one when no seed was given. *)
Theorem validated_rng (X : Extern) (s s' : State) :
  parse_opt_end X s = Ok (tt, s') ->
  let seed := Raw.random_deterministic (raw (self s)) in
  (seed = "" -> rng (self s') = Some crypto_random)
  /\ (seed <> "" -> rng (self s') = Some (deterministic_random seed)).
Proof.
  intros H seed. apply validate_returns in H.
  destruct H as (s1 & s2 & s3 & s4 & s6 & s8 & s10 & P1 & P2 & P3 & P4
                 & P5 & P6 & P7 & P8 & P9 & P10 & P11).
  destruct (validated_tail_frame X _ _ _ _ _ P6 P8 P10 P11)
    as ((_ & _ & _ & _ & _ & _ & _ & G') & _).
  destruct (input_post_frame X _ _ P4) as (_ & _ & G4 & _).
  assert (G3 : rng (self s3) = rng (self s2)) by frame_by P3.
  assert (R1 : raw (self s1) = raw (self s)) by frame_by P1.
  unfold deterministic_post in P2. rewrite R1 in P2. fold seed in P2.
  assert (G2 : rng (self s2) = Some (selected_rng seed))
    by (rewrite P2; reflexivity).
  rewrite G', G4, G3, G2. unfold selected_rng. split; intros E.
  - rewrite (str_empty_true _ E). reflexivity.
  - rewrite (str_empty_false _ E). reflexivity.
Qed.

Lemma validated_rng_witness :
  exists s',
    parse_opt_end sample
      (start (set_raw_random_deterministic "test" Raw.empty) [])
    = Ok (tt, s')
    /\ rng (self s') = Some (deterministic_random "test").
Proof.
  eexists. split; [reflexivity |].
  apply (proj2 (validated_rng sample
                  (start (set_raw_random_deterministic "test" Raw.empty) [])
                  _ eq_refl)).
  discriminate.
Defined.

Lemma same_options_of_raw (s s' : State) :
  raw (self s') = raw (self s) -> same_options s s'.
Proof. intros E. unfold same_options. cbv zeta. rewrite E. repeat split. Qed.

Lemma same_options_trans (s1 s2 s3 : State) :
  same_options s1 s2 -> same_options s2 s3 -> same_options s1 s3.
Proof.
  unfold same_options. cbv zeta. intros H1 H2.
  decompose [and] H1. decompose [and] H2. repeat split; congruence.
Qed.

(** The input of a run that returned, and what the run did to standard
    input. *)
Lemma validated_input_facts (X : Extern) (s s' : State) :
  parse_opt_end X s = Ok (tt, s') ->
  let args := Raw.args (raw (self s)) in
  same_options s s'
  /\ (is_random (input_format (self s')) = true ->
      args = [] /\ raw (self s') = raw (self s)
      /\ input (self s') = input (self s)
      /\ cin s' = cin s /\ events s' = events s)
  /\ (is_random (input_format (self s')) = false ->
      input (self s') = acquired_input s
      /\ input (self s') <> []
      /\ Raw.args (raw (self s')) = input (self s')
      /\ cin s' = (if vec_empty args then [] else cin s)
      /\ events s'
         = (events s
            ++ added_events (vec_empty args) (is_ur_in (self s')) (cin s)
                 (input (self s')))%list).
Proof.
  intros H args. apply validate_returns in H.
  destruct H as (s1 & s2 & s3 & s4 & s6 & s8 & s10 & P1 & P2 & P3 & P4
                 & P5 & P6 & P7 & P8 & P9 & P10 & P11).
  destruct (validated_head_frame X _ _ _ _ P1 P2 P3)
    as (R3 & C3 & E3 & I3 & _).
  destruct (validated_tail_frame X _ _ _ _ _ P6 P8 P10 P11)
    as ((R' & C' & E' & I' & _ & F' & U' & _) & _).
  destruct (input_post_frame X _ _ P4) as (O4 & _ & _ & _ & U4 & _).
  destruct (input_post_facts X _ _ P4) as [Fr Fn].
  assert (A3 : acquired_input s3 = acquired_input s)
    by (unfold acquired_input; rewrite R3, C3; reflexivity).
  split.
  - apply same_options_trans with s3; [apply same_options_of_raw; exact R3 |].
    apply same_options_trans with s4; [exact O4 |].
    apply same_options_of_raw. exact R'.
  - rewrite F', R', I', C', E', U'. split.
    + intros Hr. destruct (Fr Hr) as [A ->].
      unfold args. rewrite <- R3. repeat split; assumption.
    + intros Hr. destruct (Fn Hr) as (N & I & A & C & E & _).
      rewrite I, A, C, E, A3, R3, C3, E3, U4. fold args.
      rewrite A3 in N. repeat split. exact N.
Qed.

(** X9. A run of [validate] that returned has left every raw option
    but the positional arguments as it was.  With the random input
    format there were no positional arguments and standard input was
    not touched.  With any other input format the input is not empty:
    it is the positional arguments when there are some, and standard
    input is then not touched; otherwise it is all the lines of
    standard input, read once.  The resource decoder ran once, after
    that, on this input when the input method is ur, and not at all
    otherwise. *)
Theorem validated_input (X : Extern) (s s' : State) :
  parse_opt_end X s = Ok (tt, s') ->
  let args := Raw.args (raw (self s)) in
  same_options s s'
  /\ (is_random (input_format (self s')) = true ->
      args = [] /\ raw (self s') = raw (self s)
      /\ input (self s') = input (self s)
      /\ cin s' = cin s /\ events s' = events s)
  /\ (is_random (input_format (self s')) = false ->
      input (self s') = acquired_input s
      /\ input (self s') <> []
      /\ Raw.args (raw (self s')) = input (self s')
      /\ cin s' = (if vec_empty args then [] else cin s)
      /\ events s'
         = (events s
            ++ added_events (vec_empty args) (is_ur_in (self s')) (cin s)
                 (input (self s')))%list).
Proof. apply validated_input_facts. Qed.

Lemma validated_input_witness :
  let s := start (Raw.mk "" "" [] "" "" "ur" "bip39" "" false "" [])
             ["ur:crypto-bip39/x"] in
  let s' := run_state sample s in
  parse_opt_end sample s = Ok (tt, s')
  /\ input (self s') = ["ur:crypto-bip39/x"]
  /\ cin s' = []
  /\ events s' = [ReadStdin ["ur:crypto-bip39/x"];
                  DecodeUR ["ur:crypto-bip39/x"]].
Proof.
  intros s s'.
  assert (H : parse_opt_end sample s = Ok (tt, s'))
    by (vm_compute; reflexivity).
  assert (R : is_random (input_format (self s')) = false)
    by (vm_compute; reflexivity).
  split; [exact H |].
  destruct (proj2 (proj2 (validated_input sample s s' H)) R)
    as (I & _ & _ & C & E).
  rewrite I, C, E. vm_compute. repeat split.
Defined.

(** X10. [get_one_argument] returns a string exactly when the input is
    that one string, and throws "Only one argument accepted." for an
    empty input and for more than one; after a run of [validate] that
    returned with an input format other than random and one positional
    argument, it returns that argument. *)
Theorem get_one_argument_single (X : Extern) (s s' : State) (a : string) :
  (forall p, get_one_argument p = inr a <-> input p = [a])
  /\ (forall p,
        List.length (input p) <> 1%nat ->
        get_one_argument p = inl (runtime_error "Only one argument accepted."))
  /\ (parse_opt_end X s = Ok (tt, s') ->
      is_random (input_format (self s')) = false ->
      Raw.args (raw (self s)) = [a] ->
      get_one_argument (self s') = inr a
      /\ get_multiple_arguments (self s') = [a]).
Proof.
  assert (G : forall p, get_one_argument p = inr a <-> input p = [a]).
  { intros p. unfold get_one_argument.
    destruct (input p) as [| x [| y l]].
    - cbn. split; discriminate.
    - cbn. split; intros E; injection E as ->; reflexivity.
    - replace (size (x :: y :: l) =? 1) with false
        by (symmetry; apply Z.eqb_neq; unfold size; cbn [List.length]; lia).
      cbn. split; discriminate. }
  split; [exact G |]. split.
  - intros p L. unfold get_one_argument, size.
    destruct (Z.eqb_spec (Z.of_nat (List.length (input p))) 1) as [C | C];
      [lia | reflexivity].
  - intros H R A.
    destruct (proj2 (proj2 (validated_input_facts X s s' H)) R)
      as (I & _).
    unfold acquired_input in I. rewrite A in I. cbn in I.
    split; [apply G; exact I | exact I].
Qed.

Lemma get_one_argument_single_witness :
  exists s',
    parse_opt_end sample (count_state "hex" "" ["deadbeef"]) = Ok (tt, s')
    /\ get_one_argument (self s') = inr "deadbeef".
Proof.
  eexists. split; [reflexivity |].
  apply (proj2 (proj2 (get_one_argument_single sample
                         (count_state "hex" "" ["deadbeef"]) _ "deadbeef"))
           eq_refl eq_refl eq_refl).
Defined.

(* ================================================================== *)
(** ** The descriptors of a run that returned *)

(** The input descriptor is resolved once the input has been
    acquired. *)
Lemma input_resolved (X : Extern) (s2 s3 s4 : State) :
  input_format_post X s2 s3 -> input_post X s3 s4 ->
  exists i, input_format (self s4) = Some i.
Proof.
  intros P3 P4. unfold input_format_post, input_post in *. cbv zeta in *.
  destruct P4 as [(R & _ & ->)
                 | (R & _ & [(U & ->) | (U & tag & f & _ & _ & ->)])].
  - destruct (input_format (self s3)) as [i |]; [| discriminate].
    exists i. reflexivity.
  - destruct P3 as [(_ & ->) | (_ & f & -> & _)].
    + discriminate U.
    + exists f. reflexivity.
  - exists f. reflexivity.
Qed.

(** The capabilities of a descriptor are those of its class. *)
Lemma capabilities_of_name (o o' : Format) :
  name o' = name o ->
  is_hex (Some o') = is_hex (Some o) /\ is_bc32 (Some o') = is_bc32 (Some o)
  /\ is_bip39 (Some o') = is_bip39 (Some o)
  /\ is_slip39 (Some o') = is_slip39 (Some o)
  /\ is_ints (Some o') = is_ints (Some o)
  /\ is_random (Some o') = is_random (Some o).
Proof. destruct o, o'; intros E; try discriminate E; repeat split. Qed.

(** The output descriptor after the last four steps is of the class
    [validate_output_format] selected. *)
Lemma output_class_frame (X : Extern) (s6 s8 s10 s' : State) (o : Format) :
  output_format (self s6) = Some o ->
  ints_post s6 s8 -> slip39_post X s8 s10 -> ur_post s10 s' ->
  exists o', output_format (self s') = Some o' /\ name o' = name o.
Proof.
  intros O6 P8 P10 P11.
  assert (E11 : output_format (self s') = output_format (self s10))
    by frame_by P11.
  rewrite E11. clear E11 P11.
  assert (O8 : exists o8, output_format (self s8) = Some o8
                          /\ name o8 = name o).
  { unfold ints_post in P8. cbv zeta in P8.
    destruct P8 as [(l0 & h0 & low & high & O & _ & _ & _ & _ & ->)
                   | (_ & _ & _ & ->)].
    - rewrite O6 in O. injection O as ->. eexists. split; reflexivity.
    - exists o. split; [exact O6 | reflexivity]. }
  destruct O8 as (o8 & O8 & N8).
  unfold slip39_post in P10. cbv zeta in P10.
  destruct P10 as [(S & _ & _ & gt & groups & _ & _ & _ & ->)
                  | (_ & _ & _ & ->)].
  - rewrite O8 in S. destruct o8; try discriminate S.
    eexists. split; [reflexivity | exact N8].
  - exists o8. split; [exact O8 | exact N8].
Qed.

Lemma compatible_accepted (u : bool) (i o : Format) :
  compatible_b u (Some i) (Some o) = true <-> accepted u i o.
Proof.
  unfold accepted.
  destruct u, i, o; cbv; split; intros H; try discriminate;
    try congruence; auto 10;
    repeat (destruct H as [H | H]; try discriminate);
    try (destruct H as (? & ? & ?); discriminate).
Qed.

(** The two descriptors of a run that returned. *)
Lemma validated_formats_facts (X : Extern) (s s' : State) :
  parse_opt_end X s = Ok (tt, s') ->
  exists i o,
    input_format (self s') = Some i
    /\ output_format (self s') = Some o
    /\ o <> FormatRandom
    /\ accepted (is_ur_in (self s')) i o
    /\ (Raw.output_format (raw (self s)) = "" -> o = FormatHex)
    /\ (Raw.output_format (raw (self s)) <> "" ->
        name o = Raw.output_format (raw (self s))).
Proof.
  intros H.
  pose proof (proj1 (validated_input_facts X s s' H)) as Opt.
  apply validate_returns in H.
  destruct H as (s1 & s2 & s3 & s4 & s6 & s8 & s10 & P1 & P2 & P3 & P4
                 & P5 & P6 & P7 & P8 & P9 & P10 & P11).
  destruct (validated_head_frame X _ _ _ _ P1 P2 P3) as (R3 & _).
  destruct (input_post_frame X _ _ P4)
    as ((_ & _ & _ & _ & _ & _ & Ro & _) & _).
  destruct (validated_tail_frame X _ _ _ _ _ P6 P8 P10 P11)
    as ((_ & _ & _ & _ & _ & F' & U' & _) & (_ & F6 & U6) & _).
  destruct (input_resolved X _ _ _ P3 P4) as (i & I4).
  destruct P7 as [_ C7]. rewrite F6, U6, I4 in C7.
  unfold output_format_post in P6. cbv zeta in P6.
  destruct P6 as (o & E6 & NR & N6).
  assert (O6 : output_format (self s6) = Some o) by (rewrite E6; reflexivity).
  rewrite O6 in C7.
  destruct (output_class_frame X _ _ _ _ o O6 P8 P10 P11) as (o' & O' & N').
  destruct (capabilities_of_name o o' N') as (Ch & Cb & Cp & Cs & _ & Cr).
  exists i, o'. rewrite F', U', I4, O'.
  split; [reflexivity |]. split; [reflexivity |]. split.
  - intros ->. destruct o; try discriminate N'. congruence.
  - split.
    + apply compatible_accepted. unfold compatible_b in *.
      rewrite Ch, Cb, Cp, Cs. exact C7.
    + rewrite Ro, R3 in N6. destruct N6 as [[Ne ->] | [Ne R]]; split.
      * intros _. destruct o'; try discriminate N'. reflexivity.
      * congruence.
      * congruence.
      * intros _. rewrite N'. apply (resolved_format_name X _ _ R).
Qed.

(** X11. After a run of [validate] that returned, both descriptors are
    resolved; the output descriptor is hex when no name was given and
    bears the name given otherwise, and is never the random one; and the
    pair passes the compatibility matrix.  So, unless the input arrived
    as a resource, an input format other than random, hex and BC32 has
    hex or BC32 output. *)
Theorem validated_formats (X : Extern) (s s' : State) :
  parse_opt_end X s = Ok (tt, s') ->
  exists i o,
    input_format (self s') = Some i
    /\ output_format (self s') = Some o
    /\ o <> FormatRandom
    /\ accepted (is_ur_in (self s')) i o
    /\ (Raw.output_format (raw (self s)) = "" -> o = FormatHex)
    /\ (Raw.output_format (raw (self s)) <> "" ->
        name o = Raw.output_format (raw (self s)))
    /\ (is_ur_in (self s') = false ->
        i <> FormatRandom -> i <> FormatHex -> i <> FormatBC32 ->
        o = FormatHex \/ o = FormatBC32).
Proof.
  intros H.
  destruct (validated_formats_facts X s s' H)
    as (i & o & I & O & NR & A & N1 & N2).
  exists i, o. repeat (split; [assumption |]).
  intros U Hr Hh Hb. unfold accepted in A. rewrite U in A.
  destruct A as [A | [A | [A | [A | [A | [A | A]]]]]]; auto;
    try contradiction; destruct A as [A _]; discriminate A.
Qed.

Lemma validated_formats_witness :
  let s := count_state "bip39" "" ["legal winner thank year"] in
  let s' := run_state sample s in
  parse_opt_end sample s = Ok (tt, s')
  /\ exists i o,
       input_format (self s') = Some i /\ output_format (self s') = Some o
       /\ accepted (is_ur_in (self s')) i o /\ o = FormatHex.
Proof.
  intros s s'.
  assert (H : parse_opt_end sample s = Ok (tt, s'))
    by (vm_compute; reflexivity).
  split; [exact H |].
  destruct (validated_formats sample s s' H)
    as (i & o & I & O & _ & A & N & _).
  exists i, o. repeat (split; [assumption |]). apply N. reflexivity.
Defined.

Lemma resolved_format_ints (X : Extern) (n : string) (l h : Z) :
  resolved_format X n = Some (FormatInts l h) ->
  l = fst (new_FormatInts X) /\ h = snd (new_FormatInts X).
Proof.
  unfold resolved_format, FormatInts_new, FormatSLIP39_new.
  destruct (key_for_string n); try discriminate.
  intros [= <- <-]. split; reflexivity.
Qed.

(** X12. After a run of [validate] that returned with ints output, the
    bounds the descriptor carries are the raw --low and --high as [stoi]
    reads them, or the ones built into the format where none was given,
    and 0 <= low < high <= 255.  With any other output neither --low
    nor --high was given. *)
Theorem validated_ints (X : Extern) (s s' : State) :
  parse_opt_end X s = Ok (tt, s') ->
  let r := raw (self s) in
  (forall l h,
     output_format (self s') = Some (FormatInts l h) ->
     0 <= l < h /\ h <= 255
     /\ resolved_bound (Raw.ints_low r) (fst (new_FormatInts X)) = inr l
     /\ resolved_bound (Raw.ints_high r) (snd (new_FormatInts X)) = inr h)
  /\ (is_ints (output_format (self s')) = false ->
      Raw.ints_low r = "" /\ Raw.ints_high r = "").
Proof.
  intros H r. apply validate_returns in H.
  destruct H as (s1 & s2 & s3 & s4 & s6 & s8 & s10 & P1 & P2 & P3 & P4
                 & P5 & P6 & P7 & P8 & P9 & P10 & P11).
  destruct (validated_head_frame X _ _ _ _ P1 P2 P3) as (R3 & _).
  destruct (input_post_frame X _ _ P4)
    as ((_ & _ & _ & Rh & Rl & _ & Ro & _) & _).
  destruct (validated_tail_frame X _ _ _ _ _ P6 P8 P10 P11)
    as (_ & (R6 & _) & _).
  destruct (validated_output_frame X _ _ _ P10 P11)
    as (O' & _ & _ & In & Keep).
  rewrite O'.
  unfold output_format_post in P6. cbv zeta in P6.
  destruct P6 as (o & E6 & _ & N6).
  assert (O6 : output_format (self s6) = Some o) by (rewrite E6; reflexivity).
  unfold ints_post in P8. cbv zeta in P8.
  rewrite R6, Rl, Rh, R3 in P8. fold r in P8.
  destruct P8 as [(l0 & h0 & low & high & O & L & Hh & B1 & B2 & E8)
                 | (I & L & Hh & E8)].
  - assert (O8 : output_format (self s8) = Some (FormatInts low high))
      by (rewrite E8; reflexivity).
    assert (S8 : is_slip39 (output_format (self s8)) = false)
      by (rewrite O8; reflexivity).
    rewrite (Keep S8), O8. rewrite O6 in O. injection O as ->.
    destruct N6 as [[_ C] | [_ R]]; [discriminate C |].
    destruct (resolved_format_ints X _ _ _ R) as [-> ->].
    split.
    + intros l h [= <- <-]. repeat split; assumption || lia.
    + cbn. discriminate.
  - subst s8. split.
    + intros l h O10.
      assert (C : is_ints (output_format (self s10)) = true)
        by (rewrite O10; reflexivity).
      rewrite In, I in C. discriminate C.
    + intros _. split; assumption.
Qed.

Lemma validated_ints_witness :
  let s := start (Raw.mk "" "" [] "" "3" "" "ints" "" false "" []) [] in
  let s' := run_state sample s in
  parse_opt_end sample s = Ok (tt, s')
  /\ output_format (self s') = Some (FormatInts 3 9)
  /\ 0 <= 3 < 9.
Proof.
  intros s s'.
  assert (H : parse_opt_end sample s = Ok (tt, s'))
    by (vm_compute; reflexivity).
  assert (O : output_format (self s') = Some (FormatInts 3 9))
    by (vm_compute; reflexivity).
  split; [exact H |]. split; [exact O |].
  apply (proj1 (validated_ints sample s s' H) 3 9 O).
Defined.

(** The group list of [validate_slip39_specific], once it is built. *)
Lemma build_groups_facts (X : Extern) (specs : list string) (s s1 : State)
  (gs : list group_descriptor) :
  build_groups X specs s = Ok (gs, s1) ->
  Forall group_ok gs
  /\ (specs = [] -> gs = [mk_group 1 1 None])
  /\ (specs <> [] -> Forall2 parsed_as specs gs).
Proof.
  unfold build_groups, size. destruct specs as [| spec rest].
  - cbn. intros [= <- <-]. split; [| split; [reflexivity | congruence] ].
    constructor; [split; reflexivity | constructor].
  - replace (Z.of_nat (List.length (spec :: rest)) =? 0) with false
      by (symmetry; apply Z.eqb_neq; cbn [List.length]; lia).
    intros E. pose proof (parse_groups_outcome X (spec :: rest) [] s) as O.
    rewrite E in O. destruct O as (_ & new & -> & F). cbn [app].
    split; [| split; [discriminate | intros _; exact F] ].
    clear E. induction F as [| ? ? ? ? [_ G] _ IH]; constructor; assumption.
Qed.

(** X13. After a run of [validate] that returned with SLIP39 output,
    the descriptor carries a groups threshold gt and a group list with
    1 <= gt <= number of groups; gt is the raw --group-threshold as
    [stoi] reads it, or 1 when none was given; the list is the single
    group 1-of-1 when no --group was given, and otherwise holds the two
    numbers of each --group in the order given; every group satisfies
    1 <= T <= N <= 16 and (N > 1 implies T <> 1), and there are at most
    [MAX_GROUPS] specifiers.  With any other output neither --group nor
    --group-threshold was given. *)
Theorem validated_slip39 (X : Extern) (s s' : State) :
  parse_opt_end X s = Ok (tt, s') ->
  let r := raw (self s) in
  (forall gt gs,
     output_format (self s') = Some (FormatSLIP39 gt gs) ->
     1 <= gt <= size gs
     /\ resolved_groups_threshold (Raw.slip39_groups_threshold r) = inr gt
     /\ Forall group_ok gs
     /\ (Raw.slip39_groups r = [] -> gs = [mk_group 1 1 None])
     /\ (Raw.slip39_groups r <> [] -> Forall2 parsed_as (Raw.slip39_groups r) gs)
     /\ (List.length (Raw.slip39_groups r) <= MAX_GROUPS X)%nat)
  /\ (is_slip39 (output_format (self s')) = false ->
      Raw.slip39_groups r = [] /\ Raw.slip39_groups_threshold r = "").
Proof.
  intros H r. apply validate_returns in H.
  destruct H as (s1 & s2 & s3 & s4 & s6 & s8 & s10 & P1 & P2 & P3 & P4
                 & P5 & P6 & P7 & P8 & P9 & P10 & P11).
  destruct (validated_head_frame X _ _ _ _ P1 P2 P3) as (R3 & _).
  destruct (input_post_frame X _ _ P4)
    as ((_ & _ & Rg & _ & _ & _ & _ & Rt & _) & _).
  destruct (validated_tail_frame X _ _ _ _ _ P6 P8 P10 P11)
    as (_ & _ & (R8 & _)).
  destruct (validated_output_frame X _ _ _ P10 P11) as (O' & Sl & _).
  rewrite O'.
  unfold slip39_post in P10. cbv zeta in P10.
  rewrite R8, Rg, Rt, R3 in P10. fold r in P10.
  destruct P10 as [(S & _ & M & gt & groups & B & T & Rn & E10)
                  | (S & G & T & E10)].
  - assert (O10 : output_format (self s10) = Some (FormatSLIP39 gt groups))
      by (rewrite E10; reflexivity).
    rewrite O10.
    destruct (build_groups_facts X _ _ _ _ B) as (Gk & G0 & G1).
    split.
    + intros gt' gs [= <- <-]. repeat split; assumption || lia.
    + discriminate.
  - subst s10. split.
    + intros gt gs O. rewrite O in S. discriminate S.
    + intros _. split; assumption.
Qed.

Lemma validated_slip39_witness :
  let s := slip39_state 16 three_groups "2" in
  let s' := run_state sample s in
  parse_opt_end sample s = Ok (tt, s')
  /\ exists gt gs,
       output_format (self s') = Some (FormatSLIP39 gt gs)
       /\ 1 <= gt <= size gs /\ Forall group_ok gs.
Proof.
  intros s s'.
  assert (H : parse_opt_end sample s = Ok (tt, s'))
    by (vm_compute; reflexivity).
  assert (O : output_format (self s')
              = Some (FormatSLIP39 2 [mk_group 2 3 None; mk_group 3 5 None;
                                      mk_group 2 2 None]))
    by (vm_compute; reflexivity).
  split; [exact H |].
  destruct (proj1 (validated_slip39 sample s s' H) _ _ O)
    as (B & _ & G & _).
  eexists _, _. split; [exact O |]. split; [exact B | exact G].
Defined.

(** X14. A run of [validate] on an object whose resource flags are not
    yet set and whose input descriptor is not yet resolved, when it
    returns: the input flag is set exactly for the input method ur, the
    output flag exactly when --ur was given, and never both.  With --ur
    the output format is hex, BIP39 or SLIP39 and the maximum part
    length is the raw value as [stoi] reads it, or 2500.  With the input
    method ur the decoded resource is stored and its type tag selected
    the input format; with any other input method no resource is
    stored, and the input descriptor is the random one when no name was
    given and bears the name given otherwise. *)
Theorem validated_ur (X : Extern) (s s' : State) :
  parse_opt_end X s = Ok (tt, s') ->
  is_ur_in (self s) = false ->
  is_ur_out (self s) = false ->
  is_random (input_format (self s)) = false ->
  let r := raw (self s) in
  is_ur_in (self s') = (Raw.input_format r =? "ur")%string
  /\ is_ur_out (self s') = Raw.is_ur r
  /\ is_ur_in (self s') && is_ur_out (self s') = false
  /\ (Raw.is_ur r = true ->
      ur_capable (output_format (self s')) = true
      /\ resolved_max_part_length (Raw.max_part_length r)
         = inr (max_part_length (self s')))
  /\ (Raw.is_ur r = false ->
      max_part_length (self s') = max_part_length (self s))
  /\ (Raw.input_format r = "ur" ->
      exists tag f,
        ur_decode X (input (self s')) = inr tag
        /\ ur (self s') = Some (mk_UR tag)
        /\ format_for_tag X tag = Some f
        /\ input_format (self s') = Some f)
  /\ (Raw.input_format r <> "ur" ->
      ur (self s') = ur (self s)
      /\ (Raw.input_format r = "" ->
          input_format (self s') = Some FormatRandom)
      /\ (Raw.input_format r <> "" ->
          name_of (input_format (self s')) = Raw.input_format r)).
Proof.
  intros H Ui Uo Nr r. apply validate_returns in H.
  destruct H as (s1 & s2 & s3 & s4 & s6 & s8 & s10 & P1 & P2 & P3 & P4
                 & P5 & P6 & P7 & P8 & P9 & P10 & P11).
  destruct (validated_head_frame X _ _ _ _ P1 P2 P3)
    as (R3 & _ & _ & _ & Ur3 & _ & Uo3 & M3).
  destruct (input_post_frame X _ _ P4)
    as ((_ & _ & _ & _ & _ & _ & _ & _ & Ru & Rm) & _ & _ & _ & Ui4 & Uo4
        & M4).
  destruct (validated_tail_frame X _ _ _ _ _ P6 P8 P10 P11)
    as ((_ & _ & _ & I' & Ur' & F' & Ui' & _) & _
        & (_ & R10 & Ui10 & Uo10 & M10)).
  destruct (validated_output_frame X _ _ _ P10 P11) as (O' & _).
  assert (Ui2 : is_ur_in (self s2) = false).
  { assert (E1 : is_ur_in (self s1) = is_ur_in (self s)) by frame_by P1.
    assert (E2 : is_ur_in (self s2) = is_ur_in (self s1)) by frame_by P2.
    congruence. }
  assert (F2 : input_format (self s2) = input_format (self s)).
  { assert (E1 : input_format (self s1) = input_format (self s))
      by frame_by P1.
    assert (E2 : input_format (self s2) = input_format (self s1))
      by frame_by P2.
    congruence. }
  assert (R2 : raw (self s2) = raw (self s)).
  { assert (E1 : raw (self s1) = raw (self s)) by frame_by P1.
    assert (E2 : raw (self s2) = raw (self s1)) by frame_by P2.
    congruence. }
  assert (In : (Raw.input_format r = "ur"
                /\ is_ur_in (self s3) = true
                /\ input_format (self s3) = input_format (self s))
               \/ (Raw.input_format r <> "ur"
                   /\ is_ur_in (self s3) = false
                   /\ exists f,
                        input_format (self s3) = Some f
                        /\ ((Raw.input_format r = "" /\ f = FormatRandom)
                            \/ (Raw.input_format r <> ""
                                /\ name f = Raw.input_format r)))).
  { unfold input_format_post in P3. cbv zeta in P3. rewrite R2 in P3.
    fold r in P3.
    destruct P3 as [(U & ->) | (U & f & -> & N)].
    - left. repeat split; [exact U | exact F2].
    - right. split; [exact U |]. split; [exact Ui2 |]. exists f.
      split; [reflexivity |].
      destruct N as [N | [N R]]; [left; exact N | right].
      split; [exact N | apply (resolved_format_name X _ _ R)]. }
  assert (Ru10 : Raw.is_ur (raw (self s10)) = Raw.is_ur r
                 /\ Raw.max_part_length (raw (self s10))
                    = Raw.max_part_length r).
  { rewrite R10, Ru, Rm, R3. split; reflexivity. }
  destruct Ru10 as [Ru10 Rm10].
  assert (Out : is_ur_out (self s10) = false /\
                max_part_length (self s10) = max_part_length (self s)).
  { split; congruence. }
  destruct Out as [Uo10' M10'].
  rewrite Ui', Ui4, O', Ur', F', I'.
  unfold ur_post in P11. cbv zeta in P11. rewrite Ru10, Rm10 in P11.
  split; [| split; [| split; [| split; [| split; [| split ] ] ] ] ].
  - destruct In as [(E & -> & _) | (E & -> & _)].
    + rewrite E. reflexivity.
    + symmetry. apply String.eqb_neq. exact E.
  - destruct P11 as [(E & ->) | (E & _ & _ & n & _ & ->)]; rewrite E.
    + exact Uo10'.
    + reflexivity.
  - destruct P11 as [(E & ->) | (E & I11 & _)].
    + rewrite Uo10'. apply andb_false_r.
    + rewrite Ui10, Ui4 in I11. rewrite I11. reflexivity.
  - intros E. destruct P11 as [(C & _) | (_ & _ & C11 & n & Mn & ->)];
      [congruence |].
    split; [exact C11 | exact Mn].
  - intros E. destruct P11 as [(_ & ->) | (C & _)]; [exact M10' | congruence].
  - intros E. destruct In as [(_ & U3 & F3) | (C & _)]; [| contradiction].
    unfold input_post in P4.
    destruct P4 as [(R & _ & _)
                   | (_ & _ & [(U & _) | (_ & tag & f & D & F & ->)])].
    + rewrite F3, Nr in R. discriminate R.
    + rewrite U3 in U. discriminate U.
    + exists tag, f. repeat split; assumption.
  - intros E. destruct In as [(C & _) | (_ & U3 & f & F3 & N)];
      [contradiction |].
    assert (K : ur (self s4) = ur (self s3)
                /\ input_format (self s4) = input_format (self s3)).
    { unfold input_post in P4.
      destruct P4 as [(_ & _ & ->)
                     | (_ & _ & [(_ & ->) | (U & _)])].
      - split; reflexivity.
      - split; reflexivity.
      - rewrite U3 in U. discriminate U. }
    destruct K as [-> ->]. rewrite F3. split; [exact Ur3 |].
    destruct N as [[N ->] | [N Nm]]; split; intros H; try congruence.
    exact Nm.
Qed.

Lemma validated_ur_witness :
  let s := start (Raw.mk "" "" [] "" "" "ur" "bip39" "" false "" [])
             ["ur:crypto-bip39/x"] in
  let s' := run_state sample s in
  parse_opt_end sample s = Ok (tt, s')
  /\ is_ur_in (self s') = true /\ is_ur_out (self s') = false.
Proof.
  intros s s'.
  assert (H : parse_opt_end sample s = Ok (tt, s'))
    by (vm_compute; reflexivity).
  split; [exact H |].
  destruct (validated_ur sample s s' H eq_refl eq_refl eq_refl)
    as (I & O & _).
  split; [exact I | exact O].
Defined.

(* ================================================================== *)
(** ** Standard input, option order, exceptions *)

(** X15. [read_args_from_stdin] never fails; it appends every line of
    standard input to the positional arguments, in order, leaves the
    other raw options and the rest of the object alone, and leaves
    standard input at its end, so that a second call adds nothing. *)
Theorem read_args_from_stdin_drains (s : State) :
  exists s1,
    read_args_from_stdin s = Ok (tt, s1)
    /\ Raw.args (raw (self s1)) = (Raw.args (raw (self s)) ++ cin s)%list
    /\ cin s1 = []
    /\ same_options s s1
    /\ set_raw (raw (self s)) (self s1) = self s
    /\ events s1 = (events s ++ [ReadStdin (cin s)])%list
    /\ exists s2,
         read_args_from_stdin s1 = Ok (tt, s2)
         /\ raw (self s2) = raw (self s1) /\ cin s2 = [].
Proof.
  unfold read_args_from_stdin. eexists. split; [reflexivity |].
  cbn [self cin events raw set_raw Raw.set_args Raw.args].
  rewrite getline_loop_all.
  split; [reflexivity |]. split; [reflexivity |]. split.
  - unfold same_options. cbn. repeat split.
  - split; [destruct s as [[] ? ?]; reflexivity |].
    split; [reflexivity |].
    eexists. split; [reflexivity |].
    cbn [self cin events raw set_raw Raw.set_args Raw.args getline_loop].
    split; [| reflexivity].
    destruct (raw (self s)). reflexivity.
Qed.

Lemma option_args_swap (key : option_key) (c1 c2 : argp_call) :
  same_target c1 c2 = false ->
  option_args key [c1; c2] = option_args key [c2; c1].
Proof.
  intros T.
  destruct c1 as [| k1 a1 | | a1 | |], c2 as [| k2 a2 | | a2 | |];
    cbn [option_args same_target] in *; try reflexivity; try discriminate T.
  - destruct k1, k2, key; try reflexivity; discriminate T.
  - destruct k1, key; try reflexivity; discriminate T.
  - destruct k2, key; try reflexivity; discriminate T.
Qed.

Lemma positional_swap (c1 c2 : argp_call) :
  same_target c1 c2 = false -> positional [c1; c2] = positional [c2; c1].
Proof.
  destruct c1, c2; cbn; intros T; try reflexivity; discriminate.
Qed.

(** X16. Two neighbouring calls that do not store into the same raw
    option can be exchanged: the raw options collected are the same.
    Only the order among the values of one option, among the --group
    values and among the positional arguments matters. *)
Theorem collected_order (l1 l2 : list argp_call) (c1 c2 : argp_call)
  (r : Raw.t) :
  same_target c1 c2 = false ->
  collected (l1 ++ c1 :: c2 :: l2) r = collected (l1 ++ c2 :: c1 :: l2) r.
Proof.
  intros T.
  change (c1 :: c2 :: l2) with ([c1; c2] ++ l2)%list.
  change (c2 :: c1 :: l2) with ([c2; c1] ++ l2)%list.
  rewrite !collected_app. f_equal.
  unfold collected.
  rewrite !(option_args_swap _ c1 c2 T), (positional_swap c1 c2 T).
  reflexivity.
Qed.

Lemma collected_order_witness :
  collected [OPTION key_o "hex"; ARGP_KEY_ARG "a"; OPTION key_c "12"] Raw.empty
  = collected [OPTION key_o "hex"; OPTION key_c "12"; ARGP_KEY_ARG "a"] Raw.empty.
Proof.
  apply (collected_order [OPTION key_o "hex"] [] (ARGP_KEY_ARG "a")
           (OPTION key_c "12") Raw.empty eq_refl).
Defined.

Lemma stoi_throws (c : string) (e : exn) :
  stoi c = inl e -> thrown_by_stoi e.
Proof.
  unfold stoi, thrown_by_stoi. destruct (scan_integer c) as [| | v rest].
  - intros [= <-]. left. reflexivity.
  - intros [= <-]. left. reflexivity.
  - destruct ((v <? INT_MIN) || (INT_MAX <? v)); [| discriminate].
    intros [= <-]. right. reflexivity.
Qed.

(** An exception that leaves a step comes from [stoi] or from the
    resource decoder. *)
Lemma step_throws (X : Extern) (m : M unit) (s : State) (e : exn) :
  In m (steps X) -> m s = Throw e ->
  thrown_by_stoi e
  \/ exists text, text <> [] /\ ur_decode X text = inl e.
Proof.
  intros I. unfold steps in I. cbn [In] in I.
  repeat (destruct I as [<- | I]); [ .. | contradiction ].
  - rewrite validate_count_cases. unfold resolved_count.
    destruct (str_empty (Raw.count (raw (self s)))); [discriminate |].
    destruct (stoi (Raw.count (raw (self s)))) as [e' | n] eqn:E.
    + intros [= <-]. left. apply (stoi_throws _ _ E).
    + destruct ((n <? 1) || (n >? 64)); discriminate.
  - intros H. exfalso.
    pose proof (proj2 (validate_deterministic_post s _) eq_refl) as K.
    rewrite K in H. discriminate.
  - rewrite validate_input_format_cases. cbv zeta.
    destruct (str_empty _); [discriminate |].
    destruct (_ =? "ur")%string; [discriminate |].
    destruct (resolved_format X _); discriminate.
  - rewrite validate_input_cases. cbv zeta.
    destruct (is_random _).
    + destruct (negb _); discriminate.
    + destruct (input (self (acquired s))) as [| a l] eqn:I'; cbn [vec_empty];
        [discriminate |].
      destruct (is_ur_in (self s)); [| discriminate].
      destruct (ur_decode X (a :: l)) as [e' | tag] eqn:D.
      * intros [= <-]. right. exists (a :: l). split; [discriminate | exact D].
      * destruct (format_for_tag X tag); discriminate.
  - unfold validate_count_for_input_format. run_step.
    destruct (is_hex _); [destruct (negb _); discriminate |].
    destruct (is_bc32 _); [destruct (negb _); discriminate | discriminate].
  - rewrite validate_output_format_cases. cbv zeta.
    destruct (str_empty _); [discriminate |].
    destruct (resolved_format X _) as [[] |]; discriminate.
  - rewrite validate_output_for_input_cases.
    destruct (compatible_b _ _ _); discriminate.
  - rewrite validate_ints_specific_cases. cbv zeta. unfold resolved_bound.
    destruct (output_format (self s)) as [[] |];
      try (destruct (negb _); [discriminate |];
           destruct (negb _); discriminate).
    destruct (str_empty (Raw.ints_low (raw (self s)))).
    + destruct (str_empty (Raw.ints_high (raw (self s)))).
      * destruct (_ && _); discriminate.
      * destruct (stoi (Raw.ints_high (raw (self s)))) as [e' | h] eqn:E.
        -- intros [= <-]. left. apply (stoi_throws _ _ E).
        -- destruct (_ && _); discriminate.
    + destruct (stoi (Raw.ints_low (raw (self s)))) as [e' | l] eqn:E.
      * intros [= <-]. left. apply (stoi_throws _ _ E).
      * destruct (str_empty (Raw.ints_high (raw (self s)))).
        -- destruct (_ && _); discriminate.
        -- destruct (stoi (Raw.ints_high (raw (self s)))) as [e' | h] eqn:E'.
           ++ intros [= <-]. left. apply (stoi_throws _ _ E').
           ++ destruct (_ && _); discriminate.
  - unfold validate_bip39_specific. run_step.
    destruct (negb (is_bip39 _)); [discriminate |].
    destruct (negb _); discriminate.
  - rewrite validate_slip39_specific_cases. cbv zeta.
    destruct (is_slip39 _).
    + destruct (negb _); [discriminate |].
      destruct (_ >? _); [discriminate |].
      destruct (build_groups_pure X (Raw.slip39_groups (raw (self s))) s)
        as [(gs & -> & _) | [msg ->]]; [| discriminate].
      unfold resolved_groups_threshold.
      destruct (str_empty _).
      * destruct (_ && _); discriminate.
      * destruct (stoi _) as [e' | gt] eqn:E.
        -- intros [= <-]. left. apply (stoi_throws _ _ E).
        -- destruct (_ && _); discriminate.
    + destruct (_ >? _); [discriminate |].
      destruct (negb _); discriminate.
  - rewrite validate_ur_cases. cbv zeta.
    destruct (Raw.is_ur _); [| discriminate].
    destruct (is_ur_in _); [discriminate |].
    unfold resolved_max_part_length.
    destruct (str_empty _).
    + destruct (ur_capable _); discriminate.
    + destruct (stoi _) as [e' | n] eqn:E.
      * intros [= <-]. left. apply (stoi_throws _ _ E).
      * destruct (ur_capable _); discriminate.
Qed.

(* ================================================================== *)
(** ** The diagnostics of a run *)

Lemma parse_group_spec_exits (X : Extern) (str msg : string) (s : State) :
  parse_group_spec X str s = Exit msg ->
  In msg [ could_not_parse str; group_bounds_message str;
           group_one_of_many_message ].
Proof.
  unfold parse_group_spec.
  destruct (sscanf_zd_of_zd str (indeterminate X)) as [[items t] n].
  run_step.
  destruct (negb (items =? 2)); [intros [= <-]; left; reflexivity |].
  destruct (negb ((0 <? t) && (t <=? n) && (n <=? 16)));
    [intros [= <-]; right; left; reflexivity |].
  destruct ((n >? 1) && (t =? 1)); [| discriminate].
  intros [= <-]. right. right. left. reflexivity.
Qed.

Lemma build_groups_exits (X : Extern) (specs : list string) (s : State)
  (msg : string) :
  build_groups X specs s = Exit msg ->
  exists spec,
    In spec specs
    /\ In msg [ could_not_parse spec; group_bounds_message spec;
                group_one_of_many_message ].
Proof.
  unfold build_groups. destruct (size specs =? 0); [discriminate |].
  intros E. pose proof (parse_groups_outcome X specs [] s) as O.
  rewrite E in O. destruct O as (pre & bad & post & new & -> & _ & B).
  exists bad. split; [apply in_elt |].
  apply (parse_group_spec_exits X bad msg s B).
Qed.

(** The diagnostic a step ends the run with. *)
Lemma step_exits (X : Extern) (m : M unit) (s : State) (msg : string) :
  In m (steps X) -> m s = Exit msg -> diagnostic X (raw (self s)) msg.
Proof.
  intros I. unfold steps in I. cbn [In] in I. unfold diagnostic.
  repeat (destruct I as [<- | I]); [ .. | contradiction ].
  - rewrite validate_count_cases.
    destruct (resolved_count _) as [e | n]; [discriminate |].
    destruct ((n <? 1) || (n >? 64)); [| discriminate].
    intros [= <-]. fixed_diagnostic.
  - intros H. exfalso.
    pose proof (proj2 (validate_deterministic_post s _) eq_refl) as K.
    rewrite K in H. discriminate.
  - rewrite validate_input_format_cases. cbv zeta.
    destruct (str_empty _); [discriminate |].
    destruct (_ =? "ur")%string; [discriminate |].
    destruct (resolved_format X _); [discriminate |].
    intros [= <-]. fixed_diagnostic.
  - rewrite validate_input_cases. cbv zeta.
    destruct (is_random _).
    + destruct (negb _); [| discriminate]. intros [= <-]. fixed_diagnostic.
    + destruct (vec_empty _); [intros [= <-]; fixed_diagnostic |].
      destruct (is_ur_in (self s)); [| discriminate].
      destruct (ur_decode X _) as [e' | tag]; [discriminate |].
      destruct (format_for_tag X tag); [discriminate |].
      intros [= <-]. fixed_diagnostic.
  - unfold validate_count_for_input_format. run_step.
    destruct (is_hex _).
    + destruct (negb _); [| discriminate]. intros [= <-]. fixed_diagnostic.
    + destruct (is_bc32 _); [| discriminate].
      destruct (negb _); [| discriminate]. intros [= <-]. fixed_diagnostic.
  - rewrite validate_output_format_cases. cbv zeta.
    destruct (str_empty _); [discriminate |].
    destruct (resolved_format X _) as [[] |]; try discriminate;
      intros [= <-]; fixed_diagnostic.
  - rewrite validate_output_for_input_cases.
    destruct (compatible_b _ _ _); [discriminate |].
    intros [= <-]. right. left. eexists _, _. reflexivity.
  - rewrite validate_ints_specific_cases. cbv zeta.
    destruct (output_format (self s)) as [[] |];
      try (destruct (negb _); [intros [= <-]; fixed_diagnostic |];
           destruct (negb _); [intros [= <-]; fixed_diagnostic
                              | discriminate]).
    destruct (resolved_bound _ low) as [e | l]; [discriminate |].
    destruct (resolved_bound _ high) as [e | h]; [discriminate |].
    destruct (_ && _); [discriminate |]. intros [= <-]. fixed_diagnostic.
  - unfold validate_bip39_specific. run_step.
    destruct (negb (is_bip39 _)); [discriminate |].
    destruct (negb _); [| discriminate]. intros [= <-]. fixed_diagnostic.
  - rewrite validate_slip39_specific_cases. cbv zeta.
    destruct (is_slip39 _).
    + destruct (negb _); [intros [= <-]; fixed_diagnostic |].
      destruct (_ >? _); [intros [= <-]; fixed_diagnostic |].
      destruct (build_groups X (Raw.slip39_groups (raw (self s))) s)
        as [[gs s1] | msg' | e] eqn:B.
      * destruct (resolved_groups_threshold _) as [e | gt]; [discriminate |].
        destruct (_ && _); [discriminate |]. intros [= <-]. fixed_diagnostic.
      * intros [= <-]. right. right. apply (build_groups_exits X _ _ _ B).
      * discriminate.
    + destruct (_ >? _); [intros [= <-]; fixed_diagnostic |].
      destruct (negb _); [intros [= <-]; fixed_diagnostic | discriminate].
  - rewrite validate_ur_cases. cbv zeta.
    destruct (Raw.is_ur _); [| discriminate].
    destruct (is_ur_in _); [intros [= <-]; fixed_diagnostic |].
    destruct (resolved_max_part_length _) as [e | n]; [discriminate |].
    destruct (ur_capable _); [discriminate |].
    intros [= <-]. fixed_diagnostic.
Qed.

Lemma steps_keep_options (X : Extern) (m : M unit) :
  In m (steps X) -> keeps_options m.
Proof.
  intros I s s' H. unfold steps in I. cbn [In] in I.
  repeat (destruct I as [<- | I]); [ .. | contradiction ].
  - apply validate_count_post in H. apply same_options_of_raw. frame_by H.
  - apply validate_deterministic_post in H. apply same_options_of_raw.
    frame_by H.
  - apply validate_input_format_post in H. apply same_options_of_raw.
    frame_by H.
  - apply validate_input_post in H. apply (input_post_frame X _ _ H).
  - apply validate_count_for_input_format_post in H.
    apply same_options_of_raw. frame_by H.
  - apply validate_output_format_post in H. apply same_options_of_raw.
    frame_by H.
  - apply validate_output_for_input_post in H. apply same_options_of_raw.
    frame_by H.
  - apply validate_ints_specific_post in H. apply same_options_of_raw.
    frame_by H.
  - apply validate_bip39_specific_post in H. apply same_options_of_raw.
    frame_by H.
  - apply validate_slip39_specific_post in H. apply same_options_of_raw.
    frame_by H.
  - apply validate_ur_post in H. apply same_options_of_raw. frame_by H.
Qed.

Lemma threads_keep_options (l : list (M unit)) :
  (forall m, In m l -> keeps_options m) ->
  forall s s', threads l s s' -> same_options s s'.
Proof.
  induction l as [| m l IH]; intros K s s'; cbn [threads].
  - intros <-. apply same_options_of_raw. reflexivity.
  - intros (s1 & E & T).
    apply same_options_trans with s1.
    + apply (K m (or_introl eq_refl) _ _ E).
    + apply IH; [| exact T]. intros m' I. apply K. right. exact I.
Qed.

Lemma diagnostic_same_options (X : Extern) (s s1 : State) (msg : string) :
  same_options s s1 ->
  diagnostic X (raw (self s1)) msg -> diagnostic X (raw (self s)) msg.
Proof.
  unfold same_options, diagnostic. cbv zeta.
  intros (_ & _ & G & _ & _ & I & O & _) D.
  rewrite G, I, O in D. exact D.
Qed.

(** X18. Every diagnostic a run of [validate] ends with is one of the
    diagnostics of params.cpp for the raw options given: a fixed text,
    "Unknown input format: " or "Unknown output format: " followed by
    the name given, the message that names two formats, or a message of
    [parse_group_spec] for one of the --group values given; or else it
    is the text of an exception of [stoi] or of the resource decoder. *)
Theorem parse_opt_end_diagnostics (X : Extern) (s : State) (msg : string) :
  parse_opt_end X s = Exit msg ->
  diagnostic X (raw (self s)) msg
  \/ msg = "stoi"
  \/ exists text e, text <> [] /\ ur_decode X text = inl e /\ msg = what e.
Proof.
  rewrite parse_opt_end_outcome.
  pose proof (sequence_failure_origin (steps X) s) as O.
  destruct (sequence (steps X) s) as [[[] s'] | msg' | e]; [discriminate | |].
  - intros [= <-]. left.
    destruct O as (pre & m & post & s1 & E & T & F).
    apply (diagnostic_same_options X s s1).
    + apply (threads_keep_options pre); [| exact T].
      intros m' I. apply steps_keep_options with X. rewrite E.
      apply in_or_app. left. exact I.
    + apply (step_exits X m); [rewrite E; apply in_elt | exact F].
  - intros [= <-]. right.
    destruct O as (pre & m & post & s1 & E & T & F).
    assert (I : In m (steps X)) by (rewrite E; apply in_elt).
    destruct (step_throws X m s1 e I F) as [[-> | ->] | (text & N & D)].
    + left. reflexivity.
    + left. reflexivity.
    + right. exists text, e. repeat split; assumption.
Qed.

Lemma parse_opt_end_diagnostics_witness :
  let s := slip39_state 16 ["2-of-3"; "5-of-3"] "" in
  diagnostic sample (raw (self s)) (group_bounds_message "5-of-3")
  \/ group_bounds_message "5-of-3" = "stoi"
  \/ exists text e,
       text <> [] /\ ur_decode sample text = inl e
       /\ group_bounds_message "5-of-3" = what e.
Proof.
  intros s.
  apply (parse_opt_end_diagnostics sample s (group_bounds_message "5-of-3")).
  vm_compute. reflexivity.
Defined.

(* ================================================================== *)
(** ** The exceptions of a run *)

Lemma unreadable_resolved (r : string) (d : Z) (e : exn) :
  (if str_empty r then inr d else stoi r) = inl e <-> unreadable r e.
Proof.
  unfold unreadable. destruct r as [| c r]; cbn [str_empty].
  - split; [discriminate | intros [H _]; congruence].
  - split; [intros H; split; [discriminate | exact H] | intros [_ H]; exact H].
Qed.

Lemma readable_resolved (r : string) (d : Z) :
  (exists n, (if str_empty r then inr d else stoi r) = inr n) <-> readable r.
Proof.
  unfold readable. destruct r as [| c r]; cbn [str_empty].
  - split; [intros _; left; reflexivity | intros _; exists d; reflexivity].
  - split; [intros H; right; exact H | intros [H | H]; [discriminate | exact H]].
Qed.

Lemma acquired_input_is (s : State) :
  input (self (acquired s)) = acquired_input s.
Proof. rewrite acquired_explicit. reflexivity. Qed.

(** A step started at one of its sites throws. *)
Lemma throw_site_throws (X : Extern) (s : State) (e : exn) (m : M unit) :
  throw_site X s e m -> m s = Throw e.
Proof.
  intros H. destruct H.
  - rewrite validate_count_cases. unfold resolved_count.
    apply (unreadable_resolved _ 16) in H. rewrite H. reflexivity.
  - rewrite validate_input_cases. cbv zeta.
    rewrite H, acquired_input_is, H1, H2.
    destruct (acquired_input s); [congruence | reflexivity].
  - rewrite validate_ints_specific_cases. cbv zeta.
    destruct (output_format (self s)) as [[] |]; try discriminate.
    unfold resolved_bound.
    apply (unreadable_resolved _ low) in H0. rewrite H0. reflexivity.
  - rewrite validate_ints_specific_cases. cbv zeta.
    destruct (output_format (self s)) as [[] |]; try discriminate.
    unfold resolved_bound.
    apply (readable_resolved _ low) in H0. destruct H0 as [l H0].
    apply (unreadable_resolved _ high) in H1. rewrite H0, H1. reflexivity.
  - rewrite validate_slip39_specific_cases. cbv zeta.
    destruct H2 as [gs H2].
    rewrite H, H0, H2. cbn [negb].
    replace (size (Raw.slip39_groups (raw (self s))) >? Z.of_nat (MAX_GROUPS X))
      with false by (symmetry; rewrite Z.gtb_ltb; apply Z.ltb_ge; exact H1).
    unfold resolved_groups_threshold.
    apply (unreadable_resolved _ 1) in H3. rewrite H3. reflexivity.
  - rewrite validate_ur_cases. cbv zeta. rewrite H, H0.
    unfold resolved_max_part_length.
    apply (unreadable_resolved _ 2500) in H1. rewrite H1. reflexivity.
Qed.

(** A step that throws was started at one of its sites. *)
Lemma throws_at_site (X : Extern) (m : M unit) (s : State) (e : exn) :
  In m (steps X) -> m s = Throw e -> throw_site X s e m.
Proof.
  intros I. unfold steps in I. cbn [In] in I.
  repeat (destruct I as [<- | I]); [ .. | contradiction ].
  - rewrite validate_count_cases. unfold resolved_count.
    destruct (if str_empty (Raw.count (raw (self s))) then inr 16
              else stoi (Raw.count (raw (self s)))) as [e' | n] eqn:E.
    + intros [= <-]. apply throws_count.
      apply (unreadable_resolved _ 16), E.
    + destruct ((n <? 1) || (n >? 64)); discriminate.
  - intros H. exfalso.
    pose proof (proj2 (validate_deterministic_post s _) eq_refl) as K.
    rewrite K in H. discriminate.
  - rewrite validate_input_format_cases. cbv zeta.
    destruct (str_empty _); [discriminate |].
    destruct (_ =? "ur")%string; [discriminate |].
    destruct (resolved_format X _); discriminate.
  - rewrite validate_input_cases. cbv zeta. rewrite acquired_input_is.
    destruct (is_random _) eqn:R.
    + destruct (negb _); discriminate.
    + destruct (acquired_input s) as [| a l] eqn:I'; cbn [vec_empty];
        [discriminate |].
      destruct (is_ur_in (self s)) eqn:U; [| discriminate].
      destruct (ur_decode X (a :: l)) as [e' | tag] eqn:D.
      * intros [= <-]. apply throws_decode; try assumption.
        -- rewrite I'. discriminate.
        -- rewrite I'. exact D.
      * destruct (format_for_tag X tag); discriminate.
  - unfold validate_count_for_input_format. run_step.
    destruct (is_hex _); [destruct (negb _); discriminate |].
    destruct (is_bc32 _); [destruct (negb _); discriminate | discriminate].
  - rewrite validate_output_format_cases. cbv zeta.
    destruct (str_empty _); [discriminate |].
    destruct (resolved_format X _) as [[] |]; discriminate.
  - rewrite validate_output_for_input_cases.
    destruct (compatible_b _ _ _); discriminate.
  - rewrite validate_ints_specific_cases. cbv zeta. unfold resolved_bound.
    destruct (output_format (self s)) as [[] |] eqn:O;
      try (destruct (negb _); [discriminate |];
           destruct (negb _); discriminate).
    assert (OI : is_ints (output_format (self s)) = true)
      by (rewrite O; reflexivity).
    destruct (if str_empty (Raw.ints_low (raw (self s))) then inr low
              else stoi (Raw.ints_low (raw (self s)))) as [e' | l] eqn:L.
    + intros [= <-]. apply throws_low; [exact OI |].
      apply (unreadable_resolved _ low), L.
    + destruct (if str_empty (Raw.ints_high (raw (self s))) then inr high
                else stoi (Raw.ints_high (raw (self s)))) as [e' | h] eqn:Hh.
      * intros [= <-]. apply throws_high; [exact OI | |].
        -- apply (readable_resolved _ low). exists l. exact L.
        -- apply (unreadable_resolved _ high), Hh.
      * destruct (_ && _); discriminate.
  - unfold validate_bip39_specific. run_step.
    destruct (negb (is_bip39 _)); [discriminate |].
    destruct (negb _); discriminate.
  - rewrite validate_slip39_specific_cases. cbv zeta.
    destruct (is_slip39 _) eqn:O.
    + destruct (slip39_is_seed_length_valid X (count (self s))) eqn:C;
        cbn [negb]; [| discriminate].
      destruct (_ >? _) eqn:G; [discriminate |].
      destruct (build_groups_pure X (Raw.slip39_groups (raw (self s))) s)
        as [(gs & B & _) | [msg ->]]; [| discriminate].
      rewrite B.
      unfold resolved_groups_threshold.
      destruct (if str_empty (Raw.slip39_groups_threshold (raw (self s)))
                then inr 1
                else stoi (Raw.slip39_groups_threshold (raw (self s))))
        as [e' | gt] eqn:E.
      * intros [= <-]. apply throws_groups_threshold; try assumption.
        -- rewrite Z.gtb_ltb in G. apply Z.ltb_ge. exact G.
        -- exists gs. exact B.
        -- apply (unreadable_resolved _ 1), E.
      * destruct (_ && _); discriminate.
    + destruct (_ >? _); [discriminate |].
      destruct (negb _); discriminate.
  - rewrite validate_ur_cases. cbv zeta.
    destruct (Raw.is_ur _) eqn:U; [| discriminate].
    destruct (is_ur_in _) eqn:I'; [discriminate |].
    unfold resolved_max_part_length.
    destruct (if str_empty (Raw.max_part_length (raw (self s))) then inr 2500
              else stoi (Raw.max_part_length (raw (self s))))
      as [e' | n] eqn:E.
    + intros [= <-]. apply throws_max_part_length; try assumption.
      apply (unreadable_resolved _ 2500), E.
    + destruct (ur_capable _); discriminate.
Qed.

(** X17. A step of [validate] throws exactly at its site: [stoi] on a
    --count that was given; the resource decoder on the input acquired
    with --in ur; [stoi] on a --low that was given, or on a --high that
    was given once --low is absent or read, with ints output; [stoi] on
    a --group-threshold that was given, with SLIP39 output, once the
    count, the number of groups and every group specifier have passed;
    [stoi] on the value of --ur, without --in ur.  A run of [validate]
    throws exactly when its steps return up to one that starts at its
    site; the raw options are then those the run started with, and
    [parse_opt] ends the run with the text of the exception. *)
Theorem validate_throw_sites (X : Extern) (s : State) (e : exn) :
  (forall m s1, In m (steps X) -> (m s1 = Throw e <-> throw_site X s1 e m))
  /\ (validate X s = Throw e
      <-> exists pre m post s1,
            steps X = (pre ++ m :: post)%list
            /\ threads pre s s1
            /\ throw_site X s1 e m)
  /\ (forall pre m post s1,
        steps X = (pre ++ m :: post)%list ->
        threads pre s s1 ->
        throw_site X s1 e m ->
        same_options s s1 /\ parse_opt_end X s = Exit (what e)).
Proof.
  assert (A : forall pre m post s1,
             steps X = (pre ++ m :: post)%list ->
             threads pre s s1 -> throw_site X s1 e m ->
             validate X s = Throw e).
  { intros pre m post s1 E T H. rewrite validate_is_sequence, E.
    apply (proj2 (sequence_first_failure pre post m s s1 T)).
    apply throw_site_throws with X. exact H. }
  split; [| split].
  - intros m s1 I. split; [apply throws_at_site; exact I |].
    apply throw_site_throws.
  - split.
    + intros H. rewrite validate_is_sequence in H.
      pose proof (sequence_failure_origin (steps X) s) as O.
      rewrite H in O. destruct O as (pre & m & post & s1 & E & T & F).
      exists pre, m, post, s1. split; [exact E |]. split; [exact T |].
      apply throws_at_site; [| exact F]. rewrite E. apply in_elt.
    + intros (pre & m & post & s1 & E & T & H). exact (A pre m post s1 E T H).
  - intros pre m post s1 E T H. split.
    + apply (threads_keep_options pre); [| exact T].
      intros m' I. apply (steps_keep_options X). rewrite E.
      apply in_or_app. left. exact I.
    + unfold parse_opt_end. rewrite (A pre m post s1 E T H). reflexivity.
Qed.

Lemma validate_throw_sites_witness :
  parse_opt_end sample (ints_state_raw "x" "7") = Exit "stoi".
Proof.
  assert (T : exists s1,
             threads (firstn 7 (steps sample)) (ints_state_raw "x" "7") s1
             /\ throw_site sample s1 (invalid_argument "stoi")
                  validate_ints_specific).
  { eexists. split.
    - cbn [firstn steps threads].
      repeat (eexists; split; [vm_compute; reflexivity |]). reflexivity.
    - apply throws_low; [reflexivity |].
      split; [discriminate | reflexivity]. }
  destruct T as (s1 & T & H).
  exact (proj2 (proj2 (proj2 (validate_throw_sites sample
                                (ints_state_raw "x" "7")
                                (invalid_argument "stoi")))
                  (firstn 7 (steps sample)) validate_ints_specific
                  (skipn 8 (steps sample)) s1 eq_refl T H)).
Defined.
